(** * scparser: a shallow embedding of the Go source-code parser

    The development follows the Go sources of the repository:
    [Parse], [parser], [toString], [formatPkg], [formatFunctions],
    [processFunction], [processUnderlyingFunctions], [extractSourceCode],
    [parseGoModFile], [loadPackages], [initialize], [isGoModPkg] and
    [changeDir].  The parts of the Go standard library and of
    [golang.org/x/tools/go/packages] that the program consumes (syntax trees,
    type information, file sets, the file system) are modelled as plain data.

    Conventions:
    - a Go pointer that is used as a map key or compared with [==] is an
      address in [N], the nil pointer being address [0];
    - a Go [int] is a [Z] between [int_min] and [int_max]; the one
      subtraction that can leave that range, [depth - 1], is [int_pred],
      which wraps around at [int_min];
    - a Go [string] is a [string] of bytes;
    - a panic is the [Panic] result; nothing in the program recovers.  A
      panic raised by a deferred call while the function is already
      panicking replaces the panic in flight. *)

From Stdlib Require Import ZArith String Ascii List Lia.
From stdpp Require Import base gmap strings list.

Local Open Scope Z_scope.

(** ** Results of fallible code *)

Inductive error : Type :=
  | ManifestUnreadable
  | PackageLoadFailure
  | NoPackagesFound
  | EntryPointNotFound (funcName : string)
  | SourceReadFailure
  | GetwdFailure
  | WorkingDirectoryFailure
  | RestoreFailure
  | IndexOutOfRange
  | NilDereference.

(** [OutOfFuel] is not a behaviour of the program: it marks a run of the
    recursive traversal that was given too little fuel (see
    [processFunction_fuel_enough]). *)
Inductive result (A : Type) : Type :=
  | Ok (a : A)
  | Panic (e : error)
  | OutOfFuel.
Arguments Ok {A} a.
Arguments Panic {A} e.
Arguments OutOfFuel {A}.

#[global] Instance result_ret : MRet result := λ A a, Ok a.
#[global] Instance result_bind : MBind result := λ A B f m,
  match m with
  | Ok a => f a
  | Panic e => Panic e
  | OutOfFuel => OutOfFuel
  end.

(** A Go [for _, x := range l] loop whose body may panic. *)
Fixpoint foldM {A B : Type} (f : B → A → result B) (l : list A) (b : B)
  : result B :=
  match l with
  | [] => Ok b
  | x :: l' => b' ← f b x; foldM f l' b'
  end.

(** [l[i]] on a slice: panics out of range. *)
Definition index {A : Type} (l : list A) (i : Z) : result A :=
  if i <? 0 then Panic IndexOutOfRange
  else match l !! Z.to_nat i with
       | Some x => Ok x
       | None => Panic IndexOutOfRange
       end.

(** [defer d()] around a body: the deferred call runs when the body returns
    and when it panics; its own panic is then the panic of the function. *)
Definition deferred {A : Type} (d : result unit) (body : result A)
  : result A :=
  match body with
  | Ok a => _ ← d; Ok a
  | Panic e => match d with
               | Panic e' => Panic e'
               | _ => Panic e
               end
  | OutOfFuel => OutOfFuel
  end.

(** Go's [int] has 64 bits. *)
Definition int_min : Z := - 2 ^ 63.
Definition int_max : Z := 2 ^ 63 - 1.

(** [x - 1] on an [int]: the least value wraps around to the greatest. *)
Definition int_pred (x : Z) : Z := if x =? int_min then int_max else x - 1.
Arguments int_pred : simpl never.

(** The string ["\n"]. *)
Definition LF : string := String "010"%char EmptyString.

(** ** The [strings] package *)

Module gostrings.

Definition nl : ascii := "010"%char.

(** [strings.Split(s, "\n")]: the pieces between newlines; the empty
    string gives one empty piece. *)
Fixpoint Split (s : string) : list string :=
  match s with
  | EmptyString => [EmptyString]
  | String c s' =>
      if Ascii.eqb c nl then EmptyString :: Split s'
      else match Split s' with
           | l :: ls => String c l :: ls
           | [] => [String c EmptyString]
           end
  end.

Definition byte (c : ascii) : Z := Z.of_N (N_of_ascii c).

(** [utf8.RuneError] *)
Definition RuneError : Z := 65533.

(** A continuation byte of UTF-8: [0x80] to [0xBF]. *)
Definition continuation (b : Z) : bool := (128 <=? b) && (b <=? 191).

(** [utf8.DecodeRuneInString(s)], which is also how [for ... range s]
    reads a string: the rune at the head of [s] and the number of bytes it
    takes.  A byte that does not start a well-formed encoding (a stray
    continuation byte, an overlong form, a surrogate, a value above
    [0x10FFFF], a truncated sequence) is read as [RuneError] of width 1. *)
Definition decodeRune (s : string) : Z * nat :=
  match s with
  | EmptyString => (RuneError, O)
  | String c0 s1 =>
      let b0 := byte c0 in
      if b0 <? 128 then (b0, 1%nat)
      else if (b0 <? 194) || (244 <? b0) then (RuneError, 1%nat)
      else
        (* the range accepted for the second byte *)
        let lo := if b0 =? 224 then 160 else if b0 =? 240 then 144 else 128 in
        let hi := if b0 =? 237 then 159 else if b0 =? 244 then 143 else 191 in
        match s1 with
        | EmptyString => (RuneError, 1%nat)
        | String c1 s2 =>
            let b1 := byte c1 in
            if (b1 <? lo) || (hi <? b1) then (RuneError, 1%nat)
            else if b0 <? 224 then
              (Z.lor (Z.shiftl (Z.land b0 31) 6) (Z.land b1 63), 2%nat)
            else
              match s2 with
              | EmptyString => (RuneError, 1%nat)
              | String c2 s3 =>
                  let b2 := byte c2 in
                  if negb (continuation b2) then (RuneError, 1%nat)
                  else if b0 <? 240 then
                    (Z.lor (Z.shiftl (Z.land b0 15) 12)
                       (Z.lor (Z.shiftl (Z.land b1 63) 6) (Z.land b2 63)),
                     3%nat)
                  else
                    match s3 with
                    | EmptyString => (RuneError, 1%nat)
                    | String c3 _ =>
                        let b3 := byte c3 in
                        if negb (continuation b3) then (RuneError, 1%nat)
                        else
                          (Z.lor (Z.shiftl (Z.land b0 7) 18)
                             (Z.lor (Z.shiftl (Z.land b1 63) 12)
                                (Z.lor (Z.shiftl (Z.land b2 63) 6)
                                   (Z.land b3 63))),
                           4%nat)
                    end
              end
        end
  end.

(** [unicode.IsSpace(r)]: in Latin-1 the runes tab, newline, vertical tab,
    form feed, carriage return, space, U+0085 and U+00A0; above it the
    runes of the White_Space property. *)
Definition IsSpace (r : Z) : bool :=
  if r <=? 255 then
    ((9 <=? r) && (r <=? 13)) || (r =? 32) || (r =? 133) || (r =? 160)
  else
    (r =? 5760) || ((8192 <=? r) && (r <=? 8202)) || (r =? 8232)
    || (r =? 8233) || (r =? 8239) || (r =? 8287) || (r =? 12288).

(** The loop of [strings.FieldsFunc(s, unicode.IsSpace)] over the runes of
    [s], read byte by byte: [more] counts the bytes that remain of the rune
    being read, which are kept in the field [cur] when [keep] is set and
    dropped with their white-space rune otherwise.  A field in progress is
    a non-empty [cur]. *)
Fixpoint fields_from (more : nat) (keep : bool) (cur : string) (s : string)
  : list string :=
  match s with
  | EmptyString => if String.eqb cur "" then [] else [cur]
  | String c s' =>
      match more with
      | S more' =>
          fields_from more' keep (if keep then cur +:+ String c "" else cur) s'
      | O =>
          let '(r, width) := decodeRune s in
          if IsSpace r then
            (if String.eqb cur "" then fields_from (width - 1) false "" s'
             else cur :: fields_from (width - 1) false "" s')
          else fields_from (width - 1) true (cur +:+ String c "") s'
      end
  end.

(** [strings.Fields(s)]: the maximal pieces of [s] without white space, as
    [unicode.IsSpace] defines it on the runes of [s]. *)
Definition Fields (s : string) : list string := fields_from 0 false "" s.

(** [strings.HasPrefix(s, prefix)] *)
Definition HasPrefix (s prefix : string) : bool := String.prefix prefix s.

End gostrings.

(** ** Syntax trees, type information and packages *)

(** [token.Position]: the file, the offset in it (from 0) and the line (from
    1) of a position.  The program reads [Filename] and [Line]. *)
Record Position : Type := { Filename : string; Offset : Z; Line : Z }.

(** [*token.FileSet]: [fset.Position(pos)]. *)
Definition FileSet : Type := Z → Position.

(** [*ast.Ident]; the type information is keyed by the node itself. *)
Record Ident : Type := { NamePos : Z; IdentName : string }.

(** [*ast.Comment]: [Pos()] is [Slash], [End()] is [Slash + len(Text)]. *)
Record Comment : Type := { Slash : Z; Text : string }.
Definition Comment_Pos (c : Comment) : Z := Slash c.
Definition Comment_End (c : Comment) : Z :=
  Slash c + Z.of_nat (String.length (Text c)).

(** [ce.Fun] of an [*ast.CallExpr], by the cases of the type switch in
    [processUnderlyingFunctions]; [None] is a nil node. *)
Inductive Expr : Type :=
  | IdentExpr (id : option Ident)
  | SelectorExpr (Sel : option Ident)
  | OtherExpr.

Record CallExpr : Type := { Fun : Expr }.

(** [*ast.BlockStmt] of a function body: its [*ast.CallExpr] nodes in the
    order [ast.Inspect] reaches them (depth first, a call before the calls
    nested in it), and [End()]. *)
Record BlockStmt : Type := { Calls : list CallExpr; Block_End : Z }.

(** [*ast.FuncDecl].  [Recv] is the receiver of a method, [Type_Pos] and
    [Type_End] the extent of the [func] signature. *)
Record FuncDecl : Type := {
  Doc : option (list (option Comment));
  Recv : option string;
  Name : option Ident;
  Type_Pos : Z;
  Type_End : Z;
  Body : option BlockStmt;
}.

(** [fn.Pos()] is the position of the [func] keyword. *)
Definition FuncDecl_Pos (fn : FuncDecl) : Z := Type_Pos fn.
(** [fn.End()] *)
Definition FuncDecl_End (fn : FuncDecl) : Z :=
  match Body fn with
  | Some b => Block_End b
  | None => Type_End fn
  end.

(** [*ast.File]: its [*ast.FuncDecl] nodes in source order.  Function
    declarations are top-level, so these are the only nodes on which the
    callbacks given to [ast.Inspect(file, ...)] do anything. *)
Record File : Type := { Decls : list FuncDecl }.

(** [types.Type]: a [*types.Signature] (by address) or anything else. *)
Inductive Type_ : Type :=
  | TSignature (sig : N)
  | TOther.

(** [types.Object]: [Pkg()] (its path, or nil) and [Type()]. *)
Record Object : Type := { objPkg : option string; objType : Type_ }.

(** [*packages.Package], loaded with names, files, syntax and types. *)
Record Package : Type := {
  pkgAddr : N;
  pkgName : string;
  PkgPath : string;
  Syntax : list File;
  ObjectOf : Ident → option Object;
  Fset : FileSet;
}.

(** A module snapshot: what one run reads from its environment once the
    working directory is the module's: the manifest [go.mod], the result of
    [packages.Load] and the files that [os.ReadFile] finds ([None]: the call
    fails). *)
Record Snapshot : Type := {
  goMod : option string;
  load : option (list Package);
  readFile : string → option string;
}.

(** The process environment: [os.Getwd()] fails or returns the current
    directory; [os.Chdir(dir)] fails or enters a module directory; and the
    later [os.Chdir(curDir)], back to where the run started, succeeds or
    fails. *)
Record World : Type := {
  getwd : option string;
  chdir : string → option Snapshot;
  restore : string → bool;
}.

(** ** The parser *)

Record fileAndPkg : Type := { file : File; pkg : Package }.

(** The [parser] struct ([rootPkg] is never read or written and is left
    out).  [extracted] is a history variable: it records, in order, the owning
    package, the signature and the sliced text of every function appended to
    [functions]; no field of the program depends on it. *)
Record parser : Type := {
  funcToFileAndPkg : gmap N fileAndPkg;
  functions : gmap N string;
  pkgOrder : list Package;
  seen : gset N;
  extracted : list (N * N * string);
}.

Definition newParser (funcToFileAndPkg : gmap N fileAndPkg) : parser :=
  {| funcToFileAndPkg := funcToFileAndPkg;
     functions := ∅;
     pkgOrder := [];
     seen := ∅;
     extracted := [] |}.

Definition formatPkg (pkgName : string) (codeOnly : bool) : string :=
  if codeOnly then "// " +:+ pkgName else pkgName.

Definition formatFunctions (functions : string) (codeOnly : bool) : string :=
  if codeOnly then functions else "```" +:+ functions +:+ "```".

(** [p.functions[pkg]]: the empty string when the key is absent. *)
Definition functions_at (p : parser) (pkg : Package) : string :=
  default "" (functions p !! pkgAddr pkg).

(** The body of the loop of [toString], at index [k]. *)
Definition toString_body (p : parser) (excludeRoot codeOnly : bool)
    (result : string) (k : Z) (pkg : Package) : string :=
  if (k =? 0) && excludeRoot then result
  else
    let result :=
      if (k >? 1) || ((k =? 1) && negb excludeRoot)
      then result +:+ (formatPkg (pkgName pkg) codeOnly +:+ LF)
      else result in
    let result := result +:+ formatFunctions (functions_at p pkg) codeOnly in
    if k <? Z.of_nat (length (pkgOrder p)) - 1
    then result +:+ (LF +:+ LF)
    else result.

Fixpoint toString_loop (p : parser) (excludeRoot codeOnly : bool)
    (result : string) (k : Z) (pkgs : list Package) : string :=
  match pkgs with
  | [] => result
  | pkg :: pkgs' =>
      toString_loop p excludeRoot codeOnly
        (toString_body p excludeRoot codeOnly result k pkg) (k + 1) pkgs'
  end.

Definition toString (p : parser) (excludeRoot codeOnly : bool) : string :=
  toString_loop p excludeRoot codeOnly "" 0 (pkgOrder p).

(** ** The source slicer *)

(** The loop [for i := from; i <= to; i++ { sb.WriteString(lines[i]);
    sb.WriteString("\n") }] on the builder [sb]. *)
Definition writeLines (lines : list string) (from to : Z) (sb : string)
  : result string :=
  foldM (λ sb i, l ← index lines i; Ok (sb +:+ (l +:+ LF)))
        (seqZ from (to - from + 1)) sb.

(** The loop over [fn.Doc.List]. *)
Definition writeComments (fset : FileSet) (lines : list string)
    (comments : list (option Comment)) (sb : string) : result string :=
  foldM (λ sb comment,
           match comment with
           | None => Ok sb
           | Some comment =>
               let commentStart := Line (fset (Comment_Pos comment)) - 1 in
               let commentEnd := Line (fset (Comment_End comment)) - 1 in
               writeLines lines commentStart commentEnd sb
           end)
        comments sb.

(** [extractSourceCode(fset, file, fn)]: the pair [(string, error)] that the
    Go function returns, or a panic of an index expression. *)
Definition extractSourceCode (readFile : string → option string)
    (fset : FileSet) (file : File) (fn : FuncDecl)
  : result (string * option error) :=
  match readFile (Filename (fset (FuncDecl_Pos fn))) with
  | None => Ok ("", Some SourceReadFailure)
  | Some fileContent =>
      let lines := gostrings.Split fileContent in
      let start := Line (fset (FuncDecl_Pos fn)) - 1 in
      sb ← match Doc fn with
           | Some comments => writeComments fset lines comments ""
           | None => Ok ""
           end;
      let end_ := Line (fset (FuncDecl_End fn)) - 1 in
      sb ← writeLines lines start end_ sb;
      Ok (sb, None)
  end.

(** ** The call-graph walker *)

(** The callee that a call expression resolves to, if
    [processUnderlyingFunctions] follows it: the function node is an
    identifier or the selector of a selector expression, it has an object,
    the object has a package, and its type is a signature. *)
Definition callee (pkg : Package) (ce : CallExpr) : option N :=
  funcNode ← match Fun ce with
             | IdentExpr id => id
             | SelectorExpr Sel => Sel
             | OtherExpr => None
             end;
  obj ← ObjectOf pkg funcNode;
  _ ← objPkg obj;
  match objType obj with
  | TSignature funcSig => Some funcSig
  | TOther => None
  end.

(** [p.processUnderlyingFunctions(pkg, fn, depth)], given the function
    [processFunction] that it calls back. *)
Definition processUnderlyingFunctions
    (processFunction : N → Z → parser → result parser)
    (pkg : Package) (fn : FuncDecl) (depth : Z) (p : parser) : result parser :=
  if depth <=? 0 then Ok p
  else match Body fn with
       | None => Ok p
       | Some body =>
           foldM (λ p ce,
                    match callee pkg ce with
                    | None => Ok p
                    | Some funcSig => processFunction funcSig depth p
                    end)
                 (Calls body) p
       end.

(** The updates of [processFunction] once the source is sliced: register the
    package if it has no text yet, append the text, mark the signature. *)
Definition record_function (f : fileAndPkg) (funcSig : N) (funcSrc : string)
    (p : parser) : parser :=
  {| funcToFileAndPkg := funcToFileAndPkg p;
     functions :=
       <[pkgAddr (pkg f) := functions_at p (pkg f) +:+ (LF +:+ funcSrc)]>
         (functions p);
     pkgOrder :=
       match functions p !! pkgAddr (pkg f) with
       | None => pkgOrder p ++ [pkg f]
       | Some _ => pkgOrder p
       end;
     seen := {[funcSig]} ∪ seen p;
     extracted := extracted p ++ [(pkgAddr (pkg f), funcSig, funcSrc)] |}.

(** The callback that [processFunction] gives to [ast.Inspect(f.file, ...)],
    at one function declaration. *)
Definition visit_decl (readFile : string → option string)
    (processFunction : N → Z → parser → result parser)
    (f : fileAndPkg) (funcSig : N) (depth : Z) (p : parser) (fn : FuncDecl)
  : result parser :=
  match Name fn with
  | None => Ok p
  | Some name =>
      match ObjectOf (pkg f) name with
      | None => Panic NilDereference
      | Some obj =>
          match objType obj with
          | TOther => Ok p
          | TSignature sig =>
              if negb (sig =? funcSig)%N then Ok p
              else
                '(funcSrc, err) ←
                  extractSourceCode readFile (Fset (pkg f)) (file f) fn;
                match err with
                | Some e => Panic e
                | None =>
                    processUnderlyingFunctions processFunction (pkg f) fn
                      (int_pred depth) (record_function f funcSig funcSrc p)
                end
          end
      end
  end.

(** [p.processFunction(funcSig, depth)].  The recursion is on [fuel]; each
    call through [processUnderlyingFunctions] lowers [depth] (unless
    [depth] is [int_min], where [depth - 1] wraps around), and
    [fuel_of depth] is then enough. *)
Fixpoint processFunction (readFile : string → option string) (fuel : nat)
    (funcSig : N) (depth : Z) (p : parser) : result parser :=
  match fuel with
  | O => OutOfFuel
  | S fuel =>
      if bool_decide (funcSig ∈ seen p) then Ok p
      else match funcToFileAndPkg p !! funcSig with
           | None => Ok p
           | Some f =>
               foldM (visit_decl readFile (processFunction readFile fuel)
                                 f funcSig depth)
                     (Decls (file f)) p
           end
  end.

Definition fuel_of (depth : Z) : nat := S (Z.to_nat depth).

(** ** The symbol index *)

(** [parseGoModFile()]: the first field of every non-blank line of [go.mod],
    or the second one after [module] or [require], unless it is one of the
    filtered words. *)
Definition parseGoModFile (m : Snapshot) : result (list string) :=
  match goMod m with
  | None => Panic ManifestUnreadable
  | Some content =>
      foldM (λ goModPaths line,
               let fields := gostrings.Fields line in
               if (0 <? length fields)%nat then
                 pkg ← index fields 0;
                 pkg ← (if String.eqb pkg "module" || String.eqb pkg "require"
                        then index fields 1 else Ok pkg);
                 if negb (String.eqb pkg "") && negb (String.eqb pkg ")")
                    && negb (String.eqb pkg "(")
                    && negb (String.eqb pkg "require")
                    && negb (String.eqb pkg "go")
                 then Ok (goModPaths ++ [pkg])
                 else Ok goModPaths
               else Ok goModPaths)
            (gostrings.Split content) []
  end.

(** [loadPackages()]: the failure of [go mod vendor] only prints a warning. *)
Definition loadPackages (m : Snapshot) : result (list Package) :=
  match load m with
  | None => Panic PackageLoadFailure
  | Some pkgs =>
      if (length pkgs =? 0)%nat then Panic NoPackagesFound else Ok pkgs
  end.

(** [isGoModPkg(goModPaths, pkgPath)] *)
Fixpoint isGoModPkg (goModPaths : list string) (pkgPath : string) : bool :=
  match goModPaths with
  | [] => false
  | path :: goModPaths' =>
      if String.eqb pkgPath path
         || gostrings.HasPrefix pkgPath (path +:+ "/")
      then true
      else isGoModPkg goModPaths' pkgPath
  end.

(** The callback that [initialize] gives to [ast.Inspect(file, ...)], at one
    function declaration; the state is [(funcSig, funcToFileAndPkg)]. *)
Definition scan_decl (goModPaths : list string) (funcName : string)
    (pkg : Package) (file : File) (st : N * gmap N fileAndPkg)
    (fn : FuncDecl) : result (N * gmap N fileAndPkg) :=
  match Name fn with
  | None => Ok st
  | Some name =>
      match ObjectOf pkg name with
      | None => Ok st
      | Some obj =>
          match objType obj with
          | TOther => Ok st
          | TSignature sig =>
              if (sig =? 0)%N then Ok st
              else
                let funcToFileAndPkg :=
                  <[sig := {| file := file; pkg := pkg |}]> st.2 in
                root ← index goModPaths 0;
                if String.eqb (PkgPath pkg) root
                   && String.eqb (IdentName name) funcName
                then Ok (sig, funcToFileAndPkg)
                else Ok (st.1, funcToFileAndPkg)
          end
      end
  end.

(** The body of the loop of [initialize] over the loaded packages. *)
Definition scan_pkg (goModPaths : list string) (funcName : string)
    (st : N * gmap N fileAndPkg) (pkg : Package)
  : result (N * gmap N fileAndPkg) :=
  if negb (isGoModPkg goModPaths (PkgPath pkg)) then Ok st
  else
    st ← foldM (λ st file,
                  foldM (scan_decl goModPaths funcName pkg file)
                        (Decls file) st)
               (Syntax pkg) st;
    root ← index goModPaths 0;
    if String.eqb (PkgPath pkg) root && (st.1 =? 0)%N
    then Panic (EntryPointNotFound funcName)
    else Ok st.

(** [initialize(funcName)] *)
Definition initialize (m : Snapshot) (funcName : string)
  : result (N * gmap N fileAndPkg) :=
  goModPaths ← parseGoModFile m;
  pkgs ← loadPackages m;
  foldM (scan_pkg goModPaths funcName) pkgs (0%N, ∅).

(** ** The entry point *)

(** [changeDir(dir)], with its three [panicOnErr(err)]: after [os.Getwd()],
    after [os.Chdir(dir)], and in the function it returns, after
    [os.Chdir(curDir)].  It gives the module that the run finds once the
    directory is entered, and what calling the returned function does. *)
Definition changeDir (w : World) (dir : string)
  : result (Snapshot * result unit) :=
  match getwd w with
  | None => Panic GetwdFailure
  | Some curDir =>
      match chdir w dir with
      | None => Panic WorkingDirectoryFailure
      | Some m =>
          Ok (m, if restore w curDir then Ok tt else Panic RestoreFailure)
      end
  end.

(** [Parse(funcPkgPath, funcName, excludeRoot, codeOnly)]; [changeBack] is
    deferred. *)
Definition Parse (w : World) (funcPkgPath funcName : string)
    (excludeRoot codeOnly : bool) : result string :=
  '(m, changeBack) ← changeDir w funcPkgPath;
  deferred changeBack
    ('(funcSig, funcToFileAndPkg) ← initialize m funcName;
     let p := newParser funcToFileAndPkg in
     p ← (if excludeRoot
          then processFunction (readFile m) (fuel_of 6) funcSig 6 p
          else processFunction (readFile m) (fuel_of 5) funcSig 5 p);
     Ok (toString p excludeRoot codeOnly)).


(** * Notions used to state the properties *)

(** The run can enter the directory [dir], where it finds the module [m],
    and can return from it to the directory in which it started. *)
Definition enters (w : World) (dir : string) (m : Snapshot) : Prop :=
  ∃ curDir, getwd w = Some curDir ∧ chdir w dir = Some m
            ∧ restore w curDir = true.

(** The signature that the type information gives to a declaration: the
    one that [processFunction] compares with the signature it looks for. *)
Definition decl_sig (pkg : Package) (fn : FuncDecl) : option N :=
  name ← Name fn;
  obj ← ObjectOf pkg name;
  match objType obj with
  | TSignature sig => Some sig
  | TOther => None
  end.

(** A declaration that selects the entry point: its declared name is the
    requested one and its type is a (non-nil) signature.  The receiver
    [Recv] plays no part, so methods qualify as well. *)
Definition entry_sig (funcName : string) (pkg : Package) (fn : FuncDecl)
  : option N :=
  name ← Name fn;
  sig ← decl_sig pkg fn;
  if negb (sig =? 0)%N && String.eqb (IdentName name) funcName
  then Some sig else None.

(** The signatures of the declarations of a package that select the entry
    point, in the order in which [initialize] scans them. *)
Definition entry_candidates (funcName : string) (pkg : Package) : list N :=
  flat_map (λ file, omap (entry_sig funcName pkg) (Decls file)) (Syntax pkg).

(** A declaration of the package whose declared name is [funcName]. *)
Definition declares (funcName : string) (pkg : Package) : Prop :=
  ∃ file fn name,
    file ∈ Syntax pkg ∧ fn ∈ Decls file ∧ Name fn = Some name ∧
    IdentName name = funcName.

(** The package path is the module's or the path of one of its
    sub-packages. *)
Definition in_module (modulePath pkgPath : string) : Prop :=
  pkgPath = modulePath ∨ gostrings.HasPrefix pkgPath (modulePath +:+ "/") = true.

(** The package path is, or lies under, one of the paths read from the
    manifest. *)
Definition listed_in (goModPaths : list string) (pkgPath : string) : Prop :=
  ∃ path, path ∈ goModPaths ∧ in_module path pkgPath.

(** The two effects of one step of the scan of [initialize]. *)
Definition index_decl (pkg : Package) (file : File)
    (funcToFileAndPkg : gmap N fileAndPkg) (fn : FuncDecl)
  : gmap N fileAndPkg :=
  match decl_sig pkg fn with
  | Some sig =>
      if (sig =? 0)%N then funcToFileAndPkg
      else <[sig := {| file := file; pkg := pkg |}]> funcToFileAndPkg
  | None => funcToFileAndPkg
  end.

Definition select_entry (funcName root : string) (pkg : Package)
    (funcSig : N) (fn : FuncDecl) : N :=
  match entry_sig funcName pkg fn with
  | Some sig => if String.eqb (PkgPath pkg) root then sig else funcSig
  | None => funcSig
  end.

(** The index after the files of a package are scanned. *)
Definition index_pkg (pkg : Package) (funcToFileAndPkg : gmap N fileAndPkg)
  : gmap N fileAndPkg :=
  foldl (λ idx file, foldl (index_decl pkg file) idx (Decls file))
        funcToFileAndPkg (Syntax pkg).

(** ** Source text *)

Fixpoint join (l : list string) : string :=
  match l with
  | [] => ""
  | s :: l' => s +:+ join l'
  end.

(** The elements of a slice at the indices [from], ..., [to]. *)
Definition slice {A : Type} (l : list A) (from to : Z) : list A :=
  take (Z.to_nat (to - from + 1)) (drop (Z.to_nat from) l).

(** The lines [from], ..., [to] of a file (counted from 0), each followed by
    a newline. *)
Definition lines_text (lines : list string) (from to : Z) : string :=
  join (map (λ l, l +:+ LF) (slice lines from to)).

(** The comments of a documentation block lie on consecutive lines, one
    after the other without overlap: they cover the lines from index [first]
    up to, and excluding, index [next]. *)
Fixpoint tiles (fset : FileSet) (comments : list (option Comment))
    (first next : Z) : Prop :=
  match comments with
  | [] => first = next
  | None :: comments' => tiles fset comments' first next
  | Some c :: comments' =>
      Line (fset (Comment_Pos c)) - 1 = first ∧
      first ≤ Line (fset (Comment_End c)) - 1 ∧
      tiles fset comments' (Line (fset (Comment_End c))) next
  end.

(** The slice that the specification words describe: the exact text of the
    file from the start of the documentation block (when there is one)
    through the end of the declaration. *)
Definition span_start (fset : FileSet) (fn : FuncDecl) : Z :=
  match Doc fn with
  | Some (Some c :: _) => Offset (fset (Comment_Pos c))
  | _ => Offset (fset (FuncDecl_Pos fn))
  end.

Definition exact_span (fileContent : string) (fset : FileSet) (fn : FuncDecl)
  : string :=
  let from := span_start fset fn in
  let to := Offset (fset (FuncDecl_End fn)) in
  substring (Z.to_nat from) (Z.to_nat (to - from)) fileContent.

(** ** The call graph *)

(** The call expressions of a declaration that
    [processUnderlyingFunctions] inspects at a given depth. *)
Definition followed_calls (fn : FuncDecl) (depth : Z) : list CallExpr :=
  if depth <=? 0 then []
  else match Body fn with
       | None => []
       | Some body => Calls body
       end.

(** The signatures that the calls in the body of a declaration resolve to. *)
Definition decl_callees (pkg : Package) (fn : FuncDecl) : list N :=
  match Body fn with
  | None => []
  | Some body => omap (callee pkg) (Calls body)
  end.

(** The callees of an indexed function: those of the declarations of its
    file that carry its signature. *)
Definition callees_of (idx : gmap N fileAndPkg) (funcSig : N) : list N :=
  match idx !! funcSig with
  | None => []
  | Some f =>
      flat_map (λ fn, if decide (decl_sig (pkg f) fn = Some funcSig)
                      then decl_callees (pkg f) fn else [])
               (Decls (file f))
  end.

(** [g] is reached from [e] by a chain of exactly [n] calls. *)
Fixpoint reach (idx : gmap N fileAndPkg) (n : nat) (e g : N) : Prop :=
  match n with
  | O => e = g
  | S n' => ∃ f, f ∈ callees_of idx e ∧ reach idx n' f g
  end.

(** [g] is reached from [e] by a chain of at most [k] calls. *)
Definition within (idx : gmap N fileAndPkg) (k : nat) (e g : N) : Prop :=
  ∃ n, (n ≤ k)%nat ∧ reach idx n e g.

(** The call-distance from [e] to [g] is [n]. *)
Definition distance (idx : gmap N fileAndPkg) (e g : N) (n : nat) : Prop :=
  reach idx n e g ∧ ∀ m, (m < n)%nat → ¬ reach idx m e g.

(** The functions reached by exactly [n] calls, as a list. *)
Fixpoint reach_list (idx : gmap N fileAndPkg) (n : nat) (e : N) : list N :=
  match n with
  | O => [e]
  | S n' => flat_map (reach_list idx n') (callees_of idx e)
  end.

(** ** The history of a traversal *)

Definition entry_pkg (e : N * N * string) : N := e.1.1.
Definition entry_sig_of (e : N * N * string) : N := e.1.2.
Definition entry_src (e : N * N * string) : string := e.2.

(** The signatures of the functions extracted so far, in order. *)
Definition visited (p : parser) : list N := map entry_sig_of (extracted p).

(** The entries of the history that belong to the package at address [a],
    and the text they add up to. *)
Definition chunks (a : N) (log : list (N * N * string))
  : list (N * N * string) :=
  filter (λ e, entry_pkg e = a) log.

Definition text_of (a : N) (log : list (N * N * string)) : string :=
  join (map (λ e, LF +:+ entry_src e) (chunks a log)).

(** The fields of the parser agree with the history. *)
Record consistent (p : parser) : Prop := {
  consistent_functions :
    ∀ a, functions p !! a =
         if decide (chunks a (extracted p) = []) then None
         else Some (text_of a (extracted p));
  consistent_seen : ∀ sig, sig ∈ seen p ↔ sig ∈ visited p;
  consistent_order :
    ∀ a, a ∈ map pkgAddr (pkgOrder p) ↔ is_Some (functions p !! a);
  consistent_nodup : NoDup (map pkgAddr (pkgOrder p));
}.

(** What an execution leaves alone or only extends. *)
Definition extends (p p' : parser) : Prop :=
  funcToFileAndPkg p' = funcToFileAndPkg p
  ∧ (∃ l, extracted p' = extracted p ++ l)
  ∧ (∃ l, pkgOrder p' = pkgOrder p ++ l)
  ∧ seen p ⊆ seen p'.

(** The type checker gives every declaration a signature of its own: in an
    indexed file no two declarations carry the same signature. *)
Definition unique_decls (idx : gmap N fileAndPkg) : Prop :=
  ∀ sig f, idx !! sig = Some f →
           NoDup (omap (decl_sig (pkg f)) (Decls (file f))).

(** Slicing cannot fail on the index: every named declaration of an indexed
    file has an object, and the declaration that carries the signature of an
    index entry can be sliced. *)
Definition sliceable (readFile : string → option string)
    (idx : gmap N fileAndPkg) : Prop :=
  ∀ sig f fn, idx !! sig = Some f → fn ∈ Decls (file f) →
    (∀ name, Name fn = Some name → is_Some (ObjectOf (pkg f) name))
    ∧ (decl_sig (pkg f) fn = Some sig →
       ∃ funcSrc, extractSourceCode readFile (Fset (pkg f)) (file f) fn
                  = Ok (funcSrc, None)).

(** Every entry of the history is filed under the package that the index
    gives to its signature. *)
Definition filed_by_index (idx : gmap N fileAndPkg) (p : parser) : Prop :=
  ∀ en, en ∈ extracted p →
        ∃ f, idx !! entry_sig_of en = Some f ∧ entry_pkg en = pkgAddr (pkg f).

(** The parser with another accumulator. *)
Definition set_functions (p : parser) (fs : gmap N string) : parser :=
  {| funcToFileAndPkg := funcToFileAndPkg p;
     functions := fs;
     pkgOrder := pkgOrder p;
     seen := seen p;
     extracted := extracted p |}.

(** Checkers for [sliceable] and [unique_decls] on a given index. *)
Definition decl_sliceable (readFile : string → option string) (sig : N)
    (f : fileAndPkg) (fn : FuncDecl) : bool :=
  match Name fn with
  | None => true
  | Some name =>
      match ObjectOf (pkg f) name with
      | None => false
      | Some obj =>
          match objType obj with
          | TOther => true
          | TSignature s =>
              if (s =? sig)%N then
                match extractSourceCode readFile (Fset (pkg f)) (file f) fn with
                | Ok (_, None) => true
                | _ => false
                end
              else true
          end
      end
  end.

Definition index_sliceable (readFile : string → option string)
    (idx : gmap N fileAndPkg) : bool :=
  forallb (λ e, forallb (decl_sliceable readFile e.1 e.2) (Decls (file e.2)))
          (map_to_list idx).

Definition index_unique (idx : gmap N fileAndPkg) : bool :=
  forallb (λ e, bool_decide (NoDup (omap (decl_sig (pkg e.2)) (Decls (file e.2)))))
          (map_to_list idx).

(** The history holds the function [x] once, with the text [src] sliced
    from a declaration that carries its signature, and the text accumulated
    for its package holds [src] once, between the texts of the functions
    filed before and after it. *)
Definition extracted_once (readFile : string → option string)
    (idx : gmap N fileAndPkg) (p : parser) (x : N) (src : string) : Prop :=
  ∃ f fn pre post,
    idx !! x = Some f ∧ fn ∈ Decls (file f) ∧ decl_sig (pkg f) fn = Some x ∧
    extractSourceCode readFile (Fset (pkg f)) (file f) fn = Ok (src, None) ∧
    extracted p = pre ++ (pkgAddr (pkg f), x, src) :: post ∧
    (x ∉ map entry_sig_of (pre ++ post)) ∧
    functions_at p (pkg f) =
      text_of (pkgAddr (pkg f)) pre +:+ (LF +:+ src)
      +:+ text_of (pkgAddr (pkg f)) post.

(** ** Chains of calls *)

(** The index holds [v] with a declaration that carries its signature. *)
Definition carried (idx : gmap N fileAndPkg) (v : N) : Prop :=
  ∃ f, idx !! v = Some f
       ∧ ∃ fn, fn ∈ Decls (file f) ∧ decl_sig (pkg f) fn = Some v.

(** A chain of calls from [e]: distinct functions, the first of which is
    [e]; each calls the next; each but the first is called only from the
    chain, by its predecessor, by itself or by a function further along;
    and the index holds each with a declaration that carries its
    signature. *)
Record call_chain (idx : gmap N fileAndPkg) (e : N) (chain : list N)
  : Prop := {
  chain_head : head chain = Some e;
  chain_nodup : NoDup chain;
  chain_step :
    ∀ i u v, chain !! i = Some u → chain !! S i = Some v →
             v ∈ callees_of idx u;
  chain_only :
    ∀ i v u, chain !! S i = Some v → v ∈ callees_of idx u →
             ∃ j, chain !! j = Some u ∧ (i ≤ j)%nat;
  chain_carried : ∀ v, v ∈ chain → carried idx v;
}.

(** What the walk keeps true of a chain.  [chain_inv]: a function of the
    chain that is seen and whose visit is over (it is not in [Pend]) has its
    successor seen.  [prefix_seen]: the functions before position [j] are
    seen.  [aligned]: a function of the chain is visited, when not yet
    seen, with the depth that its position leaves of the budget, its
    predecessors being seen. *)
Definition chain_inv (chain : list N) (p : parser) (Pend : N → Prop)
  : Prop :=
  ∀ i u v, chain !! i = Some u → chain !! S i = Some v → u ∈ seen p →
           Pend u ∨ v ∈ seen p.

Definition prefix_seen (chain : list N) (p : parser) (j : nat) : Prop :=
  ∀ k w, (k < j)%nat → chain !! k = Some w → w ∈ seen p.

Definition aligned (chain : list N) (budget : Z) (g : N) (depth : Z)
    (p : parser) : Prop :=
  ∀ j, chain !! j = Some g →
       g ∈ seen p ∨ (depth = budget - Z.of_nat j ∧ prefix_seen chain p j).

(** A checker for [call_chain] on a given index. *)
Definition carried_b (idx : gmap N fileAndPkg) (v : N) : bool :=
  match idx !! v with
  | Some f =>
      existsb (λ fn, bool_decide (decl_sig (pkg f) fn = Some v))
              (Decls (file f))
  | None => false
  end.

Definition is_call_chain (idx : gmap N fileAndPkg) (e : N) (chain : list N)
  : bool :=
  bool_decide (head chain = Some e)
  && bool_decide (NoDup chain)
  && forallb (carried_b idx) chain
  && forallb (λ i, match chain !! i, chain !! S i with
                   | Some u, Some v => bool_decide (v ∈ callees_of idx u)
                   | _, _ => true
                   end)
             (seq 0 (length chain))
  && forallb (λ en : N * fileAndPkg,
                forallb (λ i, match chain !! S i with
                              | Some v =>
                                  if bool_decide (v ∈ callees_of idx en.1)
                                  then existsb
                                         (λ j, (i <=? j)%nat
                                               && bool_decide
                                                    (chain !! j = Some en.1))
                                         (seq 0 (length chain))
                                  else true
                              | None => true
                              end)
                        (seq 0 (length chain)))
             (map_to_list idx).

(** ** Executions of the walker *)

Section Walk.

Variable readFile : string → option string.

(** The executions of [processFunction] that return, of its loop over the
    declarations of the file, and of the loop of
    [processUnderlyingFunctions] over the calls of a body. *)
Inductive walk : N → Z → parser → parser → Prop :=
  | walk_seen funcSig depth p :
      funcSig ∈ seen p → walk funcSig depth p p
  | walk_leaf funcSig depth p :
      funcSig ∉ seen p → funcToFileAndPkg p !! funcSig = None →
      walk funcSig depth p p
  | walk_file funcSig depth p f p' :
      funcSig ∉ seen p → funcToFileAndPkg p !! funcSig = Some f →
      walk_decls f funcSig depth (Decls (file f)) p p' →
      walk funcSig depth p p'
with walk_decls : fileAndPkg → N → Z → list FuncDecl → parser → parser → Prop :=
  | walk_decls_nil f funcSig depth p :
      walk_decls f funcSig depth [] p p
  | walk_decls_skip f funcSig depth fn decls p p' :
      decl_sig (pkg f) fn ≠ Some funcSig →
      walk_decls f funcSig depth decls p p' →
      walk_decls f funcSig depth (fn :: decls) p p'
  | walk_decls_match f funcSig depth fn decls funcSrc p p1 p' :
      decl_sig (pkg f) fn = Some funcSig →
      extractSourceCode readFile (Fset (pkg f)) (file f) fn
        = Ok (funcSrc, None) →
      walk_calls (pkg f) (int_pred depth)
                 (followed_calls fn (int_pred depth))
                 (record_function f funcSig funcSrc p) p1 →
      walk_decls f funcSig depth decls p1 p' →
      walk_decls f funcSig depth (fn :: decls) p p'
with walk_calls : Package → Z → list CallExpr → parser → parser → Prop :=
  | walk_calls_nil pkg depth p :
      walk_calls pkg depth [] p p
  | walk_calls_skip pkg depth ce calls p p' :
      callee pkg ce = None →
      walk_calls pkg depth calls p p' →
      walk_calls pkg depth (ce :: calls) p p'
  | walk_calls_call pkg depth ce calls funcSig p p1 p' :
      0 < depth →
      callee pkg ce = Some funcSig →
      walk funcSig depth p p1 →
      walk_calls pkg depth calls p1 p' →
      walk_calls pkg depth (ce :: calls) p p'.

End Walk.

Scheme walk_min := Minimality for walk Sort Prop
  with walk_decls_min := Minimality for walk_decls Sort Prop
  with walk_calls_min := Minimality for walk_calls Sort Prop.
Combined Scheme walk_mutind from walk_min, walk_decls_min, walk_calls_min.

(** ** Two runs on one snapshot *)

(** A run loads the packages of the snapshot at addresses of its own: the
    [*types.Signature] and [*packages.Package] objects of another run of the
    same snapshot are the same objects at other addresses.  [rs] and [rp]
    move the addresses of the signatures and of the packages. *)
Section Relocate.

Variables (rs rp : N → N).

Definition relocate_type (t : Type_) : Type_ :=
  match t with
  | TSignature sig => TSignature (rs sig)
  | TOther => TOther
  end.

Definition relocate_object (obj : Object) : Object :=
  {| objPkg := objPkg obj; objType := relocate_type (objType obj) |}.

Definition relocate_pkg (pkg : Package) : Package :=
  {| pkgAddr := rp (pkgAddr pkg);
     pkgName := pkgName pkg;
     PkgPath := PkgPath pkg;
     Syntax := Syntax pkg;
     ObjectOf := λ id, relocate_object <$> ObjectOf pkg id;
     Fset := Fset pkg |}.

Definition relocate_snapshot (m : Snapshot) : Snapshot :=
  {| goMod := goMod m;
     load := map relocate_pkg <$> load m;
     readFile := readFile m |}.

Definition relocate_world (w : World) : World :=
  {| getwd := getwd w;
     chdir := λ dir, relocate_snapshot <$> chdir w dir;
     restore := restore w |}.

Definition relocate_entry (f : fileAndPkg) : fileAndPkg :=
  {| file := file f; pkg := relocate_pkg (pkg f) |}.

Definition relocate_index (idx : gmap N fileAndPkg) : gmap N fileAndPkg :=
  kmap (M2 := gmap N) rs (relocate_entry <$> idx).

Definition relocate_parser (p : parser) : parser :=
  {| funcToFileAndPkg := relocate_index (funcToFileAndPkg p);
     functions := kmap (M2 := gmap N) rp (functions p);
     pkgOrder := map relocate_pkg (pkgOrder p);
     seen := set_map rs (seen p);
     extracted := map (λ en, (rp en.1.1, rs en.1.2, en.2)) (extracted p) |}.

Definition relocate_scan (st : N * gmap N fileAndPkg)
  : N * gmap N fileAndPkg :=
  (rs st.1, relocate_index st.2).

End Relocate.

Definition result_map {A B : Type} (f : A → B) (r : result A) : result B :=
  match r with
  | Ok a => Ok (f a)
  | Panic e => Panic e
  | OutOfFuel => OutOfFuel
  end.

(** * Example modules *)

Module fixtures.

(** A file set with one file of base 1: a position is 1 plus an offset, and
    the line of an offset is 1 plus the number of newlines before it. *)
Fixpoint count_nl (n : nat) (s : string) : Z :=
  match n, s with
  | S n', String c s' =>
      (if Ascii.eqb c "010"%char then 1 else 0) + count_nl n' s'
  | _, _ => 0
  end.

Definition fileset_of (filename fileContent : string) : FileSet :=
  λ pos, {| Filename := filename;
            Offset := pos - 1;
            Line := 1 + count_nl (Z.to_nat (pos - 1)) fileContent |}.

(** The text of a file given by its lines, and the offset of its line [k]
    (counted from 0). *)
Definition file_text (lines : list string) : string :=
  join (map (λ l, l +:+ LF) lines).

Fixpoint line_offset (lines : list string) (k : nat) : Z :=
  match k, lines with
  | S k', l :: lines' => Z.of_nat (String.length l) + 1 + line_offset lines' k'
  | _, _ => 0
  end.

Definition line_pos (lines : list string) (k : nat) : Z :=
  1 + line_offset lines k.

(** The function declared on the single line [k] of a file as
    [func name() { ... }], with the functions of the call expressions of
    its body. *)
Definition oneliner (lines : list string) (k : nat) (name : string)
    (calls : list Expr) : FuncDecl :=
  let pos := line_pos lines k in
  {| Doc := None;
     Recv := None;
     Name := Some {| NamePos := pos + 5; IdentName := name |};
     Type_Pos := pos;
     Type_End := pos + 5 + Z.of_nat (String.length name) + 2;
     Body := Some {| Calls := map (λ e, {| Fun := e |}) calls;
                     Block_End :=
                       pos + Z.of_nat (String.length (nth k lines "")) |} |}.

(** The identifier [name] where it is called on line [k]. *)
Definition called (lines : list string) (k : nat) (name : string) : Ident :=
  {| NamePos :=
       line_pos lines k
       + Z.of_nat (default O (String.index 8 (name +:+ "(") (nth k lines "")));
     IdentName := name |}.

(** Type information that resolves identifiers by name. *)
Definition objects (table : list (string * (string * N))) (id : Ident)
  : option Object :=
  match find (λ e, String.eqb e.1 (IdentName id)) table with
  | Some (_, (path, sig)) =>
      Some {| objPkg := Some path; objType := TSignature sig |}
  | None => None
  end.

(** A module [m] with the packages [m], [m/a] and [m/b] and a requirement
    [github.com/x/y]:
    - in [m], [e] calls [h], and [h] calls [e] and [a.F1];
    - in [m/a], [F1] calls [F2], and [F2] calls [b.G1];
    - in [m/b], [G1] calls [G2], and [G2] calls itself;
    - in [github.com/x/y], [Y] calls nothing. *)
Definition m_lines : list string :=
  ["package m"; ""; "func e() { h() }"; ""; "func h() { e(); a.F1() }"].
Definition a_lines : list string :=
  ["package a"; ""; "func F1() { F2() }"; ""; "func F2() { b.G1() }"].
Definition b_lines : list string :=
  ["package b"; ""; "func G1() { G2() }"; ""; "func G2() { G2() }"].
Definition y_lines : list string :=
  ["package y"; ""; "func Y() {}"].

Definition sig_e : N := 1.
Definition sig_h : N := 2.
Definition sig_F1 : N := 3.
Definition sig_F2 : N := 4.
Definition sig_G1 : N := 5.
Definition sig_G2 : N := 6.
Definition sig_Y : N := 7.

Definition m_file : File :=
  {| Decls :=
       [oneliner m_lines 2 "e" [IdentExpr (Some (called m_lines 2 "h"))];
        oneliner m_lines 4 "h"
          [IdentExpr (Some (called m_lines 4 "e"));
           SelectorExpr (Some (called m_lines 4 "F1"))]] |}.
Definition a_file : File :=
  {| Decls :=
       [oneliner a_lines 2 "F1" [IdentExpr (Some (called a_lines 2 "F2"))];
        oneliner a_lines 4 "F2" [SelectorExpr (Some (called a_lines 4 "G1"))]] |}.
Definition b_file : File :=
  {| Decls :=
       [oneliner b_lines 2 "G1" [IdentExpr (Some (called b_lines 2 "G2"))];
        oneliner b_lines 4 "G2" [IdentExpr (Some (called b_lines 4 "G2"))]] |}.
Definition y_file : File :=
  {| Decls := [oneliner y_lines 2 "Y" []] |}.

Definition pkg_m : Package :=
  {| pkgAddr := 101; pkgName := "m"; PkgPath := "m"; Syntax := [m_file];
     ObjectOf := objects [("e", ("m", sig_e)); ("h", ("m", sig_h));
                          ("F1", ("m/a", sig_F1))];
     Fset := fileset_of "/src/m/m.go" (file_text m_lines) |}.
Definition pkg_a : Package :=
  {| pkgAddr := 102; pkgName := "a"; PkgPath := "m/a"; Syntax := [a_file];
     ObjectOf := objects [("F1", ("m/a", sig_F1)); ("F2", ("m/a", sig_F2));
                          ("G1", ("m/b", sig_G1))];
     Fset := fileset_of "/src/m/a/a.go" (file_text a_lines) |}.
Definition pkg_b : Package :=
  {| pkgAddr := 103; pkgName := "b"; PkgPath := "m/b"; Syntax := [b_file];
     ObjectOf := objects [("G1", ("m/b", sig_G1)); ("G2", ("m/b", sig_G2))];
     Fset := fileset_of "/src/m/b/b.go" (file_text b_lines) |}.
Definition pkg_y : Package :=
  {| pkgAddr := 104; pkgName := "y"; PkgPath := "github.com/x/y";
     Syntax := [y_file];
     ObjectOf := objects [("Y", ("github.com/x/y", sig_Y))];
     Fset := fileset_of "/src/m/vendor/github.com/x/y/y.go"
                        (file_text y_lines) |}.

Definition m_files (filename : string) : option string :=
  if String.eqb filename "/src/m/m.go" then Some (file_text m_lines)
  else if String.eqb filename "/src/m/a/a.go" then Some (file_text a_lines)
  else if String.eqb filename "/src/m/b/b.go" then Some (file_text b_lines)
  else if String.eqb filename "/src/m/vendor/github.com/x/y/y.go"
  then Some (file_text y_lines)
  else None.

Definition m_snapshot : Snapshot :=
  {| goMod := Some (file_text ["module m"; ""; "go 1.21"; "";
                               "require github.com/x/y v1.0.0"]);
     load := Some [pkg_m; pkg_a; pkg_b; pkg_y];
     readFile := m_files |}.

Definition m_world : World :=
  {| getwd := Some "/home";
     chdir := λ dir, if String.eqb dir "/src/m" then Some m_snapshot else None;
     restore := λ dir, true |}.

(** The index of the module, as [initialize] builds it. *)
Definition m_index : gmap N fileAndPkg :=
  match initialize m_snapshot "e" with
  | Ok (_, idx) => idx
  | _ => ∅
  end.

(** The parsers after the traversals of [Parse] from [e]: with budget 5
    ([excludeRoot = false]) and with budget 6 ([excludeRoot = true]). *)
Definition m_run (depth : Z) : parser :=
  match processFunction m_files (fuel_of depth) sig_e depth (newParser m_index)
  with
  | Ok p => p
  | _ => newParser ∅
  end.

(** A package with a function [Get] and, declared after it, a method [Get]
    on a type [Cache]: the two declarations have the same declared name and
    their own signatures. *)
Definition c_lines : list string :=
  ["package c"; ""; "type Cache struct{}"; ""; "func Get() {}"; "";
   "func (c Cache) Get() {}"].

Definition sig_Get : N := 21.
Definition sig_Cache_Get : N := 22.

Definition c_func : FuncDecl := oneliner c_lines 4 "Get" [].
Definition c_method : FuncDecl :=
  let pos := line_pos c_lines 6 in
  {| Doc := None;
     Recv := Some "Cache";
     Name := Some {| NamePos := pos + 15; IdentName := "Get" |};
     Type_Pos := pos;
     Type_End := pos + 20;
     Body := Some {| Calls := []; Block_End := pos + 23 |} |}.

Definition c_file : File := {| Decls := [c_func; c_method] |}.

Definition pkg_c : Package :=
  {| pkgAddr := 201; pkgName := "c"; PkgPath := "c"; Syntax := [c_file];
     ObjectOf := λ id,
       if NamePos id =? line_pos c_lines 4 + 5
       then Some {| objPkg := Some "c"; objType := TSignature sig_Get |}
       else if NamePos id =? line_pos c_lines 6 + 15
       then Some {| objPkg := Some "c"; objType := TSignature sig_Cache_Get |}
       else None;
     Fset := fileset_of "/src/c/c.go" (file_text c_lines) |}.

Definition c_snapshot : Snapshot :=
  {| goMod := Some (file_text ["module c"; ""; "go 1.21"]);
     load := Some [pkg_c];
     readFile := λ filename,
       if String.eqb filename "/src/c/c.go" then Some (file_text c_lines)
       else None |}.

(** A file with a documented function, a file where a comment follows the
    closing brace of a function on its line, and a file where two comments
    of a documentation block share a line. *)
Definition TAB : string := String "009"%char EmptyString.

Definition d_lines : list string :=
  ["package d"; ""; "// Add returns the sum."; "// It never fails.";
   "func Add(a, b int) int {"; TAB +:+ "return a + b"; "}"].

Definition d_Add : FuncDecl :=
  {| Doc := Some [Some {| Slash := line_pos d_lines 2;
                          Text := "// Add returns the sum." |};
                  Some {| Slash := line_pos d_lines 3;
                          Text := "// It never fails." |}];
     Recv := None;
     Name := Some {| NamePos := line_pos d_lines 4 + 5; IdentName := "Add" |};
     Type_Pos := line_pos d_lines 4;
     Type_End := line_pos d_lines 4 + 22;
     Body := Some {| Calls := []; Block_End := line_pos d_lines 6 + 1 |} |}.

Definition d_fset : FileSet := fileset_of "/src/d/d.go" (file_text d_lines).
Definition d_files (filename : string) : option string :=
  if String.eqb filename "/src/d/d.go" then Some (file_text d_lines) else None.

Definition t_lines : list string :=
  ["package t"; ""; "func f() {} // tail"].

Definition t_f : FuncDecl :=
  {| Doc := None;
     Recv := None;
     Name := Some {| NamePos := line_pos t_lines 2 + 5; IdentName := "f" |};
     Type_Pos := line_pos t_lines 2;
     Type_End := line_pos t_lines 2 + 8;
     Body := Some {| Calls := []; Block_End := line_pos t_lines 2 + 11 |} |}.

Definition t_fset : FileSet := fileset_of "/src/t/t.go" (file_text t_lines).
Definition t_files (filename : string) : option string :=
  if String.eqb filename "/src/t/t.go" then Some (file_text t_lines) else None.

Definition u_lines : list string :=
  ["package u"; ""; "/* a */ // b"; "func g() {}"].

Definition u_g : FuncDecl :=
  {| Doc := Some [Some {| Slash := line_pos u_lines 2; Text := "/* a */" |};
                  Some {| Slash := line_pos u_lines 2 + 8; Text := "// b" |}];
     Recv := None;
     Name := Some {| NamePos := line_pos u_lines 3 + 5; IdentName := "g" |};
     Type_Pos := line_pos u_lines 3;
     Type_End := line_pos u_lines 3 + 8;
     Body := Some {| Calls := []; Block_End := line_pos u_lines 3 + 11 |} |}.

Definition u_fset : FileSet := fileset_of "/src/u/u.go" (file_text u_lines).
Definition u_files (filename : string) : option string :=
  if String.eqb filename "/src/u/u.go" then Some (file_text u_lines) else None.

(** A module [s] of one package in which [e] calls [u] and then [v], [u]
    calls [v], and [v] calls [x]: the walk reaches [v] through [u] before
    it reaches it from [e]. *)
Definition s_lines : list string :=
  ["package s"; ""; "func e() { u(); v() }"; ""; "func u() { v() }"; "";
   "func v() { x() }"; ""; "func x() {}"].

Definition sig_se : N := 41.
Definition sig_su : N := 42.
Definition sig_sv : N := 43.
Definition sig_sx : N := 44.

Definition s_file : File :=
  {| Decls :=
       [oneliner s_lines 2 "e" [IdentExpr (Some (called s_lines 2 "u"));
                                IdentExpr (Some (called s_lines 2 "v"))];
        oneliner s_lines 4 "u" [IdentExpr (Some (called s_lines 4 "v"))];
        oneliner s_lines 6 "v" [IdentExpr (Some (called s_lines 6 "x"))];
        oneliner s_lines 8 "x" []] |}.

Definition pkg_s : Package :=
  {| pkgAddr := 401; pkgName := "s"; PkgPath := "s"; Syntax := [s_file];
     ObjectOf := objects [("e", ("s", sig_se)); ("u", ("s", sig_su));
                          ("v", ("s", sig_sv)); ("x", ("s", sig_sx))];
     Fset := fileset_of "/src/s/s.go" (file_text s_lines) |}.

Definition s_files (filename : string) : option string :=
  if String.eqb filename "/src/s/s.go" then Some (file_text s_lines)
  else None.

Definition s_snapshot : Snapshot :=
  {| goMod := Some (file_text ["module s"; ""; "go 1.21"]);
     load := Some [pkg_s];
     readFile := s_files |}.

Definition s_index : gmap N fileAndPkg :=
  match initialize s_snapshot "e" with
  | Ok (_, idx) => idx
  | _ => ∅
  end.

Definition s_run (depth : Z) : parser :=
  match processFunction s_files (fuel_of depth) sig_se depth (newParser s_index)
  with
  | Ok p => p
  | _ => newParser ∅
  end.

(** A module [r] with the packages [r] and [r/k]: in [r], [e] calls [a1]
    and then [w], [a1] calls [a2], [a2] calls [a3], [a3] calls [a4], [a4]
    calls [w], and [w] calls [k.K]; in [r/k], [K] calls nothing.  The walk
    reaches [w] through [a1] ... [a4] five calls from [e], if its budget
    lets it, before it reaches it from [e]. *)
Definition r_lines : list string :=
  ["package r"; ""; "func e() { a1(); w() }"; ""; "func a1() { a2() }"; "";
   "func a2() { a3() }"; ""; "func a3() { a4() }"; "";
   "func a4() { w() }"; ""; "func w() { k.K() }"].
Definition k_lines : list string :=
  ["package k"; ""; "func K() {}"].

Definition sig_re : N := 51.
Definition sig_a1 : N := 52.
Definition sig_a2 : N := 53.
Definition sig_a3 : N := 54.
Definition sig_a4 : N := 55.
Definition sig_rw : N := 56.
Definition sig_K : N := 57.

Definition r_file : File :=
  {| Decls :=
       [oneliner r_lines 2 "e" [IdentExpr (Some (called r_lines 2 "a1"));
                                IdentExpr (Some (called r_lines 2 "w"))];
        oneliner r_lines 4 "a1" [IdentExpr (Some (called r_lines 4 "a2"))];
        oneliner r_lines 6 "a2" [IdentExpr (Some (called r_lines 6 "a3"))];
        oneliner r_lines 8 "a3" [IdentExpr (Some (called r_lines 8 "a4"))];
        oneliner r_lines 10 "a4" [IdentExpr (Some (called r_lines 10 "w"))];
        oneliner r_lines 12 "w" [SelectorExpr (Some (called r_lines 12 "K"))]] |}.
Definition k_file : File :=
  {| Decls := [oneliner k_lines 2 "K" []] |}.

Definition pkg_r : Package :=
  {| pkgAddr := 501; pkgName := "r"; PkgPath := "r"; Syntax := [r_file];
     ObjectOf := objects [("e", ("r", sig_re)); ("a1", ("r", sig_a1));
                          ("a2", ("r", sig_a2)); ("a3", ("r", sig_a3));
                          ("a4", ("r", sig_a4)); ("w", ("r", sig_rw));
                          ("K", ("r/k", sig_K))];
     Fset := fileset_of "/src/r/r.go" (file_text r_lines) |}.
Definition pkg_k : Package :=
  {| pkgAddr := 502; pkgName := "k"; PkgPath := "r/k"; Syntax := [k_file];
     ObjectOf := objects [("K", ("r/k", sig_K))];
     Fset := fileset_of "/src/r/k/k.go" (file_text k_lines) |}.

Definition r_files (filename : string) : option string :=
  if String.eqb filename "/src/r/r.go" then Some (file_text r_lines)
  else if String.eqb filename "/src/r/k/k.go" then Some (file_text k_lines)
  else None.

Definition r_snapshot : Snapshot :=
  {| goMod := Some (file_text ["module r"; ""; "go 1.21"]);
     load := Some [pkg_r; pkg_k];
     readFile := r_files |}.

Definition r_world : World :=
  {| getwd := Some "/home";
     chdir := λ dir, if String.eqb dir "/src/r" then Some r_snapshot else None;
     restore := λ dir, true |}.

Definition r_index : gmap N fileAndPkg :=
  match initialize r_snapshot "e" with
  | Ok (_, idx) => idx
  | _ => ∅
  end.

Definition r_run (depth : Z) : parser :=
  match processFunction r_files (fuel_of depth) sig_re depth (newParser r_index)
  with
  | Ok p => p
  | _ => newParser ∅
  end.

(** A module [o] of one package whose functions [A] and [B], each calling
    the other, are declared on one line. *)
Definition o_line : string := "func A() { B() }; func B() { A() }".
Definition o_lines : list string := ["package o"; ""; o_line].

Definition sig_oA : N := 61.
Definition sig_oB : N := 62.

Definition o_decl (offset : Z) (name callee : string) : FuncDecl :=
  let pos := line_pos o_lines 2 + offset in
  {| Doc := None;
     Recv := None;
     Name := Some {| NamePos := pos + 5; IdentName := name |};
     Type_Pos := pos;
     Type_End := pos + 8;
     Body := Some {| Calls := [{| Fun := IdentExpr
                                    (Some {| NamePos := pos + 11;
                                             IdentName := callee |}) |}];
                     Block_End := pos + 16 |} |}.

Definition o_file : File :=
  {| Decls := [o_decl 0 "A" "B"; o_decl 18 "B" "A"] |}.

Definition pkg_o : Package :=
  {| pkgAddr := 601; pkgName := "o"; PkgPath := "o"; Syntax := [o_file];
     ObjectOf := objects [("A", ("o", sig_oA)); ("B", ("o", sig_oB))];
     Fset := fileset_of "/src/o/o.go" (file_text o_lines) |}.

Definition o_files (filename : string) : option string :=
  if String.eqb filename "/src/o/o.go" then Some (file_text o_lines)
  else None.

Definition o_snapshot : Snapshot :=
  {| goMod := Some (file_text ["module o"; ""; "go 1.21"]);
     load := Some [pkg_o];
     readFile := o_files |}.

Definition o_world : World :=
  {| getwd := Some "/home";
     chdir := λ dir, if String.eqb dir "/src/o" then Some o_snapshot else None;
     restore := λ dir, true |}.

Definition o_index : gmap N fileAndPkg :=
  match initialize o_snapshot "A" with
  | Ok (_, idx) => idx
  | _ => ∅
  end.

(** The module [m] with a comment on the first line of its manifest. *)
Definition commented_snapshot : Snapshot :=
  {| goMod := Some (file_text ["// The module m."; "module m"; "";
                               "go 1.21"]);
     load := Some [pkg_m; pkg_a; pkg_b];
     readFile := m_files |}.

Definition commented_world : World :=
  {| getwd := Some "/home";
     chdir := λ dir,
       if String.eqb dir "/src/m" then Some commented_snapshot else None;
     restore := λ dir, true |}.

End fixtures.

(** * Notions for further properties of the code *)

(** The parser with another package order. *)
Definition set_pkgOrder (p : parser) (pkgs : list Package) : parser :=
  {| funcToFileAndPkg := funcToFileAndPkg p;
     functions := functions p;
     pkgOrder := pkgs;
     seen := seen p;
     extracted := extracted p |}.

(** The block that [toString] renders for a package: an optional header
    line, then the accumulated text of the package. *)
Definition block (p : parser) (codeOnly header : bool) (pkg : Package)
  : string :=
  (if header then formatPkg (pkgName pkg) codeOnly +:+ LF else "")
  +:+ formatFunctions (functions_at p pkg) codeOnly.

(** The blocks of a list of packages: the first without header. *)
Definition blocks (p : parser) (codeOnly : bool) (pkgs : list Package)
  : list string :=
  match pkgs with
  | [] => []
  | P0 :: pkgs' => block p codeOnly false P0 :: map (block p codeOnly true) pkgs'
  end.

(** A line of the manifest on which [parseGoModFile] reads a second field
    that is not there. *)
Definition lone_directive (line : string) : Prop :=
  gostrings.Fields line = ["module"] ∨ gostrings.Fields line = ["require"].

(** The words that [parseGoModFile] never returns. *)
Definition filtered_word (w : string) : Prop :=
  w = "" ∨ w = ")" ∨ w = "(" ∨ w = "require" ∨ w = "go".

(** The ranges of lines (counted from 0) that [extractSourceCode] writes:
    one for each non-nil comment of the documentation block, in order, then
    the range of the declaration. *)
Definition comment_range (fset : FileSet) (c : Comment) : Z * Z :=
  (Line (fset (Comment_Pos c)) - 1, Line (fset (Comment_End c)) - 1).

Definition written_ranges (fset : FileSet) (fn : FuncDecl) : list (Z * Z) :=
  match Doc fn with
  | Some comments => omap (fmap (comment_range fset)) comments
  | None => []
  end
  ++ [(Line (fset (FuncDecl_Pos fn)) - 1, Line (fset (FuncDecl_End fn)) - 1)].

(** A range that the loop of [writeLines] can write: it is empty, or all its
    lines exist. *)
Definition range_ok (len : nat) (r : Z * Z) : bool :=
  (r.2 <? r.1) || ((0 <=? r.1) && (r.2 <? Z.of_nat len)).

(** A declaration on which the callback of [processFunction] returns at
    once when it looks for [funcSig]: it has no name, or its object has
    another type. *)
Definition passed_over (pkg : Package) (funcSig : N) (fn : FuncDecl) : Prop :=
  Name fn = None
  ∨ ∃ name obj, Name fn = Some name ∧ ObjectOf pkg name = Some obj ∧
                objType obj ≠ TSignature funcSig.

(** A call expression that adds nothing in the parser [p]: it resolves to no
    signature, or to one that is already seen or is not indexed. *)
Definition leaf_call (pkg : Package) (p : parser) (ce : CallExpr) : Prop :=
  match callee pkg ce with
  | None => True
  | Some g => g ∈ seen p ∨ funcToFileAndPkg p !! g = None
  end.

(** The packages of a history in the order in which it first reaches
    them. *)
Definition first_reached (log : list (N * N * string)) : list N :=
  foldl (λ acc en, if decide (entry_pkg en ∈ acc) then acc
                   else acc ++ [entry_pkg en])
        [] log.

(** The parser's fields agree with the history and list the packages in the
    order in which the history first reaches them. *)
Definition ordered (p : parser) : Prop :=
  consistent p ∧ map pkgAddr (pkgOrder p) = first_reached (extracted p).

(** Every entry of the history is the slice of a declaration of the file
    that the index gives to its signature, filed under the package that the
    index gives. *)
Definition sourced (readFile : string → option string)
    (idx : gmap N fileAndPkg) (p : parser) : Prop :=
  ∀ en, en ∈ extracted p →
    ∃ f fn,
      idx !! entry_sig_of en = Some f ∧ entry_pkg en = pkgAddr (pkg f) ∧
      fn ∈ Decls (file f) ∧ decl_sig (pkg f) fn = Some (entry_sig_of en) ∧
      extractSourceCode readFile (Fset (pkg f)) (file f) fn
        = Ok (entry_src en, None).

(** The index after the packages are scanned: the packages that
    [isGoModPkg] accepts are indexed, in order. *)
Definition index_all (goModPaths : list string) (pkgs : list Package)
    (idx : gmap N fileAndPkg) : gmap N fileAndPkg :=
  foldl (λ idx pkg, if isGoModPkg goModPaths (PkgPath pkg)
                    then index_pkg pkg idx else idx)
        idx pkgs.

(** The panics that the walker can raise: an unreadable source file, a
    declaration without an object, a line that the file does not have. *)
Definition walker_error (e : error) : Prop :=
  e = SourceReadFailure ∨ e = NilDereference ∨ e = IndexOutOfRange.

(** The string [x] occurs in the string [s]. *)
Definition contains (s x : string) : Prop :=
  ∃ pre post, s = pre +:+ x +:+ post.

Module more_fixtures.

(** A manifest whose [require] directive stands alone on its line. *)
Definition lone_require_snapshot : Snapshot :=
  {| goMod := Some (fixtures.file_text ["module m"; ""; "require"]);
     load := Some [fixtures.pkg_m];
     readFile := fixtures.m_files |}.

(** A manifest whose [require] directive is followed by a no-break space
    (U+00A0, the bytes [0xC2 0xA0] in UTF-8) and nothing else. *)
Definition NBSP : string := String "194"%char (String "160"%char "").

Definition nbsp_snapshot : Snapshot :=
  {| goMod := Some (fixtures.file_text ["module m"; ""; "require" +:+ NBSP]);
     load := Some [fixtures.pkg_m];
     readFile := fixtures.m_files |}.

(** A package whose first declaration, [broken], has no object in the type
    information (its type check failed), and whose second one, [good],
    has. *)
Definition n_lines : list string :=
  ["package n"; ""; "func broken() {}"; ""; "func good() {}"].

Definition sig_good : N := 31.

Definition n_file : File :=
  {| Decls := [fixtures.oneliner n_lines 2 "broken" [];
               fixtures.oneliner n_lines 4 "good" []] |}.

Definition pkg_n : Package :=
  {| pkgAddr := 301; pkgName := "n"; PkgPath := "n"; Syntax := [n_file];
     ObjectOf := fixtures.objects [("good", ("n", sig_good))];
     Fset := fixtures.fileset_of "/src/n/n.go" (fixtures.file_text n_lines) |}.

Definition n_files (filename : string) : option string :=
  if String.eqb filename "/src/n/n.go"
  then Some (fixtures.file_text n_lines) else None.

Definition n_snapshot : Snapshot :=
  {| goMod := Some (fixtures.file_text ["module n"; ""; "go 1.21"]);
     load := Some [pkg_n];
     readFile := n_files |}.

Definition n_index : gmap N fileAndPkg :=
  match initialize n_snapshot "good" with
  | Ok (_, idx) => idx
  | _ => ∅
  end.

(** No file can be read. *)
Definition no_files (filename : string) : option string := None.

(** The module of the example loaded without its root package: only the
    sub-packages [m/a] and [m/b] have Go files. *)
Definition sub_snapshot : Snapshot :=
  {| goMod := Some (fixtures.file_text ["module m"; ""; "go 1.21"]);
     load := Some [fixtures.pkg_a; fixtures.pkg_b];
     readFile := fixtures.m_files |}.

Definition sub_world : World :=
  {| getwd := Some "/home";
     chdir := λ dir,
       if String.eqb dir "/src/m" then Some sub_snapshot else None;
     restore := λ dir, true |}.

(** A module directory without a manifest, and one whose packages cannot be
    loaded. *)
Definition bare_snapshot : Snapshot :=
  {| goMod := None; load := None; readFile := no_files |}.

Definition unloadable_snapshot : Snapshot :=
  {| goMod := Some (fixtures.file_text ["module m"]);
     load := None;
     readFile := no_files |}.

Definition empty_snapshot : Snapshot :=
  {| goMod := Some (fixtures.file_text ["module m"]);
     load := Some [];
     readFile := no_files |}.

End more_fixtures.
(** * Properties *)

(** ** The result monad and loops *)

Lemma bind_Ok {A B : Type} (m : result A) (f : A → result B) (b : B) :
  m ≫= f = Ok b ↔ ∃ a, m = Ok a ∧ f a = Ok b.
Proof.
  destruct m as [a| |]; simpl; split.
  - intros H; exists a; auto.
  - intros (a' & [= <-] & H); exact H.
  - discriminate.
  - intros (a' & [=] & _).
  - discriminate.
  - intros (a' & [=] & _).
Qed.

Lemma foldM_app {A B : Type} (f : B → A → result B) (l1 l2 : list A) (b : B) :
  foldM f (l1 ++ l2) b = foldM f l1 b ≫= foldM f l2.
Proof.
  revert b; induction l1 as [|x l1 IH]; intros b; simpl; [reflexivity|].
  destruct (f b x) as [b'| |]; simpl; auto.
Qed.

(** A loop invariant: a property kept by every iteration that returns is
    kept by the loop. *)
Lemma foldM_invariant {A B : Type} (I : B → Prop) (f : B → A → result B)
    (l : list A) (b b' : B) :
  (∀ b x b', x ∈ l → I b → f b x = Ok b' → I b') →
  I b → foldM f l b = Ok b' → I b'.
Proof.
  revert b; induction l as [|x l IH]; intros b Hf Hb; simpl.
  - intros [= <-]; exact Hb.
  - intros (b1 & H1 & H2)%bind_Ok.
    apply (IH b1); auto.
    + intros b0 y b0' Hy; apply Hf; right; exact Hy.
    + apply (Hf b x); auto; left.
Qed.

(** A loop whose iterations never run out of fuel does not either. *)
Lemma foldM_fuel {A B : Type} (f : B → A → result B) (l : list A) (b : B) :
  (∀ b x, x ∈ l → f b x ≠ OutOfFuel) → foldM f l b ≠ OutOfFuel.
Proof.
  revert b; induction l as [|x l IH]; intros b Hf; simpl; [discriminate|].
  destruct (f b x) as [b1| |] eqn:E; simpl.
  - apply IH; intros b0 y Hy; apply Hf; right; exact Hy.
  - discriminate.
  - exfalso; apply (Hf b x); [left|exact E].
Qed.

Lemma foldM_ext {A B : Type} (f g : B → A → result B) (l : list A) (b : B) :
  (∀ b x, x ∈ l → f b x = g b x) → foldM f l b = foldM g l b.
Proof.
  revert b; induction l as [|x l IH]; intros b Hfg; simpl; [reflexivity|].
  rewrite Hfg by left.
  destruct (g b x) as [b1| |]; simpl; auto.
  apply IH; intros b0 y Hy; apply Hfg; right; exact Hy.
Qed.

(** ** Strings *)

Lemma append_nil_l (s : string) : "" +:+ s = s.
Proof. reflexivity. Qed.

Lemma append_cons (c : ascii) (s t : string) :
  String c s +:+ t = String c (s +:+ t).
Proof. reflexivity. Qed.

Lemma append_nil_r (s : string) : s +:+ "" = s.
Proof.
  induction s as [|c s IH]; [reflexivity|]. by rewrite append_cons, IH.
Qed.

Lemma append_assoc (s1 s2 s3 : string) :
  (s1 +:+ s2) +:+ s3 = s1 +:+ (s2 +:+ s3).
Proof.
  induction s1 as [|c s1 IH]; [reflexivity|]. by rewrite !append_cons, IH.
Qed.

(** ** The depth counter *)

Lemma int_min_neg : int_min < 0.
Proof. reflexivity. Qed.

Lemma int_pred_eq (x : Z) : x ≠ int_min → int_pred x = x - 1.
Proof.
  intros Hx. unfold int_pred. apply Z.eqb_neq in Hx. by rewrite Hx.
Qed.

(** A depth above [int_min], and the depth that follows it when that one
    is positive. *)
Lemma int_pred_pos (x : Z) :
  x ≠ int_min → 0 < int_pred x → int_pred x = x - 1 ∧ int_pred x ≠ int_min.
Proof.
  intros Hx Hpos. split; [by apply int_pred_eq|].
  pose proof int_min_neg. lia.
Qed.

(** ** Entering the module directory *)

Lemma deferred_Ok {A : Type} (body : result A) : deferred (Ok tt) body = body.
Proof. by destruct body. Qed.

(** [Parse] once the working directory is read and the module directory
    entered: its body, then the deferred return to the working
    directory. *)
Lemma Parse_entered (w : World) (dir funcName : string)
    (excludeRoot codeOnly : bool) (curDir : string) (m : Snapshot) :
  getwd w = Some curDir → chdir w dir = Some m →
  Parse w dir funcName excludeRoot codeOnly =
    deferred (if restore w curDir then Ok tt else Panic RestoreFailure)
      ('(funcSig, funcToFileAndPkg) ← initialize m funcName;
       p ← processFunction (readFile m)
             (fuel_of (if excludeRoot then 6 else 5)) funcSig
             (if excludeRoot then 6 else 5) (newParser funcToFileAndPkg);
       Ok (toString p excludeRoot codeOnly)).
Proof.
  intros Hwd Hdir. unfold Parse, changeDir. rewrite Hwd, Hdir.
  simpl. f_equal.
  destruct (initialize m funcName) as [[funcSig idx]| |]; simpl;
    [|reflexivity..].
  by destruct excludeRoot.
Qed.

Lemma deferred_Panic {A : Type} (e e' : error) (body : result A) :
  deferred (Panic e') body = Panic e → e = e'.
Proof. destruct body; simpl; congruence. Qed.

Lemma deferred_Panic_intro {A : Type} (e : error) (body : result A) :
  body ≠ OutOfFuel → deferred (Panic e) body = Panic e.
Proof. destruct body; simpl; congruence. Qed.

(** When the directory can be entered and left again, [Parse] is its
    body. *)
Lemma Parse_enters (w : World) (funcPkgPath funcName : string)
    (excludeRoot codeOnly : bool) (m : Snapshot) :
  enters w funcPkgPath m →
  Parse w funcPkgPath funcName excludeRoot codeOnly =
    '(funcSig, funcToFileAndPkg) ← initialize m funcName;
    p ← processFunction (readFile m)
          (fuel_of (if excludeRoot then 6 else 5)) funcSig
          (if excludeRoot then 6 else 5) (newParser funcToFileAndPkg);
    Ok (toString p excludeRoot codeOnly).
Proof.
  intros (curDir & Hwd & Hdir & Hback). unfold Parse, changeDir.
  rewrite Hwd, Hdir, Hback. simpl. rewrite deferred_Ok.
  destruct (initialize m funcName) as [[funcSig idx]| |]; simpl;
    [|reflexivity..].
  by destruct excludeRoot.
Qed.

(** Once the module is entered and indexed, [Parse] runs the traversal from
    a new parser with budget 6 or 5 and renders the parser it returns. *)
Lemma Parse_traversal (w : World) (funcPkgPath funcName : string)
    (excludeRoot codeOnly : bool) (m : Snapshot) (funcSig : N)
    (idx : gmap N fileAndPkg) :
  enters w funcPkgPath m →
  initialize m funcName = Ok (funcSig, idx) →
  Parse w funcPkgPath funcName excludeRoot codeOnly =
    p ← processFunction (readFile m)
          (fuel_of (if excludeRoot then 6 else 5)) funcSig
          (if excludeRoot then 6 else 5) (newParser idx);
    Ok (toString p excludeRoot codeOnly).
Proof.
  intros Hent Hinit. rewrite (Parse_enters _ _ _ _ _ m Hent), Hinit.
  reflexivity.
Qed.

Lemma m_world_enters : enters fixtures.m_world "/src/m" fixtures.m_snapshot.
Proof. by exists "/home". Qed.

(** ** The result assembler *)

(** C5. Header suppression: when the traversal has visited the packages
    [P0; P1; P2] in that order, the document rendered with
    [excludeRoot = false] begins with the text of [P0], with no header line
    before it; the text of [P1] and the text of [P2] each follow a header
    line that names the package ([// name] with [codeOnly], the bare name
    without).  Rendered with [excludeRoot = true] the slot of [P0] is
    dropped: the document begins with the text of [P1], with no header line
    before it, and [P2] keeps its header line.  Blocks are separated by a
    blank line, and without [codeOnly] every text is fenced. *)
Theorem toString_header_suppression (p : parser) (P0 P1 P2 : Package) :
  pkgOrder p = [P0; P1; P2] →
  toString p false true =
    functions_at p P0 +:+ LF +:+ LF +:+
    "// " +:+ pkgName P1 +:+ LF +:+ functions_at p P1 +:+ LF +:+ LF +:+
    "// " +:+ pkgName P2 +:+ LF +:+ functions_at p P2
  ∧ toString p false false =
    "```" +:+ functions_at p P0 +:+ "```" +:+ LF +:+ LF +:+
    pkgName P1 +:+ LF +:+ "```" +:+ functions_at p P1 +:+ "```" +:+
    LF +:+ LF +:+
    pkgName P2 +:+ LF +:+ "```" +:+ functions_at p P2 +:+ "```"
  ∧ toString p true true =
    functions_at p P1 +:+ LF +:+ LF +:+
    "// " +:+ pkgName P2 +:+ LF +:+ functions_at p P2
  ∧ toString p true false =
    "```" +:+ functions_at p P1 +:+ "```" +:+ LF +:+ LF +:+
    pkgName P2 +:+ LF +:+ "```" +:+ functions_at p P2 +:+ "```".
Proof.
  intros Horder. unfold toString. rewrite Horder.
  unfold toString_loop, toString_body, formatPkg, formatFunctions.
  rewrite Horder. simpl.
  rewrite !append_nil_l, !append_assoc. repeat split; reflexivity.
Qed.

(** ** The symbol index *)

Lemma isGoModPkg_listed (goModPaths : list string) (pkgPath : string) :
  isGoModPkg goModPaths pkgPath = true ↔ listed_in goModPaths pkgPath.
Proof.
  unfold listed_in, in_module.
  induction goModPaths as [|path l IH]; simpl.
  - split; [discriminate|]. intros (path & Hin & _). inversion Hin.
  - destruct (String.eqb pkgPath path) eqn:E; simpl.
    + apply String.eqb_eq in E. split; [|reflexivity].
      intros _. exists path. split; [left|left; exact E].
    + destruct (gostrings.HasPrefix pkgPath (path +:+ "/")) eqn:E'.
      * split; [|reflexivity]. intros _. exists path. split; [left|right; exact E'].
      * rewrite IH. apply String.eqb_neq in E. split.
        -- intros (q & Hq & Hm). exists q. split; [right; exact Hq|exact Hm].
        -- intros (q & Hq & Hm). apply elem_of_cons in Hq as [->|Hq].
           ++ destruct Hm as [Hm|Hm]; [contradiction|congruence].
           ++ exists q. auto.
Qed.

Lemma isGoModPkg_head (root : string) (rest : list string) :
  isGoModPkg (root :: rest) root = true.
Proof. simpl. by rewrite String.eqb_refl. Qed.

(** What one step of the scan does, when the manifest lists a path. *)
Lemma scan_decl_spec (root : string) (rest : list string) (funcName : string)
    (pkg : Package) (file : File) (st : N * gmap N fileAndPkg) (fn : FuncDecl) :
  scan_decl (root :: rest) funcName pkg file st fn =
    Ok (match entry_sig funcName pkg fn with
        | Some sig => if String.eqb (PkgPath pkg) root then sig else st.1
        | None => st.1
        end,
        match decl_sig pkg fn with
        | Some sig =>
            if (sig =? 0)%N then st.2
            else <[sig := {| file := file; pkg := pkg |}]> st.2
        | None => st.2
        end).
Proof.
  unfold scan_decl, entry_sig, decl_sig.
  destruct st as [funcSig idx]; simpl.
  destruct (Name fn) as [name|]; simpl; [|reflexivity].
  destruct (ObjectOf pkg name) as [obj|]; simpl; [|reflexivity].
  destruct (objType obj) as [sig|]; simpl; [|reflexivity].
  destruct (sig =? 0)%N; simpl; [reflexivity|].
  unfold index; simpl.
  destruct (String.eqb (PkgPath pkg) root), (String.eqb (IdentName name) funcName);
    reflexivity.
Qed.

Lemma foldM_pure {A B : Type} (f : B → A → result B) (g : B → A → B)
    (l : list A) (b : B) :
  (∀ b x, x ∈ l → f b x = Ok (g b x)) → foldM f l b = Ok (foldl g b l).
Proof.
  revert b; induction l as [|x l IH]; intros b Hf; simpl; [reflexivity|].
  rewrite Hf by left. simpl. apply IH. intros; apply Hf; by right.
Qed.

Lemma last_app_singleton {A : Type} (l : list A) (x d : A) :
  List.last (l ++ [x]) d = x.
Proof. apply last_last. Qed.

Lemma last_nonempty_default {A : Type} (x : A) (l : list A) (d d' : A) :
  List.last (x :: l) d = List.last (x :: l) d'.
Proof.
  revert x; induction l as [|y l IH]; intros x; [reflexivity|].
  change (List.last (y :: l) d = List.last (y :: l) d'). apply IH.
Qed.

Lemma foldl_select_entry (funcName root : string) (pkg : Package)
    (decls : list FuncDecl) (funcSig : N) :
  foldl (select_entry funcName root pkg) funcSig decls =
    if String.eqb (PkgPath pkg) root
    then List.last (omap (entry_sig funcName pkg) decls) funcSig
    else funcSig.
Proof.
  revert funcSig; induction decls as [|fn decls IH]; intros funcSig; simpl.
  - by destruct (String.eqb _ _).
  - rewrite IH. unfold select_entry at 1 2.
    destruct (String.eqb (PkgPath pkg) root) eqn:E; [|by destruct (entry_sig _ _ _)].
    destruct (entry_sig funcName pkg fn) as [sig|]; [|reflexivity].
    change (list_omap FuncDecl N (entry_sig funcName pkg) decls)
      with (omap (entry_sig funcName pkg) decls).
    generalize (omap (entry_sig funcName pkg) decls) as l. intros l.
    destruct l as [|s l]; [reflexivity|].
    change (List.last (s :: l) sig = List.last (s :: l) funcSig).
    apply last_nonempty_default.
Qed.

Lemma last_app_default {A : Type} (l1 l2 : list A) (d : A) :
  List.last (l1 ++ l2) d = List.last l2 (List.last l1 d).
Proof.
  revert l1; induction l2 as [|x l2 IH] using rev_ind; intros l1.
  - by rewrite app_nil_r.
  - by rewrite app_assoc, !last_last.
Qed.

(** The scan of the files of a package: the entry signature is that of the
    last candidate of the package if it has the root path, and is unchanged
    otherwise. *)
Lemma scan_files_spec (root : string) (rest : list string) (funcName : string)
    (pkg : Package) (st : N * gmap N fileAndPkg) :
  foldM (λ st file,
           foldM (scan_decl (root :: rest) funcName pkg file) (Decls file) st)
        (Syntax pkg) st =
    Ok (if String.eqb (PkgPath pkg) root
        then List.last (entry_candidates funcName pkg) st.1
        else st.1,
        index_pkg pkg st.2).
Proof.
  unfold entry_candidates, index_pkg.
  generalize (Syntax pkg) as files. intros files; revert st.
  induction files as [|f files IH]; intros [funcSig idx]; simpl.
  - by destruct (String.eqb _ _).
  - rewrite (foldM_pure _
      (λ st fn, (select_entry funcName root pkg st.1 fn,
                 index_decl pkg f st.2 fn))).
    2:{ intros b fn _. rewrite scan_decl_spec. reflexivity. }
    simpl.
    assert (Hpair : ∀ l a b,
      foldl (λ (st : N * gmap N fileAndPkg) fn,
               (select_entry funcName root pkg st.1 fn,
                index_decl pkg f st.2 fn)) (a, b) l =
      (foldl (select_entry funcName root pkg) a l,
       foldl (index_decl pkg f) b l)).
    { induction l as [|x l IHl]; intros a b; simpl; [reflexivity|apply IHl]. }
    rewrite Hpair, IH. simpl. rewrite foldl_select_entry.
    destruct (String.eqb (PkgPath pkg) root); [|reflexivity].
    by rewrite last_app_default.
Qed.

Lemma entry_sig_nonzero (funcName : string) (pkg : Package) (fn : FuncDecl)
    (sig : N) :
  entry_sig funcName pkg fn = Some sig → sig ≠ 0%N.
Proof.
  unfold entry_sig. destruct (Name fn) as [name|]; simpl; [|discriminate].
  destruct (decl_sig pkg fn) as [s|]; simpl; [|discriminate].
  destruct (s =? 0)%N eqn:E; simpl; [discriminate|].
  destruct (String.eqb _ _); [|discriminate].
  intros [= <-]. by apply N.eqb_neq.
Qed.

Lemma entry_candidates_nonzero (funcName : string) (pkg : Package) (sig : N) :
  sig ∈ entry_candidates funcName pkg → sig ≠ 0%N.
Proof.
  unfold entry_candidates. intros Hin.
  apply list_elem_of_In, in_flat_map in Hin as (file & _ & Hin).
  apply list_elem_of_In, list_elem_of_omap in Hin as (fn & _ & Hfn).
  eapply entry_sig_nonzero; eauto.
Qed.

Lemma last_elem_of {A : Type} (l : list A) (d : A) :
  l ≠ [] → List.last l d ∈ l.
Proof.
  induction l as [|x l IH] using rev_ind; [done|]. intros _.
  rewrite last_last. apply elem_of_app; right; left.
Qed.

Lemma scan_pkg_other (root : string) (rest : list string) (funcName : string)
    (st : N * gmap N fileAndPkg) (pkg : Package) :
  PkgPath pkg ≠ root →
  scan_pkg (root :: rest) funcName st pkg =
    Ok (st.1, if isGoModPkg (root :: rest) (PkgPath pkg)
              then index_pkg pkg st.2 else st.2).
Proof.
  intros Hne. unfold scan_pkg.
  destruct (isGoModPkg (root :: rest) (PkgPath pkg)); simpl; [|by destruct st].
  rewrite scan_files_spec. simpl. unfold index; simpl.
  apply String.eqb_neq in Hne. rewrite Hne. reflexivity.
Qed.

Lemma scan_pkg_root (root : string) (rest : list string) (funcName : string)
    (st : N * gmap N fileAndPkg) (pkg : Package) :
  PkgPath pkg = root →
  scan_pkg (root :: rest) funcName st pkg =
    let funcSig := List.last (entry_candidates funcName pkg) st.1 in
    if (funcSig =? 0)%N then Panic (EntryPointNotFound funcName)
    else Ok (funcSig, index_pkg pkg st.2).
Proof.
  intros Heq. unfold scan_pkg. rewrite Heq, isGoModPkg_head. simpl.
  rewrite scan_files_spec. simpl. unfold index; simpl.
  rewrite Heq, String.eqb_refl. simpl.
  by destruct (List.last (entry_candidates funcName pkg) st.1 =? 0)%N.
Qed.

(** A package without a declaration of that name has no candidate. *)
Lemma entry_candidates_none (funcName : string) (pkg : Package) :
  ¬ declares funcName pkg → entry_candidates funcName pkg = [].
Proof.
  intros Hno. destruct (entry_candidates funcName pkg) as [|sig l] eqn:E; [reflexivity|].
  exfalso. apply Hno.
  assert (Hin : sig ∈ entry_candidates funcName pkg) by (rewrite E; left).
  unfold entry_candidates in Hin.
  apply list_elem_of_In, in_flat_map in Hin as (file & Hfile & Hin).
  apply list_elem_of_In, list_elem_of_omap in Hin as (fn & Hfn & Hsig).
  unfold entry_sig in Hsig.
  destruct (Name fn) as [name|] eqn:En; simpl in Hsig; [|discriminate].
  destruct (decl_sig pkg fn) as [s|]; simpl in Hsig; [|discriminate].
  destruct (String.eqb (IdentName name) funcName) eqn:Es;
    [|by rewrite andb_false_r in Hsig].
  exists file, fn, name. apply String.eqb_eq in Es.
  split; [by apply list_elem_of_In|]. auto.
Qed.

Lemma scan_not_found (root : string) (rest : list string) (funcName : string)
    (pkgs : list Package) (st : N * gmap N fileAndPkg) :
  st.1 = 0%N →
  (∃ pkg, pkg ∈ pkgs ∧ PkgPath pkg = root) →
  (∀ pkg, pkg ∈ pkgs → PkgPath pkg = root → ¬ declares funcName pkg) →
  foldM (scan_pkg (root :: rest) funcName) pkgs st =
    Panic (EntryPointNotFound funcName).
Proof.
  revert st; induction pkgs as [|pkg pkgs IH]; intros st Hst Hex Hno.
  - destruct Hex as (pkg & Hin & _). inversion Hin.
  - simpl. destruct (decide (PkgPath pkg = root)) as [Heq|Hne].
    + rewrite scan_pkg_root by exact Heq.
      rewrite entry_candidates_none by (apply Hno; [left|exact Heq]).
      simpl. rewrite Hst. reflexivity.
    + rewrite scan_pkg_other by exact Hne. simpl. apply IH.
      * exact Hst.
      * destruct Hex as (q & Hin & Hq).
        apply elem_of_cons in Hin as [->|Hin]; [contradiction|eauto].
      * intros q Hq. apply Hno. by right.
Qed.

(** When the first path read from the manifest is the path of a loaded
    package and no package of that path declares a function with the
    requested name, [initialize] panics with [EntryPointNotFound], and so
    does [Parse] when the directory can be entered and left again. *)
Lemma entry_point_not_found_first_path (w : World) (dir : string)
    (m : Snapshot) (root : string) (rest : list string) (pkgs : list Package)
    (funcName : string) (excludeRoot codeOnly : bool) :
  enters w dir m →
  parseGoModFile m = Ok (root :: rest) →
  loadPackages m = Ok pkgs →
  (∃ pkg, pkg ∈ pkgs ∧ PkgPath pkg = root) →
  (∀ pkg, pkg ∈ pkgs → PkgPath pkg = root → ¬ declares funcName pkg) →
  initialize m funcName = Panic (EntryPointNotFound funcName)
  ∧ Parse w dir funcName excludeRoot codeOnly =
      Panic (EntryPointNotFound funcName).
Proof.
  intros Hdir Hmod Hload Hex Hno.
  assert (Hinit : initialize m funcName = Panic (EntryPointNotFound funcName)).
  { unfold initialize. rewrite Hmod, Hload. simpl.
    by apply scan_not_found. }
  split; [exact Hinit|].
  rewrite (Parse_enters _ _ _ _ _ m Hdir), Hinit. reflexivity.
Qed.

Lemma omap_flat_map {A B C : Type} (f : A → list B) (g : B → option C)
    (l : list A) :
  flat_map (λ x, omap g (f x)) l = omap g (flat_map f l).
Proof.
  induction l as [|x l IH]; simpl; [reflexivity|].
  by rewrite omap_app, IH.
Qed.

Lemma scan_others (root : string) (rest : list string) (funcName : string)
    (pkgs : list Package) (st : N * gmap N fileAndPkg) :
  (∀ pkg, pkg ∈ pkgs → PkgPath pkg ≠ root) →
  ∃ idx, foldM (scan_pkg (root :: rest) funcName) pkgs st = Ok (st.1, idx).
Proof.
  revert st; induction pkgs as [|pkg pkgs IH]; intros st Hne; simpl.
  - exists st.2. by destruct st.
  - rewrite scan_pkg_other by (apply Hne; left). simpl.
    apply (IH (st.1, _)). intros q Hq. apply Hne. by right.
Qed.

(** C10. Entry-point selection: with the primary package [rootPkg] the only
    loaded package of the root path, if [fn] is a declaration of it whose
    declared name is the requested one (whatever its receiver [Recv fn], so
    a method as well as a function) and no declaration scanned after it in
    the package has that name, then [initialize] returns the signature of
    [fn] as the entry signature, whatever declarations of the same name were
    scanned before it. *)
Theorem entry_point_last_declaration_wins (m : Snapshot) (root : string)
    (rest : list string) (before after : list Package) (rootPkg : Package)
    (funcName : string) (earlier later : list FuncDecl) (fn : FuncDecl)
    (name : Ident) (obj : Object) (sig : N) :
  parseGoModFile m = Ok (root :: rest) →
  loadPackages m = Ok (before ++ rootPkg :: after) →
  PkgPath rootPkg = root →
  (∀ pkg, pkg ∈ before ++ after → PkgPath pkg ≠ root) →
  flat_map Decls (Syntax rootPkg) = earlier ++ fn :: later →
  Name fn = Some name →
  IdentName name = funcName →
  ObjectOf rootPkg name = Some obj →
  objType obj = TSignature sig →
  sig ≠ 0%N →
  (∀ fn' name', fn' ∈ later → Name fn' = Some name' →
                IdentName name' ≠ funcName) →
  ∃ funcToFileAndPkg, initialize m funcName = Ok (sig, funcToFileAndPkg).
Proof.
  intros Hmod Hload Hroot Hothers Hdecls Hname Hmatch Hobj Htype Hnz Hlater.
  unfold initialize. rewrite Hmod, Hload. simpl.
  rewrite foldM_app.
  destruct (scan_others root rest funcName before (0%N, ∅)) as [idx0 ->].
  { intros q Hq. apply Hothers, elem_of_app. by left. }
  simpl. rewrite scan_pkg_root by exact Hroot. simpl.
  assert (Hlast : List.last (entry_candidates funcName rootPkg) 0%N = sig).
  { unfold entry_candidates. rewrite omap_flat_map, Hdecls, omap_app. simpl.
    assert (Hfn : entry_sig funcName rootPkg fn = Some sig).
    { unfold entry_sig, decl_sig. rewrite Hname. simpl. rewrite Hobj. simpl.
      rewrite Htype. simpl. apply N.eqb_neq in Hnz. rewrite Hnz, Hmatch.
      by rewrite String.eqb_refl. }
    rewrite Hfn.
    assert (Hnone : omap (entry_sig funcName rootPkg) later = []).
    { destruct (omap (entry_sig funcName rootPkg) later) as [|s l] eqn:E; [done|].
      exfalso.
      assert (Hin : s ∈ omap (entry_sig funcName rootPkg) later)
        by (rewrite E; left).
      apply list_elem_of_omap in Hin as (fn' & Hfn' & Hs).
      unfold entry_sig in Hs.
      destruct (Name fn') as [name'|] eqn:En; simpl in Hs; [|discriminate].
      destruct (decl_sig rootPkg fn'); simpl in Hs; [|discriminate].
      destruct (String.eqb (IdentName name') funcName) eqn:Es;
        [|by rewrite andb_false_r in Hs].
      apply String.eqb_eq in Es. by apply (Hlater fn' name'). }
    change (list_omap FuncDecl N (entry_sig funcName rootPkg) later)
      with (omap (entry_sig funcName rootPkg) later).
    rewrite Hnone. apply last_last. }
  rewrite Hlast. apply N.eqb_neq in Hnz. rewrite Hnz. simpl.
  destruct (scan_others root rest funcName after (sig, index_pkg rootPkg idx0))
    as [idx ->].
  { intros q Hq. apply Hothers, elem_of_app. by right. }
  by exists idx.
Qed.

(** The index after a package is scanned only gains entries for declarations
    of that package. *)
Lemma index_pkg_invariant (G : N → fileAndPkg → Prop) (pkg : Package)
    (idx : gmap N fileAndPkg) :
  (∀ sig f, idx !! sig = Some f → G sig f) →
  (∀ file fn sig, file ∈ Syntax pkg → fn ∈ Decls file →
                  decl_sig pkg fn = Some sig →
                  G sig {| file := file; pkg := pkg |}) →
  ∀ sig f, index_pkg pkg idx !! sig = Some f → G sig f.
Proof.
  unfold index_pkg. intros Hidx Hnew.
  assert (Hfiles : ∀ files idx,
    (∀ file, file ∈ files → file ∈ Syntax pkg) →
    (∀ sig f, idx !! sig = Some f → G sig f) →
    ∀ sig f,
      foldl (λ idx file, foldl (index_decl pkg file) idx (Decls file))
            idx files !! sig = Some f → G sig f).
  { induction files as [|file files IH]; intros idx0 Hsub H0; simpl; [exact H0|].
    apply IH; [intros; apply Hsub; by right|].
    assert (Hdecls : ∀ decls idx,
      (∀ fn, fn ∈ decls → fn ∈ Decls file) →
      (∀ sig f, idx !! sig = Some f → G sig f) →
      ∀ sig f, foldl (index_decl pkg file) idx decls !! sig = Some f → G sig f).
    { induction decls as [|fn decls IHd]; intros idx1 Hsubd H1; simpl; [exact H1|].
      apply IHd; [intros; apply Hsubd; by right|].
      unfold index_decl. destruct (decl_sig pkg fn) as [s|] eqn:Es; [|exact H1].
      destruct (s =? 0)%N; [exact H1|].
      intros sig f. rewrite lookup_insert. case_decide as Hd.
      - intros [= <-]. subst s. apply (Hnew file fn); auto; [apply Hsub|apply Hsubd]; left.
      - apply H1. }
    apply Hdecls; auto. }
  apply Hfiles; auto.
Qed.

Lemma scan_pkg_index (goModPaths : list string) (funcName : string)
    (st st' : N * gmap N fileAndPkg) (pkg : Package) :
  scan_pkg goModPaths funcName st pkg = Ok st' →
  st'.2 = st.2
  ∨ (isGoModPkg goModPaths (PkgPath pkg) = true ∧ st'.2 = index_pkg pkg st.2).
Proof.
  destruct goModPaths as [|root rest].
  - unfold scan_pkg; simpl. intros [= <-]. by left.
  - destruct (decide (PkgPath pkg = root)) as [Heq|Hne].
    + rewrite scan_pkg_root by exact Heq. simpl.
      destruct (_ =? 0)%N; [discriminate|]. intros [= <-]. right.
      split; [|reflexivity]. rewrite Heq. apply isGoModPkg_head.
    + rewrite scan_pkg_other by exact Hne.
      destruct (isGoModPkg (root :: rest) (PkgPath pkg)) eqn:E;
        intros [= <-]; [right|left]; auto.
Qed.

(** C4 (as amended). Every entry of the index built by [initialize] is a
    declaration of a loaded package whose path is, or lies under, one of the
    paths read from the manifest [go.mod] (the module path and the paths of
    the requirements listed there); and a signature absent from the index is
    a silent leaf: [processFunction] returns without changing the parser. *)
Theorem index_only_listed_packages (m : Snapshot) (funcName : string)
    (goModPaths : list string) (pkgs : list Package) (funcSig : N)
    (idx : gmap N fileAndPkg) :
  parseGoModFile m = Ok goModPaths →
  loadPackages m = Ok pkgs →
  initialize m funcName = Ok (funcSig, idx) →
  (∀ sig f, idx !! sig = Some f →
     pkg f ∈ pkgs ∧ listed_in goModPaths (PkgPath (pkg f)) ∧
     file f ∈ Syntax (pkg f) ∧
     ∃ fn, fn ∈ Decls (file f) ∧ decl_sig (pkg f) fn = Some sig)
  ∧ (∀ readFile fuel sig depth p,
       funcToFileAndPkg p = idx → idx !! sig = None →
       processFunction readFile (S fuel) sig depth p = Ok p).
Proof.
  intros Hmod Hload Hinit. split.
  - unfold initialize in Hinit. rewrite Hmod, Hload in Hinit. simpl in Hinit.
    revert Hinit.
    change idx with (funcSig, idx).2 at 2.
    generalize (funcSig, idx) as st'. intros st'.
    apply (foldM_invariant (λ st : N * gmap N fileAndPkg,
      ∀ sig f, st.2 !! sig = Some f →
        pkg f ∈ pkgs ∧ listed_in goModPaths (PkgPath (pkg f)) ∧
        file f ∈ Syntax (pkg f) ∧
        ∃ fn, fn ∈ Decls (file f) ∧ decl_sig (pkg f) fn = Some sig)).
    + intros st q st1 Hq Hst Hscan.
      apply scan_pkg_index in Hscan as [->|[Hlisted ->]]; [exact Hst|].
      apply index_pkg_invariant; [exact Hst|].
      intros file0 fn sig Hfile Hfn Hsig. simpl.
      split; [exact Hq|]. split; [by apply isGoModPkg_listed|].
      split; [exact Hfile|]. by exists fn.
    + simpl. intros sig f Hf. by rewrite lookup_empty in Hf.
  - intros readFile fuel sig depth p Hp Hnone. simpl.
    case_bool_decide; [reflexivity|]. by rewrite Hp, Hnone.
Qed.

(** ** The source slicer *)

Lemma join_app (l1 l2 : list string) : join (l1 ++ l2) = join l1 +:+ join l2.
Proof.
  induction l1 as [|s l1 IH]; simpl; [reflexivity|].
  by rewrite IH, append_assoc.
Qed.

Lemma slice_empty {A : Type} (l : list A) (from to : Z) :
  to < from → slice l from to = [].
Proof. intros H. unfold slice. by replace (Z.to_nat (to - from + 1)) with O by lia. Qed.

Lemma slice_cons {A : Type} (l : list A) (from to : Z) (x : A) :
  0 ≤ from → from ≤ to → l !! Z.to_nat from = Some x →
  slice l from to = x :: slice l (from + 1) to.
Proof.
  intros H0 Hle Hx. unfold slice.
  replace (Z.to_nat (to - from + 1)) with (S (Z.to_nat (to - (from + 1) + 1))) by lia.
  rewrite (drop_S _ _ _ Hx). simpl.
  by replace (Z.to_nat (from + 1)) with (S (Z.to_nat from)) by lia.
Qed.

(** Two adjacent ranges of lines make one range. *)
Lemma slice_app {A : Type} (l : list A) (from mid to : Z) :
  0 ≤ from → from ≤ mid → mid ≤ to + 1 →
  slice l from (mid - 1) ++ slice l mid to = slice l from to.
Proof.
  intros H0 H1 H2. unfold slice.
  replace (Z.to_nat (mid - 1 - from + 1)) with (Z.to_nat (mid - from)) by lia.
  replace (Z.to_nat (to - from + 1))
    with (Z.to_nat (mid - from) + Z.to_nat (to - mid + 1))%nat by lia.
  rewrite <- take_take_drop, drop_drop. do 3 f_equal. lia.
Qed.

Lemma foldM_cons {A B : Type} (f : B → A → result B) (x : A) (l : list A)
    (b : B) :
  foldM f (x :: l) b = f b x ≫= foldM f l.
Proof. reflexivity. Qed.

Lemma index_lookup {A : Type} (l : list A) (i : Z) (x : A) :
  0 ≤ i → l !! Z.to_nat i = Some x → index l i = Ok x.
Proof.
  intros H0 Hx. unfold index. replace (i <? 0) with false by lia.
  by rewrite Hx.
Qed.

(** The loop over a range of lines that exist writes them all. *)
Lemma writeLines_ok (lines : list string) (from to : Z) (sb : string) :
  0 ≤ from → to < Z.of_nat (length lines) →
  writeLines lines from to sb = Ok (sb +:+ lines_text lines from to).
Proof.
  intros H0 Hlen. unfold writeLines, lines_text.
  remember (Z.to_nat (to - from + 1)) as n eqn:En.
  revert from sb H0 En. induction n as [|n IH]; intros from sb H0 En.
  - rewrite slice_empty by lia.
    replace (seqZ from (to - from + 1)) with (@nil Z).
    + simpl. by rewrite append_nil_r.
    + symmetry. apply seqZ_nil. lia.
  - rewrite seqZ_cons by lia. rewrite foldM_cons.
    destruct (lookup_lt_is_Some_2 lines (Z.to_nat from)) as [l Hl]; [lia|].
    rewrite (index_lookup lines from l) by auto.
    rewrite (slice_cons lines from to l) by (auto; lia).
    replace (Z.pred (to - from + 1)) with (to - Z.succ from + 1) by lia.
    change (foldM (λ sb i, l ← index lines i; Ok (sb +:+ (l +:+ LF)))
              (seqZ (Z.succ from) (to - Z.succ from + 1))
              (sb +:+ (l +:+ LF)) =
            Ok (sb +:+ ((l +:+ LF) +:+
                        join (map (λ l, l +:+ LF) (slice lines (from + 1) to))))).
    rewrite (IH (Z.succ from)) by lia.
    by rewrite !append_assoc.
Qed.

Lemma lines_text_app (lines : list string) (from mid to : Z) :
  0 ≤ from → from ≤ mid → mid ≤ to + 1 →
  lines_text lines from (mid - 1) +:+ lines_text lines mid to =
    lines_text lines from to.
Proof.
  intros. unfold lines_text.
  by rewrite <- join_app, <- map_app, slice_app.
Qed.

Lemma lines_text_empty (lines : list string) (from to : Z) :
  to < from → lines_text lines from to = "".
Proof. intros. unfold lines_text. by rewrite slice_empty. Qed.

Lemma tiles_le (fset : FileSet) (comments : list (option Comment))
    (first next : Z) :
  tiles fset comments first next → first ≤ next.
Proof.
  revert first; induction comments as [|[c|] cs IH]; intros first; simpl.
  - lia.
  - intros (_ & Hle & Hcs). apply IH in Hcs. lia.
  - apply IH.
Qed.

(** Comments on consecutive lines are written as one block of lines. *)
Lemma writeComments_tiles (fset : FileSet) (lines : list string)
    (comments : list (option Comment)) (first next : Z) (sb : string) :
  tiles fset comments first next →
  0 ≤ first → next ≤ Z.of_nat (length lines) →
  writeComments fset lines comments sb =
    Ok (sb +:+ lines_text lines first (next - 1)).
Proof.
  unfold writeComments.
  revert first sb; induction comments as [|[c|] cs IH]; intros first sb Ht H0 Hlen.
  - simpl in Ht. subst next. simpl.
    by rewrite lines_text_empty, append_nil_r by lia.
  - destruct Ht as (Hpos & Hle & Hcs). rewrite foldM_cons.
    pose proof (tiles_le _ _ _ _ Hcs) as Hnext.
    rewrite Hpos, writeLines_ok by lia.
    change (foldM
      (λ sb comment,
         match comment with
         | Some comment =>
             writeLines lines (Line (fset (Comment_Pos comment)) - 1)
               (Line (fset (Comment_End comment)) - 1) sb
         | None => Ok sb
         end) cs
      (sb +:+ lines_text lines first (Line (fset (Comment_End c)) - 1)) =
      Ok (sb +:+ lines_text lines first (next - 1))).
    rewrite (IH (Line (fset (Comment_End c)))) by (auto; lia).
    rewrite append_assoc. do 2 f_equal.
    apply lines_text_app; lia.
  - rewrite foldM_cons. simpl in Ht. apply (IH first sb); auto.
Qed.

(** C8 (as amended). For a declaration whose file can be read, whose
    documentation comments (when present) lie on consecutive lines, without
    overlap, ending on the line just above the declaration, and whose lines
    exist in the file, the slicer returns the whole lines of the file from
    the first line of the documentation block (or of the declaration, when
    there is no block) through the last line of the declaration, each line
    verbatim and followed by a newline. *)
Theorem extractSourceCode_whole_lines (readFile : string → option string)
    (fset : FileSet) (file : File) (fn : FuncDecl) (fileContent : string)
    (first : Z) :
  let lines := gostrings.Split fileContent in
  let start := Line (fset (FuncDecl_Pos fn)) - 1 in
  let end_ := Line (fset (FuncDecl_End fn)) - 1 in
  readFile (Filename (fset (FuncDecl_Pos fn))) = Some fileContent →
  match Doc fn with
  | Some comments => tiles fset comments first start
  | None => first = start
  end →
  0 ≤ first → start ≤ end_ → end_ < Z.of_nat (length lines) →
  extractSourceCode readFile fset file fn =
    Ok (lines_text lines first end_, None).
Proof.
  intros lines start end_ Hread Hdoc H0 Hse Hlen.
  unfold extractSourceCode. rewrite Hread.
  fold lines start end_.
  assert (Hfs : first ≤ start).
  { destruct (Doc fn); [by eapply tiles_le|lia]. }
  assert (Hsb : match Doc fn with
                | Some comments => writeComments fset lines comments ""
                | None => Ok ""
                end = Ok (lines_text lines first (start - 1))).
  { destruct (Doc fn) as [comments|].
    - rewrite (writeComments_tiles fset lines comments first start) by (auto; lia).
      reflexivity.
    - subst first. by rewrite lines_text_empty by lia. }
  rewrite Hsb. simpl.
  rewrite writeLines_ok by lia. simpl.
  by rewrite lines_text_app by lia.
Qed.

(** ** The call-graph walker: executions *)

Section WalkSound.

Variable readFile : string → option string.

Lemma processUnderlyingFunctions_walk
    (rec : N → Z → parser → result parser) (pkg : Package) (fn : FuncDecl)
    (depth : Z) (p p' : parser) :
  (∀ sig d p p', rec sig d p = Ok p' → walk readFile sig d p p') →
  processUnderlyingFunctions rec pkg fn depth p = Ok p' →
  walk_calls readFile pkg depth (followed_calls fn depth) p p'.
Proof.
  intros Hrec. unfold processUnderlyingFunctions, followed_calls.
  destruct (depth <=? 0) eqn:Hd; [intros [= <-]; constructor|].
  destruct (Body fn) as [body|]; [|intros [= <-]; constructor].
  assert (Hpos : 0 < depth) by lia.
  generalize (Calls body) as calls. intros calls; revert p.
  induction calls as [|ce calls IH]; intros p; simpl.
  - intros [= <-]; constructor.
  - intros (p1 & H1 & H2)%bind_Ok.
    destruct (callee pkg ce) as [g|] eqn:Hg.
    + eapply walk_calls_call; eauto.
    + injection H1 as <-. apply walk_calls_skip; auto.
Qed.

Lemma visit_decls_walk (rec : N → Z → parser → result parser)
    (f : fileAndPkg) (funcSig : N) (depth : Z) (decls : list FuncDecl)
    (p p' : parser) :
  (∀ sig d p p', rec sig d p = Ok p' → walk readFile sig d p p') →
  foldM (visit_decl readFile rec f funcSig depth) decls p = Ok p' →
  walk_decls readFile f funcSig depth decls p p'.
Proof.
  intros Hrec. revert p. induction decls as [|fn decls IH]; intros p; simpl.
  - intros [= <-]; constructor.
  - intros (p1 & H1 & H2)%bind_Ok. revert H1.
    unfold visit_decl.
    destruct (Name fn) as [name|] eqn:Hn.
    2:{ intros [= <-]. apply walk_decls_skip; auto.
        unfold decl_sig. by rewrite Hn. }
    destruct (ObjectOf (pkg f) name) as [obj|] eqn:Ho; [|discriminate].
    destruct (objType obj) as [sig|] eqn:Ht.
    2:{ intros [= <-]. apply walk_decls_skip; auto.
        unfold decl_sig. rewrite Hn; simpl. rewrite Ho; simpl. by rewrite Ht. }
    destruct (sig =? funcSig)%N eqn:Hs; simpl.
    2:{ intros [= <-]. apply walk_decls_skip; auto.
        unfold decl_sig. rewrite Hn; simpl. rewrite Ho; simpl. rewrite Ht.
        apply N.eqb_neq in Hs. congruence. }
    apply N.eqb_eq in Hs. subst sig.
    intros ([funcSrc err] & Hx & Hu)%bind_Ok.
    destruct err as [e|]; [discriminate|].
    eapply walk_decls_match; eauto.
    + unfold decl_sig. rewrite Hn; simpl. rewrite Ho; simpl. by rewrite Ht.
    + eapply processUnderlyingFunctions_walk; eauto.
Qed.

(** Every run of [processFunction] that returns is an execution. *)
Lemma processFunction_walk (fuel : nat) (funcSig : N) (depth : Z)
    (p p' : parser) :
  processFunction readFile fuel funcSig depth p = Ok p' →
  walk readFile funcSig depth p p'.
Proof.
  revert funcSig depth p p'. induction fuel as [|fuel IH];
    intros funcSig depth p p'; simpl; [discriminate|].
  case_bool_decide as Hseen; [intros [= <-]; by constructor|].
  destruct (funcToFileAndPkg p !! funcSig) as [f|] eqn:Hf;
    [|intros [= <-]; by apply walk_leaf].
  intros Hloop. eapply walk_file; eauto.
  eapply visit_decls_walk; eauto.
Qed.

(** [fuel_of depth] is enough fuel for a depth other than [int_min]: the
    recursion of [processFunction] ends. *)
Lemma processFunction_fuel_enough (fuel : nat) (funcSig : N) (depth : Z)
    (p : parser) :
  (fuel_of depth ≤ fuel)%nat → depth ≠ int_min →
  processFunction readFile fuel funcSig depth p ≠ OutOfFuel.
Proof.
  revert funcSig depth p. induction fuel as [|fuel IH];
    intros funcSig depth p Hfuel Hmin; [unfold fuel_of in Hfuel; lia|].
  simpl. case_bool_decide; [discriminate|].
  destruct (funcToFileAndPkg p !! funcSig) as [f|]; [|discriminate].
  apply foldM_fuel. intros p0 fn _. unfold visit_decl.
  destruct (Name fn) as [name|]; [|discriminate].
  destruct (ObjectOf (pkg f) name) as [obj|]; [|discriminate].
  destruct (objType obj) as [sig|]; [|discriminate].
  destruct (negb (sig =? funcSig)%N); [discriminate|].
  destruct (extractSourceCode readFile (Fset (pkg f)) (file f) fn)
    as [[funcSrc [e|]]|e|] eqn:Hx; simpl; try discriminate.
  - unfold processUnderlyingFunctions.
    destruct (int_pred depth <=? 0) eqn:Hd; [discriminate|].
    destruct (Body fn) as [body|]; [|discriminate].
    apply foldM_fuel. intros p1 ce _.
    destruct (callee (pkg f) ce); [|discriminate].
    destruct (int_pred_pos depth Hmin) as [Heq Hmin']; [lia|].
    apply IH; [|exact Hmin']. rewrite Heq. unfold fuel_of in *. lia.
  - exfalso. revert Hx. unfold extractSourceCode.
    destruct (readFile _); [|discriminate].
    unfold writeComments, writeLines.
    destruct (Doc fn) as [comments|]; simpl.
    + intros Hx.
      match type of Hx with
      | (?m ≫= _) = _ => destruct m as [sb| |] eqn:Hm
      end; simpl in Hx; [| discriminate |].
      * match type of Hx with
        | (?m ≫= _) = _ => destruct m as [sb'| |] eqn:Hm'
        end; simpl in Hx; try discriminate.
        revert Hm'. apply foldM_fuel. intros b i _.
        destruct (index _ i) eqn:Hi; simpl; try discriminate.
        unfold index in Hi. destruct (i <? 0); [discriminate|].
        destruct (_ !! _); discriminate.
      * revert Hm. apply foldM_fuel. intros b [c|] _; [|discriminate].
        apply foldM_fuel. intros b' i _.
        destruct (index _ i) eqn:Hi; simpl; try discriminate.
        unfold index in Hi. destruct (i <? 0); [discriminate|].
        destruct (_ !! _); discriminate.
    + intros Hx.
      match type of Hx with
      | (?m ≫= _) = _ => destruct m as [sb'| |] eqn:Hm'
      end; simpl in Hx; try discriminate.
      revert Hm'. apply foldM_fuel. intros b i _.
      destruct (index _ i) eqn:Hi; simpl; try discriminate.
      unfold index in Hi. destruct (i <? 0); [discriminate|].
      destruct (_ !! _); discriminate.
Qed.

End WalkSound.

(** ** The call-graph walker: invariants *)

Section WalkInvariants.

Variable readFile : string → option string.

(** A reflexive and transitive relation between parser states that every
    recording of a function satisfies holds between the start and the end of
    every execution. *)
Lemma walk_preserves (Q : parser → parser → Prop) :
  (∀ p, Q p p) →
  (∀ p1 p2 p3, Q p1 p2 → Q p2 p3 → Q p1 p3) →
  (∀ f funcSig funcSrc p, Q p (record_function f funcSig funcSrc p)) →
  (∀ funcSig depth p p', walk readFile funcSig depth p p' → Q p p')
  ∧ (∀ f funcSig depth decls p p',
       walk_decls readFile f funcSig depth decls p p' → Q p p')
  ∧ (∀ pkg depth calls p p',
       walk_calls readFile pkg depth calls p p' → Q p p').
Proof.
  intros Hrefl Htrans Hrec.
  apply (walk_mutind readFile
           (λ _ _ p p', Q p p') (λ _ _ _ _ p p', Q p p') (λ _ _ _ p p', Q p p'));
    eauto.
Qed.

Lemma extends_refl (p : parser) : extends p p.
Proof.
  repeat split; try (exists []; by rewrite app_nil_r); set_solver.
Qed.

Lemma extends_trans (p1 p2 p3 : parser) :
  extends p1 p2 → extends p2 p3 → extends p1 p3.
Proof.
  intros (H1 & [l1 H2] & [k1 H3] & H4) (H1' & [l2 H2'] & [k2 H3'] & H4').
  repeat split.
  - congruence.
  - exists (l1 ++ l2). by rewrite H2', H2, app_assoc.
  - exists (k1 ++ k2). by rewrite H3', H3, app_assoc.
  - set_solver.
Qed.

Lemma extends_record (f : fileAndPkg) (funcSig : N) (funcSrc : string)
    (p : parser) :
  extends p (record_function f funcSig funcSrc p).
Proof.
  repeat split; simpl.
  - by eexists.
  - destruct (functions p !! pkgAddr (pkg f)); [exists []; by rewrite app_nil_r|by eexists].
  - set_solver.
Qed.

Lemma walk_extends (funcSig : N) (depth : Z) (p p' : parser) :
  walk readFile funcSig depth p p' → extends p p'.
Proof.
  destruct (walk_preserves extends extends_refl extends_trans extends_record)
    as (Hw & Hd & Hc); eauto.
Qed.

Lemma walk_decls_extends (f : fileAndPkg) (funcSig : N) (depth : Z)
    (decls : list FuncDecl) (p p' : parser) :
  walk_decls readFile f funcSig depth decls p p' → extends p p'.
Proof.
  destruct (walk_preserves extends extends_refl extends_trans extends_record)
    as (Hw & Hd & Hc); eauto.
Qed.

Lemma walk_calls_extends (pkg : Package) (depth : Z) (calls : list CallExpr)
    (p p' : parser) :
  walk_calls readFile pkg depth calls p p' → extends p p'.
Proof.
  destruct (walk_preserves extends extends_refl extends_trans extends_record)
    as (Hw & Hd & Hc); eauto.
Qed.

End WalkInvariants.

(** ** The history agrees with the parser *)

Lemma chunks_snoc (a : N) (log : list (N * N * string)) (e : N * N * string) :
  chunks a (log ++ [e]) =
    chunks a log ++ (if decide (entry_pkg e = a) then [e] else []).
Proof.
  unfold chunks. by rewrite filter_app.
Qed.

Lemma text_of_snoc (a : N) (log : list (N * N * string)) (e : N * N * string) :
  text_of a (log ++ [e]) =
    if decide (entry_pkg e = a) then text_of a log +:+ (LF +:+ entry_src e)
    else text_of a log.
Proof.
  unfold text_of. rewrite chunks_snoc.
  destruct (decide (entry_pkg e = a)).
  - rewrite map_app, join_app. simpl. by rewrite append_nil_r.
  - by rewrite app_nil_r.
Qed.

Lemma text_of_no_chunks (a : N) (log : list (N * N * string)) :
  chunks a log = [] → text_of a log = "".
Proof. intros H. unfold text_of. by rewrite H. Qed.

Lemma consistent_newParser (idx : gmap N fileAndPkg) :
  consistent (newParser idx).
Proof.
  split; simpl.
  - intros a. by rewrite lookup_empty.
  - intros sig. unfold visited; simpl. set_solver.
  - intros a. rewrite lookup_empty. split; [inversion 1|by intros []].
  - constructor.
Qed.

(** In a consistent parser, [p.functions[pkg]] is the text of the history
    entries of that package. *)
Lemma functions_at_text (p : parser) (pkg : Package) :
  consistent p → functions_at p pkg = text_of (pkgAddr pkg) (extracted p).
Proof.
  intros Hc. unfold functions_at. rewrite (consistent_functions p Hc).
  destruct (decide _) as [Hnil|]; [|reflexivity].
  simpl. by rewrite text_of_no_chunks.
Qed.

Lemma consistent_record (f : fileAndPkg) (funcSig : N) (funcSrc : string)
    (p : parser) :
  consistent p → consistent (record_function f funcSig funcSrc p).
Proof.
  intros Hc.
  assert (Hfun : ∀ a,
    functions (record_function f funcSig funcSrc p) !! a =
      if decide (chunks a (extracted (record_function f funcSig funcSrc p)) = [])
      then None
      else Some (text_of a (extracted (record_function f funcSig funcSrc p)))).
  { intros a. simpl. rewrite chunks_snoc, text_of_snoc.
    unfold entry_pkg, entry_src; simpl.
    rewrite lookup_insert. destruct (decide (pkgAddr (pkg f) = a)) as [<-|Hne].
    - rewrite functions_at_text by exact Hc.
      destruct (decide (_ ++ [_] = [])) as [Habs|_]; [|reflexivity].
      by apply app_eq_nil in Habs as [_ ?].
    - rewrite app_nil_r. apply (consistent_functions p Hc). }
  split.
  - exact Hfun.
  - intros sig. unfold visited; simpl. rewrite map_app, elem_of_app. simpl.
    rewrite elem_of_union, elem_of_singleton, list_elem_of_singleton.
    pose proof (consistent_seen p Hc sig) as Hs. unfold visited in Hs.
    unfold entry_sig_of at 2; simpl. tauto.
  - intros a. simpl.
    rewrite lookup_insert.
    destruct (functions p !! pkgAddr (pkg f)) as [s|] eqn:Hs.
    + rewrite (consistent_order p Hc a).
      destruct (decide (pkgAddr (pkg f) = a)) as [<-|Hne]; [|reflexivity].
      rewrite Hs. split; eauto.
    + rewrite map_app, elem_of_app, (consistent_order p Hc a). simpl.
      rewrite list_elem_of_singleton.
      destruct (decide (pkgAddr (pkg f) = a)) as [<-|Hne].
      * split; eauto.
      * split; [intros [?|?]; [done|congruence]|by left].
  - simpl. destruct (functions p !! pkgAddr (pkg f)) as [s|] eqn:Hs.
    + apply (consistent_nodup p Hc).
    + rewrite map_app. apply NoDup_app. split; [apply (consistent_nodup p Hc)|].
      split; [|apply NoDup_singleton].
      intros a Ha. simpl. rewrite list_elem_of_singleton. intros ->.
      apply (consistent_order p Hc) in Ha. rewrite Hs in Ha. by destruct Ha.
Qed.

Lemma walk_consistent (readFile : string → option string) (funcSig : N)
    (depth : Z) (p p' : parser) :
  walk readFile funcSig depth p p' → consistent p → consistent p'.
Proof.
  intros Hw.
  destruct (walk_preserves readFile (λ p p', consistent p → consistent p'))
    as (H & _ & _); eauto using consistent_record.
Qed.

(** ** The depth bound *)

Lemma callees_of_elim (idx : gmap N fileAndPkg) (funcSig g : N) :
  g ∈ callees_of idx funcSig →
  ∃ f fn body ce,
    idx !! funcSig = Some f ∧ fn ∈ Decls (file f) ∧
    decl_sig (pkg f) fn = Some funcSig ∧ Body fn = Some body ∧
    ce ∈ Calls body ∧ callee (pkg f) ce = Some g.
Proof.
  unfold callees_of. destruct (idx !! funcSig) as [f|]; [|inversion 1].
  intros Hg. apply list_elem_of_In, in_flat_map in Hg as (fn & Hfn & Hg).
  destruct (decide (decl_sig (pkg f) fn = Some funcSig)) as [Hsig|]; [|inversion Hg].
  unfold decl_callees in Hg. destruct (Body fn) as [body|] eqn:Hb; [|inversion Hg].
  apply list_elem_of_In, list_elem_of_omap in Hg as (ce & Hce & Hcallee).
  exists f, fn, body, ce. repeat split; auto. by apply list_elem_of_In.
Qed.

Lemma callees_of_intro (idx : gmap N fileAndPkg) (funcSig g : N)
    (f : fileAndPkg) (fn : FuncDecl) (body : BlockStmt) (ce : CallExpr) :
  idx !! funcSig = Some f → fn ∈ Decls (file f) →
  decl_sig (pkg f) fn = Some funcSig → Body fn = Some body →
  ce ∈ Calls body → callee (pkg f) ce = Some g →
  g ∈ callees_of idx funcSig.
Proof.
  intros Hf Hfn Hsig Hbody Hce Hg. unfold callees_of. rewrite Hf.
  apply list_elem_of_In, in_flat_map. exists fn.
  split; [by apply list_elem_of_In|].
  rewrite decide_True by exact Hsig. unfold decl_callees. rewrite Hbody.
  apply list_elem_of_In, list_elem_of_omap. eauto.
Qed.

Lemma followed_calls_body (fn : FuncDecl) (depth : Z) (ce : CallExpr) :
  ce ∈ followed_calls fn depth →
  0 < depth ∧ ∃ body, Body fn = Some body ∧ ce ∈ Calls body.
Proof.
  unfold followed_calls. destruct (depth <=? 0) eqn:Hd; [inversion 1|].
  destruct (Body fn) as [body|]; [|inversion 1].
  intros Hce. split; [lia|eauto].
Qed.

Lemma within_refl (idx : gmap N fileAndPkg) (k : nat) (e : N) :
  within idx k e e.
Proof. exists O. split; [lia|reflexivity]. Qed.

Lemma within_step (idx : gmap N fileAndPkg) (k : nat) (e f g : N) :
  f ∈ callees_of idx e → within idx k f g → within idx (S k) e g.
Proof.
  intros Hf (n & Hn & Hr). exists (S n). split; [lia|]. simpl. eauto.
Qed.

Section DepthBound.

Variable readFile : string → option string.
Variable idx : gmap N fileAndPkg.

(** Every function that an execution of [processFunction] at a [depth]
    other than [int_min] adds to the history is reached from its argument
    by at most [depth - 1] calls. *)
Lemma walk_depth_bound :
  (∀ funcSig depth p p',
     walk readFile funcSig depth p p' → funcToFileAndPkg p = idx →
     depth ≠ int_min →
     ∀ x, x ∈ visited p' →
          x ∈ visited p ∨ within idx (Z.to_nat (depth - 1)) funcSig x)
  ∧ (∀ f funcSig depth decls p p',
       walk_decls readFile f funcSig depth decls p p' →
       funcToFileAndPkg p = idx → idx !! funcSig = Some f →
       (∀ fn, fn ∈ decls → fn ∈ Decls (file f)) →
       depth ≠ int_min →
       ∀ x, x ∈ visited p' →
            x ∈ visited p ∨ within idx (Z.to_nat (depth - 1)) funcSig x)
  ∧ (∀ pkg depth calls p p',
       walk_calls readFile pkg depth calls p p' → funcToFileAndPkg p = idx →
       ∀ x, x ∈ visited p' →
            x ∈ visited p
            ∨ ∃ ce g, ce ∈ calls ∧ callee pkg ce = Some g ∧
                      within idx (Z.to_nat (depth - 1)) g x).
Proof.
  apply walk_mutind.
  - auto.
  - auto.
  - intros funcSig depth p f p' _ Hf _ IH Hidx Hmin x Hx.
    apply IH; auto. by rewrite <- Hidx.
  - auto.
  - intros f funcSig depth fn decls p p' _ _ IH Hidx Hf Hsub Hmin x Hx.
    apply IH; auto. intros; apply Hsub. by right.
  - intros f funcSig depth fn decls funcSrc p p1 p' Hsig _ Hcalls IHc Hrest IHr
      Hidx Hf Hsub Hmin x Hx.
    apply walk_calls_extends in Hcalls as Hext. destruct Hext as (Hidx1 & _).
    simpl in Hidx1.
    destruct (IHr (eq_trans Hidx1 Hidx) Hf
                (λ fn' H, Hsub fn' (list_elem_of_further _ _ _ H)) Hmin x Hx)
      as [Hx1|Hw]; [|by right].
    destruct (IHc Hidx x Hx1) as [Hx0|(ce & g & Hce & Hg & Hw)].
    + unfold visited in Hx0. simpl in Hx0.
      rewrite map_app, elem_of_app in Hx0. destruct Hx0 as [Hx0|Hx0]; [by left|].
      apply list_elem_of_singleton in Hx0. subst x. right. apply within_refl.
    + right. apply followed_calls_body in Hce as (Hpos & body & Hbody & Hce).
      destruct (int_pred_pos depth Hmin Hpos) as [Heq _].
      replace (Z.to_nat (depth - 1))
        with (S (Z.to_nat (int_pred depth - 1))) by lia.
      eapply within_step; [|exact Hw].
      eapply callees_of_intro; eauto. apply Hsub. left.
  - auto.
  - intros pkg depth ce calls p p' _ _ IH Hidx x Hx.
    destruct (IH Hidx x Hx) as [?|(ce' & g & Hce & Hg & Hw)]; [by left|].
    right. exists ce', g. split; [by right|auto].
  - intros pkg depth ce calls funcSig p p1 p' Hpos Hg Hw IHw Hrest IHr Hidx x Hx.
    apply walk_extends in Hw as Hext. destruct Hext as (Hidx1 & _).
    assert (Hmin : depth ≠ int_min) by (pose proof int_min_neg; lia).
    destruct (IHr (eq_trans Hidx1 Hidx) x Hx) as [Hx1|(ce' & g & Hce & Hg' & Hw')].
    + destruct (IHw Hidx Hmin x Hx1) as [?|Hwx]; [by left|].
      right. exists ce, funcSig. split; [left|auto].
    + right. exists ce', g. split; [by right|auto].
Qed.

End DepthBound.

(** ** No function is extracted twice *)

Lemma walk_all_consistent (readFile : string → option string) :
  (∀ funcSig depth p p',
     walk readFile funcSig depth p p' → consistent p → consistent p')
  ∧ (∀ f funcSig depth decls p p',
       walk_decls readFile f funcSig depth decls p p' →
       consistent p → consistent p')
  ∧ (∀ pkg depth calls p p',
       walk_calls readFile pkg depth calls p p' →
       consistent p → consistent p').
Proof.
  apply (walk_preserves readFile (λ p p', consistent p → consistent p'));
    eauto using consistent_record.
Qed.

Lemma omap_cons_Some {A B : Type} (f : A → option B) (x : A) (l : list A)
    (y : B) :
  f x = Some y → omap f (x :: l) = y :: omap f l.
Proof. intros H. simpl. by rewrite H. Qed.

Lemma omap_cons_NoDup {A B : Type} (f : A → option B) (x : A) (l : list A) :
  NoDup (omap f (x :: l)) → NoDup (omap f l).
Proof.
  simpl. destruct (f x); [|auto]. by intros [_ ?]%NoDup_cons.
Qed.

Section NoRepeat.

Variable readFile : string → option string.
Variable idx : gmap N fileAndPkg.
Hypothesis Hunique : unique_decls idx.

Lemma walk_nodup :
  (∀ funcSig depth p p',
     walk readFile funcSig depth p p' → funcToFileAndPkg p = idx →
     consistent p → NoDup (visited p) → NoDup (visited p'))
  ∧ (∀ f funcSig depth decls p p',
       walk_decls readFile f funcSig depth decls p p' →
       funcToFileAndPkg p = idx → consistent p → NoDup (visited p) →
       NoDup (omap (decl_sig (pkg f)) decls) →
       (funcSig ∈ seen p →
        ∀ fn, fn ∈ decls → decl_sig (pkg f) fn ≠ Some funcSig) →
       NoDup (visited p'))
  ∧ (∀ pkg depth calls p p',
       walk_calls readFile pkg depth calls p p' → funcToFileAndPkg p = idx →
       consistent p → NoDup (visited p) → NoDup (visited p')).
Proof.
  destruct (walk_all_consistent readFile) as (Cw & Cd & Cc).
  apply walk_mutind.
  - auto.
  - auto.
  - intros funcSig depth p f p' Hseen Hf _ IH Hidx Hc Hnd.
    apply IH; [done|done|done| |].
    + apply (Hunique funcSig). by rewrite <- Hidx.
    + intros Hin. contradiction.
  - auto.
  - intros f funcSig depth fn decls p p' _ _ IH Hidx Hc Hnd Hdecls Hseen.
    apply IH; [done|done|done| |].
    + by apply omap_cons_NoDup in Hdecls.
    + intros Hin fn' Hfn'. apply Hseen; auto. by right.
  - intros f funcSig depth fn decls funcSrc p p1 p' Hsig _ Hcalls IHc Hrest IHr
      Hidx Hc Hnd Hdecls Hseen.
    assert (Hfresh : funcSig ∉ visited p).
    { intros Hin. apply (consistent_seen p Hc) in Hin.
      apply (Hseen Hin fn); [left|exact Hsig]. }
    assert (Hc0 : consistent (record_function f funcSig funcSrc p))
      by (by apply consistent_record).
    assert (Hnd0 : NoDup (visited (record_function f funcSig funcSrc p))).
    { unfold visited; simpl. rewrite map_app. apply NoDup_app.
      split; [exact Hnd|]. split; [|apply NoDup_singleton].
      intros x Hx Hx'. apply list_elem_of_singleton in Hx'.
      unfold entry_sig_of in Hx'; simpl in Hx'. subst x. contradiction. }
    apply walk_calls_extends in Hcalls as Hext. destruct Hext as (Hidx1 & _).
    simpl in Hidx1.
    apply IHr; [congruence|eauto|eauto| |].
    + by apply omap_cons_NoDup in Hdecls.
    + intros _ fn' Hfn' Hsig'.
      rewrite (omap_cons_Some _ _ _ _ Hsig) in Hdecls.
      apply NoDup_cons in Hdecls as [Hnotin _]. apply Hnotin.
      apply list_elem_of_omap. eauto.
  - auto.
  - auto.
  - intros pkg depth ce calls funcSig p p1 p' _ _ Hw IHw Hrest IHr Hidx Hc Hnd.
    apply walk_extends in Hw as Hext. destruct Hext as (Hidx1 & _).
    apply IHr; eauto. congruence.
Qed.

End NoRepeat.

(** ** What an execution records *)

Section Records.

Variable readFile : string → option string.

(** The loop over the declarations records the function as soon as a
    declaration carries its signature. *)
Lemma walk_decls_records (f : fileAndPkg) (funcSig : N) (depth : Z)
    (decls : list FuncDecl) (p p' : parser) :
  walk_decls readFile f funcSig depth decls p p' →
  (∃ fn, fn ∈ decls ∧ decl_sig (pkg f) fn = Some funcSig) →
  ∃ fn funcSrc,
    fn ∈ decls ∧ decl_sig (pkg f) fn = Some funcSig ∧
    extractSourceCode readFile (Fset (pkg f)) (file f) fn = Ok (funcSrc, None) ∧
    extends (record_function f funcSig funcSrc p) p'.
Proof.
  induction 1 as [| f funcSig depth fn decls p p' Hne Hrest IH
                  | f funcSig depth fn decls funcSrc p p1 p' Hsig Hx Hcalls Hrest IH].
  - intros (fn & Hin & _). inversion Hin.
  - intros (fn' & Hin & Hsig'). apply elem_of_cons in Hin as [->|Hin]; [done|].
    destruct IH as (fn0 & src & Hin0 & ? & ? & ?); [eauto|].
    exists fn0, src. split; [by right|auto].
  - intros _. exists fn, funcSrc. split; [left|]. split; [exact Hsig|].
    split; [exact Hx|].
    eapply extends_trans; [eapply walk_calls_extends|eapply walk_decls_extends];
      eauto.
Qed.

Lemma walk_marks_seen (funcSig : N) (depth : Z) (p p' : parser)
    (f : fileAndPkg) :
  walk readFile funcSig depth p p' →
  funcToFileAndPkg p !! funcSig = Some f →
  (∃ fn, fn ∈ Decls (file f) ∧ decl_sig (pkg f) fn = Some funcSig) →
  funcSig ∈ seen p'.
Proof.
  intros Hw Hf Hfn. inversion Hw as [| |? ? ? f' ? Hns Hf' Hd].
  - by subst p'.
  - congruence.
  - subst. rewrite Hf in Hf'. injection Hf' as <-.
    destruct (walk_decls_records _ _ _ _ _ _ Hd Hfn)
      as (fn & src & _ & _ & _ & (_ & _ & _ & Hseen)).
    apply Hseen. simpl. apply elem_of_union. left. by apply elem_of_singleton.
Qed.

(** The visit of an indexed function that is not yet seen records it. *)
Lemma walk_records_function (funcSig : N) (depth : Z) (p p' : parser)
    (f : fileAndPkg) :
  walk readFile funcSig depth p p' →
  funcSig ∉ seen p →
  funcToFileAndPkg p !! funcSig = Some f →
  (∃ fn, fn ∈ Decls (file f) ∧ decl_sig (pkg f) fn = Some funcSig) →
  ∃ fn funcSrc,
    fn ∈ Decls (file f) ∧ decl_sig (pkg f) fn = Some funcSig ∧
    extractSourceCode readFile (Fset (pkg f)) (file f) fn = Ok (funcSrc, None) ∧
    extends (record_function f funcSig funcSrc p) p'.
Proof.
  intros Hw Hns Hf Hfn. inversion Hw as [? ? ? Hseen| |? ? ? f' ? _ Hf' Hd].
  - subst. contradiction.
  - congruence.
  - subst. rewrite Hf in Hf'. injection Hf' as <-.
    eapply walk_decls_records; eauto.
Qed.

Lemma walk_calls_marks (pkg0 : Package) (depth : Z) (calls : list CallExpr)
    (p p' : parser) (ce : CallExpr) (g : N) (fg : fileAndPkg) :
  walk_calls readFile pkg0 depth calls p p' →
  ce ∈ calls → callee pkg0 ce = Some g →
  funcToFileAndPkg p !! g = Some fg →
  (∃ fn, fn ∈ Decls (file fg) ∧ decl_sig (pkg fg) fn = Some g) →
  g ∈ seen p'.
Proof.
  induction 1 as [| pkg0 depth ce0 calls p p' Hnone Hrest IH
                  | pkg0 depth ce0 calls g0 p p1 p' Hpos Hg0 Hw Hrest IH];
    intros Hin Hg Hfg Hfn.
  - inversion Hin.
  - apply elem_of_cons in Hin as [->|Hin]; [congruence|]. by apply IH.
  - apply walk_extends in Hw as Hext.
    apply walk_calls_extends in Hrest as Hext'.
    apply elem_of_cons in Hin as [->|Hin].
    + rewrite Hg in Hg0. injection Hg0 as <-.
      destruct Hext' as (_ & _ & _ & Hseen). apply Hseen.
      eapply walk_marks_seen; eauto.
    + apply IH; auto. destruct Hext as (-> & _). exact Hfg.
Qed.

(** The calls in the body of every declaration that carries the signature
    are followed, when depth remains. *)
Lemma walk_decls_marks_callee (f : fileAndPkg) (funcSig : N) (depth : Z)
    (decls : list FuncDecl) (p p' : parser) (fn : FuncDecl) (ce : CallExpr)
    (g : N) (fg : fileAndPkg) :
  walk_decls readFile f funcSig depth decls p p' →
  fn ∈ decls → decl_sig (pkg f) fn = Some funcSig →
  ce ∈ followed_calls fn (int_pred depth) → callee (pkg f) ce = Some g →
  funcToFileAndPkg p !! g = Some fg →
  (∃ fn, fn ∈ Decls (file fg) ∧ decl_sig (pkg fg) fn = Some g) →
  g ∈ seen p'.
Proof.
  induction 1 as [| f funcSig depth fn0 decls p p' Hne Hrest IH
                  | f funcSig depth fn0 decls funcSrc p p1 p' Hsig Hx Hcalls Hrest IH];
    intros Hin Hsig' Hce Hg Hfg Hfn.
  - inversion Hin.
  - apply elem_of_cons in Hin as [->|Hin]; [done|]. by apply IH.
  - apply walk_calls_extends in Hcalls as Hext.
    apply walk_decls_extends in Hrest as Hext'.
    apply elem_of_cons in Hin as [->|Hin].
    + destruct Hext' as (_ & _ & _ & Hseen). apply Hseen.
      eapply walk_calls_marks; eauto.
    + apply IH; auto. destruct Hext as (-> & _). exact Hfg.
Qed.

End Records.

(** ** The walker returns *)

Lemma foldM_total {A B : Type} (I : B → Prop) (f : B → A → result B)
    (l : list A) (b : B) :
  (∀ b x, x ∈ l → I b → ∃ b', f b x = Ok b' ∧ I b') →
  I b → ∃ b', foldM f l b = Ok b' ∧ I b'.
Proof.
  revert b; induction l as [|x l IH]; intros b Hf Hb; simpl; [eauto|].
  destruct (Hf b x) as (b1 & -> & Hb1); [left|exact Hb|]. simpl.
  apply IH; auto. intros b0 y Hy. apply Hf. by right.
Qed.

Section Returns.

Variable readFile : string → option string.
Variable idx : gmap N fileAndPkg.
Hypothesis Hsliceable : sliceable readFile idx.

(** With enough fuel, a depth other than [int_min] and an index on which
    slicing cannot fail, [processFunction] returns a parser. *)
Lemma processFunction_returns (fuel : nat) (funcSig : N) (depth : Z)
    (p : parser) :
  (fuel_of depth ≤ fuel)%nat → depth ≠ int_min →
  funcToFileAndPkg p = idx →
  ∃ p', processFunction readFile fuel funcSig depth p = Ok p'.
Proof.
  revert funcSig depth p. induction fuel as [|fuel IH];
    intros funcSig depth p Hfuel Hmin Hidx; [unfold fuel_of in Hfuel; lia|].
  simpl. case_bool_decide; [eauto|].
  destruct (funcToFileAndPkg p !! funcSig) as [f|] eqn:Hf; [|eauto].
  rewrite Hidx in Hf.
  destruct (foldM_total (λ p, funcToFileAndPkg p = idx)
              (visit_decl readFile (processFunction readFile fuel) f funcSig depth)
              (Decls (file f)) p) as (p' & Hp' & _); [|exact Hidx|eauto].
  intros p0 fn Hfn Hidx0. unfold visit_decl.
  destruct (Hsliceable funcSig f fn Hf Hfn) as (Hobj & Hslice).
  destruct (Name fn) as [name|] eqn:Hn; [|eauto].
  destruct (Hobj name eq_refl) as [obj Ho]. rewrite Ho.
  destruct (objType obj) as [sig|] eqn:Ht; [|eauto].
  destruct (sig =? funcSig)%N eqn:Hs; simpl; [|eauto].
  apply N.eqb_eq in Hs. subst sig.
  destruct Hslice as (funcSrc & ->).
  { unfold decl_sig. rewrite Hn; simpl. rewrite Ho; simpl. by rewrite Ht. }
  simpl. unfold processUnderlyingFunctions.
  assert (Hrec : funcToFileAndPkg (record_function f funcSig funcSrc p0) = idx)
    by exact Hidx0.
  destruct (int_pred depth <=? 0) eqn:Hd; [eauto|].
  destruct (Body fn) as [body|]; [|eauto].
  apply foldM_total; [|exact Hrec].
  intros p1 ce _ Hidx1.
  destruct (callee (pkg f) ce) as [g|]; [|eauto].
  destruct (int_pred_pos depth Hmin) as [Heq Hmin']; [lia|].
  destruct (IH g (int_pred depth) p1) as (p2 & Hp2);
    [rewrite Heq; unfold fuel_of in *; lia|exact Hmin'|exact Hidx1|].
  exists p2. split; [exact Hp2|].
  apply processFunction_walk, walk_extends in Hp2 as (-> & _). exact Hidx1.
Qed.

End Returns.

(** ** Reachability is computable *)

Lemma reach_list_spec (idx : gmap N fileAndPkg) (n : nat) (e g : N) :
  reach idx n e g ↔ g ∈ reach_list idx n e.
Proof.
  revert e; induction n as [|n IH]; intros e; simpl.
  - rewrite list_elem_of_singleton. split; congruence.
  - rewrite list_elem_of_In, in_flat_map. split.
    + intros (f & Hf & Hr). exists f. split; [by apply list_elem_of_In|].
      apply list_elem_of_In, IH, Hr.
    + intros (f & Hf & Hr). exists f. split; [by apply list_elem_of_In|].
      apply IH, list_elem_of_In, Hr.
Qed.

Lemma distance_intro (idx : gmap N fileAndPkg) (e g : N) (n : nat) :
  g ∈ reach_list idx n e →
  Forall (λ m, g ∉ reach_list idx m e) (seq 0 n) →
  distance idx e g n.
Proof.
  intros Hn Hlt. split; [by apply reach_list_spec|].
  intros m Hm Hr. apply reach_list_spec in Hr.
  rewrite Forall_forall in Hlt. apply (Hlt m); [|exact Hr].
  apply elem_of_seq. lia.
Qed.

Lemma within_distance (idx : gmap N fileAndPkg) (k n : nat) (e g : N) :
  within idx k e g → distance idx e g n → (n ≤ k)%nat.
Proof.
  intros (m & Hm & Hr) (_ & Hmin).
  destruct (decide (n ≤ m)%nat) as [|Hlt]; [lia|].
  exfalso. apply (Hmin m); [lia|exact Hr].
Qed.

(** ** Where the history takes its text from *)

Section Provenance.

Variable readFile : string → option string.
Variable idx : gmap N fileAndPkg.

Lemma walk_sourced :
  (∀ funcSig depth p p',
     walk readFile funcSig depth p p' → funcToFileAndPkg p = idx →
     sourced readFile idx p → sourced readFile idx p')
  ∧ (∀ f funcSig depth decls p p',
       walk_decls readFile f funcSig depth decls p p' →
       funcToFileAndPkg p = idx → idx !! funcSig = Some f →
       (∀ fn, fn ∈ decls → fn ∈ Decls (file f)) →
       sourced readFile idx p → sourced readFile idx p')
  ∧ (∀ pkg depth calls p p',
       walk_calls readFile pkg depth calls p p' → funcToFileAndPkg p = idx →
       sourced readFile idx p → sourced readFile idx p').
Proof.
  apply walk_mutind.
  - auto.
  - auto.
  - intros funcSig depth p f p' _ Hf _ IH Hidx Hsrc.
    apply IH; auto. by rewrite <- Hidx.
  - auto.
  - intros f funcSig depth fn decls p p' _ _ IH Hidx Hf Hsub Hsrc.
    apply IH; auto. intros fn' Hfn'. apply Hsub. by right.
  - intros f funcSig depth fn decls funcSrc p p1 p' Hsig Hx Hcalls IHc _ IHr
      Hidx Hf Hsub Hsrc.
    apply (walk_calls_extends readFile) in Hcalls as (Hidx1 & _).
    simpl in Hidx1.
    apply IHr; [congruence|exact Hf| |].
    + intros fn' Hfn'. apply Hsub. by right.
    + apply IHc; [exact Hidx|].
      intros en Hen. simpl in Hen. apply elem_of_app in Hen as [Hen|Hen].
      * by apply Hsrc.
      * apply list_elem_of_singleton in Hen. subst en. exists f, fn.
        repeat split; auto. apply Hsub. left.
  - auto.
  - auto.
  - intros pkg depth ce calls funcSig p p1 p' _ _ Hw IHw _ IHr Hidx Hsrc.
    apply (walk_extends readFile) in Hw as (Hidx1 & _).
    apply IHr; [congruence|]. by apply IHw.
Qed.

End Provenance.

(** ** The document, block by block *)

Lemma concat_cons2 (sep x y : string) (l : list string) :
  String.concat sep (x :: y :: l) = x +:+ sep +:+ String.concat sep (y :: l).
Proof. reflexivity. Qed.

Lemma block_header (p : parser) (codeOnly : bool) (pkg : Package) :
  block p codeOnly true pkg =
    (formatPkg (pkgName pkg) codeOnly +:+ LF)
    +:+ formatFunctions (functions_at p pkg) codeOnly.
Proof. reflexivity. Qed.

Lemma block_no_header (p : parser) (codeOnly : bool) (pkg : Package) :
  block p codeOnly false pkg = formatFunctions (functions_at p pkg) codeOnly.
Proof. reflexivity. Qed.

(** The loop of [toString] from an index where every package gets its
    header. *)
Lemma toString_loop_headers (p : parser) (excludeRoot codeOnly : bool)
    (pkgs : list Package) (result : string) (k : Z) :
  (2 ≤ k ∨ (1 ≤ k ∧ excludeRoot = false)) →
  k + Z.of_nat (length pkgs) = Z.of_nat (length (pkgOrder p)) →
  toString_loop p excludeRoot codeOnly result k pkgs =
    result +:+ String.concat (LF +:+ LF) (map (block p codeOnly true) pkgs).
Proof.
  revert result k. induction pkgs as [|pkg pkgs IH]; intros result k Hk Hlen.
  - simpl. by rewrite append_nil_r.
  - cbn [toString_loop]. rewrite IH; [|lia|simpl in Hlen; lia].
    unfold toString_body.
    replace ((k =? 0) && excludeRoot) with false
      by (symmetry; apply andb_false_iff; left; lia).
    assert (Hhdr : (k >? 1) || (k =? 1) && negb excludeRoot = true).
    { destruct Hk as [Hk|[Hk ->]]; [apply orb_true_iff; left; lia|].
      destruct (k >? 1) eqn:E1; [reflexivity|]. simpl. lia. }
    rewrite Hhdr.
    simpl in Hlen. destruct pkgs as [|pkg' pkgs].
    + replace (k <? Z.of_nat (length (pkgOrder p)) - 1) with false
        by (simpl in Hlen; lia).
      simpl. unfold block. by rewrite append_nil_r, !append_assoc.
    + replace (k <? Z.of_nat (length (pkgOrder p)) - 1) with true
        by (simpl in Hlen; lia).
      cbn [map]. rewrite concat_cons2, (block_header p codeOnly pkg).
      by rewrite !append_assoc.
Qed.

Lemma blocks_set_pkgOrder (p : parser) (codeOnly : bool)
    (pkgs pkgs' : list Package) :
  blocks (set_pkgOrder p pkgs') codeOnly pkgs = blocks p codeOnly pkgs.
Proof. reflexivity. Qed.

Lemma toString_false_blocks (p : parser) (codeOnly : bool) :
  toString p false codeOnly =
    String.concat (LF +:+ LF) (blocks p codeOnly (pkgOrder p)).
Proof.
  unfold toString. destruct (pkgOrder p) as [|P0 pkgs] eqn:Hord; [reflexivity|].
  cbn [toString_loop].
  rewrite (toString_loop_headers p false codeOnly pkgs _ 1);
    [|right; split; [lia|reflexivity]|rewrite Hord; cbn [length]; lia].
  unfold toString_body. rewrite Hord. cbn [blocks].
  change ((0 =? 0) && false) with false. cbv iota.
  change ((0 >? 1) || (0 =? 1) && negb false) with false. cbv iota zeta.
  rewrite append_nil_l.
  destruct pkgs as [|P1 pkgs].
  - simpl. unfold block. by rewrite append_nil_r.
  - replace (0 <? Z.of_nat (length (P0 :: P1 :: pkgs)) - 1) with true
      by (symmetry; apply Z.ltb_lt; cbn [length]; lia).
    cbn [map]. rewrite concat_cons2, (block_no_header p codeOnly P0).
    by rewrite !append_assoc.
Qed.

Lemma toString_true_blocks (p : parser) (codeOnly : bool) :
  toString p true codeOnly =
    String.concat (LF +:+ LF) (blocks p codeOnly (tail (pkgOrder p))).
Proof.
  unfold toString. destruct (pkgOrder p) as [|P0 pkgs] eqn:Hord; [reflexivity|].
  cbn [toString_loop tail].
  change (toString_body p true codeOnly "" 0 P0) with "".
  destruct pkgs as [|P1 pkgs]; [reflexivity|].
  cbn [toString_loop].
  rewrite (toString_loop_headers p true codeOnly pkgs _ (0 + 1 + 1));
    [|left; lia|rewrite Hord; cbn [length]; lia].
  unfold toString_body. rewrite Hord. cbn [blocks].
  change ((0 + 1 =? 0) && true) with false. cbv iota.
  change ((0 + 1 >? 1) || (0 + 1 =? 1) && negb true) with false. cbv iota zeta.
  rewrite append_nil_l.
  destruct pkgs as [|P2 pkgs].
  - replace (0 + 1 <? Z.of_nat (length [P0; P1]) - 1) with false
      by (symmetry; apply Z.ltb_ge; cbn [length]; lia).
    simpl. unfold block. by rewrite append_nil_r.
  - replace (0 + 1 <? Z.of_nat (length (P0 :: P1 :: P2 :: pkgs)) - 1) with true
      by (symmetry; apply Z.ltb_lt; cbn [length]; lia).
    cbn [map]. rewrite concat_cons2, (block_no_header p codeOnly P1).
    by rewrite !append_assoc.
Qed.

(** ** What the document contains *)

Lemma contains_refl (s : string) : contains s s.
Proof. exists "", "". by rewrite append_nil_l, append_nil_r. Qed.

Lemma contains_trans (s t x : string) :
  contains s t → contains t x → contains s x.
Proof.
  intros (pre & post & ->) (pre' & post' & ->).
  exists (pre +:+ pre'), (post' +:+ post). by rewrite !append_assoc.
Qed.

Lemma contains_app_l (s t x : string) : contains s x → contains (s +:+ t) x.
Proof.
  intros (pre & post & ->). exists pre, (post +:+ t).
  by rewrite !append_assoc.
Qed.

Lemma contains_app_r (s t x : string) : contains t x → contains (s +:+ t) x.
Proof.
  intros (pre & post & ->). exists (s +:+ pre), post.
  by rewrite !append_assoc.
Qed.

Lemma contains_join (l : list string) (s : string) :
  s ∈ l → contains (join l) s.
Proof.
  induction l as [|y l IH]; [inversion 1|].
  intros [->|Hin]%elem_of_cons; simpl.
  - apply contains_app_l, contains_refl.
  - by apply contains_app_r, IH.
Qed.

Lemma contains_concat (sep : string) (l : list string) (s : string) :
  s ∈ l → contains (String.concat sep l) s.
Proof.
  induction l as [|y l IH]; [inversion 1|].
  destruct l as [|z l].
  - intros ->%list_elem_of_singleton. apply contains_refl.
  - rewrite concat_cons2. intros [->|Hin]%elem_of_cons.
    + apply contains_app_l, contains_refl.
    + by apply contains_app_r, contains_app_r, IH.
Qed.

Lemma contains_block (p : parser) (codeOnly header : bool) (pkg : Package) :
  contains (block p codeOnly header pkg) (functions_at p pkg).
Proof.
  unfold block, formatFunctions. apply contains_app_r.
  destruct codeOnly; [apply contains_refl|].
  apply contains_app_r, contains_app_l, contains_refl.
Qed.

Lemma contains_blocks (p : parser) (codeOnly : bool) (pkgs : list Package)
    (pkg : Package) :
  pkg ∈ pkgs →
  contains (String.concat (LF +:+ LF) (blocks p codeOnly pkgs))
           (functions_at p pkg).
Proof.
  intros Hin.
  assert (Hb : ∃ header, block p codeOnly header pkg ∈ blocks p codeOnly pkgs).
  { destruct pkgs as [|P0 pkgs]; [inversion Hin|].
    apply elem_of_cons in Hin as [->|Hin].
    - exists false. left.
    - exists true. right. by apply list_elem_of_fmap_2. }
  destruct Hb as [header Hb].
  eapply contains_trans; [by apply contains_concat|apply contains_block].
Qed.

Lemma contains_text_of (log : list (N * N * string)) (en : N * N * string) :
  en ∈ log → contains (text_of (entry_pkg en) log) (entry_src en).
Proof.
  intros Hin. unfold text_of.
  eapply contains_trans.
  - apply contains_join.
    apply (list_elem_of_fmap_2 (λ e, LF +:+ entry_src e)).
    unfold chunks. apply list_elem_of_filter. split; [reflexivity|exact Hin].
  - apply contains_app_r, contains_refl.
Qed.

(** ** The depth budget *)

Lemma visited_entry (p : parser) (x : N) :
  x ∈ visited p → ∃ a src, (a, x, src) ∈ extracted p.
Proof.
  unfold visited. intros ([[a s] src] & -> & Hen)%list_elem_of_fmap.
  by exists a, src.
Qed.

(** In a consistent parser the text of every entry of the history occurs in
    the document, and with [excludeRoot] when the entry is filed under a
    package other than the first. *)
Lemma consistent_contains (p : parser) (codeOnly : bool) (a sig : N)
    (src : string) :
  consistent p → (a, sig, src) ∈ extracted p →
  contains (toString p false codeOnly) src
  ∧ (Some a ≠ pkgAddr <$> head (pkgOrder p) →
     contains (toString p true codeOnly) src).
Proof.
  intros Hc Hen.
  assert (Hpkg : ∃ pkg, pkg ∈ pkgOrder p ∧ pkgAddr pkg = a).
  { assert (Ha : a ∈ map pkgAddr (pkgOrder p)).
    { apply (consistent_order p Hc). rewrite (consistent_functions p Hc).
      destruct (decide (chunks a (extracted p) = [])) as [Hnil|]; [|eauto].
      exfalso.
      assert (Hin : (a, sig, src) ∈ chunks a (extracted p))
        by (apply list_elem_of_filter; split; [reflexivity|exact Hen]).
      rewrite Hnil in Hin. inversion Hin. }
    apply list_elem_of_fmap in Ha as (pkg & -> & Hpkg). eauto. }
  destruct Hpkg as (pkg & Hpkg & <-).
  assert (Htext : contains (functions_at p pkg) src).
  { rewrite functions_at_text by exact Hc.
    apply (contains_text_of (extracted p) (pkgAddr pkg, sig, src) Hen). }
  split.
  - rewrite toString_false_blocks.
    eapply contains_trans; [by apply contains_blocks|exact Htext].
  - intros Hne. rewrite toString_true_blocks.
    eapply contains_trans; [apply contains_blocks|exact Htext].
    destruct (pkgOrder p) as [|P0 pkgs]; [inversion Hpkg|].
    apply elem_of_cons in Hpkg as [->|Hpkg]; [|exact Hpkg].
    by destruct Hne.
Qed.

(** ** Chains of calls are followed *)

Lemma is_call_chain_sound (idx : gmap N fileAndPkg) (e : N) (chain : list N) :
  is_call_chain idx e chain = true → call_chain idx e chain.
Proof.
  unfold is_call_chain. rewrite !andb_true_iff, !forallb_forall.
  intros ((((Hh & Hn) & Hc) & Hs) & Ho).
  apply bool_decide_eq_true in Hh, Hn.
  split; [exact Hh|exact Hn| | |].
  - intros i u v Hu Hv.
    assert (Hi : In i (seq 0 (length chain))).
    { apply in_seq. apply lookup_lt_Some in Hu. lia. }
    specialize (Hs i Hi). rewrite Hu, Hv in Hs.
    by apply bool_decide_eq_true in Hs.
  - intros i v u Hv Hcal.
    destruct (callees_of_elim idx u v Hcal) as (f & _ & _ & _ & Hf & _).
    apply elem_of_map_to_list, list_elem_of_In in Hf.
    specialize (Ho _ Hf). simpl in Ho. rewrite forallb_forall in Ho.
    assert (Hi : In i (seq 0 (length chain))).
    { apply in_seq. apply lookup_lt_Some in Hv. lia. }
    specialize (Ho i Hi). rewrite Hv in Ho.
    rewrite bool_decide_eq_true_2 in Ho by exact Hcal.
    apply existsb_exists in Ho as (j & _ & Hj).
    apply andb_true_iff in Hj as [Hle Hj].
    exists j. split; [by apply bool_decide_eq_true in Hj|by apply Nat.leb_le].
  - intros v Hv. apply list_elem_of_In in Hv. specialize (Hc v Hv).
    unfold carried_b in Hc.
    destruct (idx !! v) as [f|] eqn:Hf; [|discriminate].
    exists f. split; [exact Hf|].
    apply existsb_exists in Hc as (fn & Hfn & Hsig). exists fn.
    split; [by apply list_elem_of_In|by apply bool_decide_eq_true in Hsig].
Qed.

Lemma aligned_mono (chain : list N) (budget : Z) (g : N) (depth : Z)
    (p p' : parser) :
  seen p ⊆ seen p' → aligned chain budget g depth p →
  aligned chain budget g depth p'.
Proof.
  intros Hsub Hal j Hj. destruct (Hal j Hj) as [Hs|[Hd Hp]]; [left; auto|].
  right. split; [exact Hd|]. intros k w Hk Hw. apply Hsub. eapply Hp; eauto.
Qed.

Lemma seen_record (f : fileAndPkg) (funcSig : N) (funcSrc : string)
    (p : parser) (x : N) :
  x ∈ seen (record_function f funcSig funcSrc p) ↔ x = funcSig ∨ x ∈ seen p.
Proof. simpl. by rewrite elem_of_union, elem_of_singleton. Qed.

Section Chain.

Variable readFile : string → option string.
Variable idx : gmap N fileAndPkg.
Variable e : N.
Variable chain : list N.
Variable budget : Z.
Hypothesis Hchain : call_chain idx e chain.
Hypothesis Hlen : Z.of_nat (length chain) ≤ budget.

(** Along a chain, every execution keeps [chain_inv]. *)
Lemma chain_walk :
  (∀ funcSig depth p p',
     walk readFile funcSig depth p p' → funcToFileAndPkg p = idx →
     e ∈ seen p ∨ funcSig = e →
     aligned chain budget funcSig depth p →
     ∀ Pend, chain_inv chain p Pend → chain_inv chain p' Pend)
  ∧ (∀ f funcSig depth decls p p',
       walk_decls readFile f funcSig depth decls p p' →
       funcToFileAndPkg p = idx → idx !! funcSig = Some f →
       (∀ fn, fn ∈ decls → fn ∈ Decls (file f)) →
       e ∈ seen p ∨ funcSig = e →
       (∀ j, chain !! j = Some funcSig →
             depth = budget - Z.of_nat j ∧ prefix_seen chain p j) →
       ∀ Pend : N → Prop, Pend funcSig →
         chain_inv chain p Pend → chain_inv chain p' Pend)
  ∧ (∀ pkg depth calls p p',
       walk_calls readFile pkg depth calls p p' → funcToFileAndPkg p = idx →
       e ∈ seen p →
       (∀ ce g, ce ∈ calls → callee pkg ce = Some g →
                aligned chain budget g depth p) →
       ∀ Pend, chain_inv chain p Pend → chain_inv chain p' Pend).
Proof.
  apply walk_mutind.
  - auto.
  - auto.
  - intros funcSig depth p f p' Hns Hf Hd IHd Hidx He Hal Pend HInv.
    assert (Hal' : ∀ j, chain !! j = Some funcSig →
                        depth = budget - Z.of_nat j ∧ prefix_seen chain p j).
    { intros j Hj. destruct (Hal j Hj) as [?|?]; [contradiction|done]. }
    rewrite Hidx in Hf.
    assert (HInv' : chain_inv chain p (λ u, Pend u ∨ u = funcSig)).
    { intros i u v Hu Hv Hs. destruct (HInv i u v Hu Hv Hs); auto. }
    specialize (IHd Hidx Hf (λ fn H, H) He Hal' (λ u, Pend u ∨ u = funcSig)
                    (or_intror eq_refl) HInv').
    intros i u v Hu Hv Hs.
    destruct (IHd i u v Hu Hv Hs) as [[HP| ->]|Hv']; auto.
    right. destruct (Hal' i Hu) as [Hdepth _].
    pose proof (chain_step _ _ _ Hchain i funcSig v Hu Hv) as Hcal.
    apply callees_of_elim in Hcal
      as (f0 & fn & body & ce & Hf0 & Hfn & Hsig & Hbody & Hce & Hcallee).
    assert (f0 = f) as -> by congruence.
    destruct (chain_carried _ _ _ Hchain v) as (fg & Hfg & Hcar).
    { eapply list_elem_of_lookup_2; eauto. }
    apply lookup_lt_Some in Hv.
    assert (Hmin : depth ≠ int_min) by (pose proof int_min_neg; lia).
    eapply (walk_decls_marks_callee readFile f funcSig depth (Decls (file f))
              p p' fn ce v fg); eauto.
    + unfold followed_calls. rewrite (int_pred_eq _ Hmin), Hbody.
      replace (depth - 1 <=? 0) with false by lia. exact Hce.
    + by rewrite Hidx.
  - auto.
  - intros f funcSig depth fn decls p p' Hne Hrest IH Hidx Hf Hsub He Hal
      Pend HP HInv.
    apply IH; auto. intros; apply Hsub. by right.
  - intros f funcSig depth fn decls funcSrc p p1 p' Hsig Hx Hcalls IHc Hrest IHr
      Hidx Hf Hsub He Hal Pend HP HInv.
    assert (Hsub0 : ∀ x, x ∈ seen p →
                         x ∈ seen (record_function f funcSig funcSrc p)).
    { intros x Hx0. apply seen_record. by right. }
    assert (Hself : funcSig ∈ seen (record_function f funcSig funcSrc p)).
    { apply seen_record. by left. }
    assert (Hinv0 : chain_inv chain (record_function f funcSig funcSrc p) Pend).
    { intros i u v Hu Hv Hs. apply seen_record in Hs as [->|Hs]; [by left|].
      destruct (HInv i u v Hu Hv Hs) as [?|?]; [by left|right; auto]. }
    assert (He0 : e ∈ seen (record_function f funcSig funcSrc p)).
    { destruct He as [He| ->]; auto. }
    assert (HQ : ∀ ce g, ce ∈ followed_calls fn (int_pred depth) →
                         callee (pkg f) ce = Some g →
                         aligned chain budget g (int_pred depth)
                                 (record_function f funcSig funcSrc p)).
    { intros ce g Hce Hg i Hi.
      apply followed_calls_body in Hce as (Hpos & body & Hbody & Hce).
      assert (Hcal : g ∈ callees_of idx funcSig).
      { eapply callees_of_intro; eauto. apply Hsub. left. }
      destruct i as [|i].
      - left. pose proof (chain_head _ _ _ Hchain) as Hh.
        rewrite head_lookup in Hh. rewrite Hh in Hi. by injection Hi as <-.
      - destruct (chain_only _ _ _ Hchain i g funcSig Hi Hcal)
          as (j & Hj & Hle).
        destruct (Hal j Hj) as [Hdepth Hpre].
        destruct (decide (j = i)) as [->|Hne].
        + right. apply lookup_lt_Some in Hi.
          assert (Hmin : depth ≠ int_min) by (pose proof int_min_neg; lia).
          rewrite (int_pred_eq _ Hmin). split; [lia|].
          intros k w Hk Hw. destruct (decide (k = i)) as [->|Hki].
          * assert (w = funcSig) as -> by congruence. exact Hself.
          * apply Hsub0. eapply Hpre; [|exact Hw]. lia.
        + left. destruct (decide (S i = j)) as [<-|Hne'].
          * assert (g = funcSig) as -> by congruence. exact Hself.
          * apply Hsub0. eapply (Hpre (S i)); [lia|exact Hi]. }
    specialize (IHc Hidx He0 HQ Pend Hinv0).
    apply (walk_calls_extends readFile) in Hcalls as (Hidx1 & _ & _ & Hs1).
    simpl in Hidx1.
    apply IHr; [congruence|exact Hf| | | |exact HP|exact IHc].
    + intros fn' H'. apply Hsub. by right.
    + destruct He as [He|He]; [left; apply Hs1, Hsub0, He|by right].
    + intros j Hj. destruct (Hal j Hj) as [Hd Hp]. split; [exact Hd|].
      intros k w Hk Hw. apply Hs1, Hsub0. eapply Hp; eauto.
  - auto.
  - intros pkg depth ce calls p p' Hnone Hrest IH Hidx He HQ Pend HInv.
    apply IH; auto. intros ce' g Hce'. apply HQ. by right.
  - intros pkg depth ce calls g p p1 p' Hpos Hg Hw IHw Hrest IHr Hidx He HQ
      Pend HInv.
    apply (walk_extends readFile) in Hw as Hext.
    destruct Hext as (Hidx1 & _ & _ & Hs1).
    apply IHr.
    + congruence.
    + by apply Hs1.
    + intros ce' g' Hce' Hg'. eapply aligned_mono; [exact Hs1|].
      apply (HQ ce'); [by right|exact Hg'].
    + apply IHw; auto. apply (HQ ce); [left|exact Hg].
Qed.

(** The traversal from the head of a chain that the budget covers sees
    every function of the chain. *)
Lemma chain_seen (fuel : nat) (p' : parser) :
  processFunction readFile fuel e budget (newParser idx) = Ok p' →
  ∀ v, v ∈ chain → v ∈ seen p'.
Proof.
  intros Hw%processFunction_walk.
  destruct chain_walk as (Hwk & _ & _).
  pose proof (chain_head _ _ _ Hchain) as Hh. rewrite head_lookup in Hh.
  assert (HInv : chain_inv chain p' (λ _, False)).
  { apply (Hwk _ _ _ _ Hw eq_refl); [by right| |].
    - intros j Hj. right.
      assert (j = 0%nat) as ->
        by (eapply NoDup_lookup; eauto using chain_nodup).
      split; [lia|]. intros k w Hk. lia.
    - intros i u v _ _ Hs. simpl in Hs. by apply not_elem_of_empty in Hs. }
  assert (He : e ∈ seen p').
  { destruct (chain_carried _ _ _ Hchain e) as (f & Hf & Hcar).
    { eapply list_elem_of_lookup_2; eauto. }
    eapply (walk_marks_seen readFile); eauto. }
  assert (Hall : ∀ i v, chain !! i = Some v → v ∈ seen p').
  { induction i as [|i IH]; intros v Hv.
    - assert (v = e) as -> by congruence. exact He.
    - destruct (lookup_lt_is_Some_2 chain i) as [u Hu];
        [apply lookup_lt_Some in Hv; lia|].
      destruct (HInv i u v Hu Hv (IH u Hu)) as [[]|?]; done. }
  intros v Hv. apply list_elem_of_lookup in Hv as [i Hi]. eauto.
Qed.

End Chain.




(** At the least integer the predecessor of the depth wraps around to the
    greatest, and the depth bounds nothing: the traversal of the example
    module extracts [G2], five calls from [e]. *)
Example depth_wraps_at_int_min :
  int_pred int_min = int_max
  ∧ processFunction fixtures.m_files 8 fixtures.sig_e int_min
      (newParser fixtures.m_index) = Ok (fixtures.m_run 6)
  ∧ fixtures.sig_G2 ∈ visited (fixtures.m_run 6).
Proof.
  split; [reflexivity|]. split; [vm_compute; reflexivity|].
  apply (bool_decide_unpack _). vm_compute. reflexivity.
Qed.

(** ** Where the history files a function *)

Section Filing.

Variable readFile : string → option string.
Variable idx : gmap N fileAndPkg.

Lemma walk_filed :
  (∀ funcSig depth p p',
     walk readFile funcSig depth p p' → funcToFileAndPkg p = idx →
     filed_by_index idx p → filed_by_index idx p')
  ∧ (∀ f funcSig depth decls p p',
       walk_decls readFile f funcSig depth decls p p' →
       funcToFileAndPkg p = idx → idx !! funcSig = Some f →
       filed_by_index idx p → filed_by_index idx p')
  ∧ (∀ pkg depth calls p p',
       walk_calls readFile pkg depth calls p p' → funcToFileAndPkg p = idx →
       filed_by_index idx p → filed_by_index idx p').
Proof.
  apply walk_mutind.
  - auto.
  - auto.
  - intros funcSig depth p f p' _ Hf _ IH Hidx Hfiled.
    apply IH; auto. by rewrite <- Hidx.
  - auto.
  - auto.
  - intros f funcSig depth fn decls funcSrc p p1 p' _ _ Hcalls IHc _ IHr
      Hidx Hf Hfiled.
    apply walk_calls_extends in Hcalls as (Hidx1 & _). simpl in Hidx1.
    apply IHr; [congruence|exact Hf|]. apply IHc; [exact Hidx|].
    intros en Hen. simpl in Hen. apply elem_of_app in Hen as [Hen|Hen].
    + by apply Hfiled.
    + apply list_elem_of_singleton in Hen. subst en. exists f. split; [exact Hf|reflexivity].
  - auto.
  - auto.
  - intros pkg depth ce calls funcSig p p1 p' _ _ Hw IHw _ IHr Hidx Hfiled.
    apply walk_extends in Hw as (Hidx1 & _).
    apply IHr; [congruence|]. by apply IHw.
Qed.

End Filing.

(** ** The document and the first package *)

Lemma toString_body_ext (p q : parser) (excludeRoot codeOnly : bool)
    (result : string) (k : Z) (pkg : Package) :
  length (pkgOrder p) = length (pkgOrder q) →
  (k = 0 ∧ excludeRoot = true) ∨ functions_at p pkg = functions_at q pkg →
  toString_body p excludeRoot codeOnly result k pkg =
  toString_body q excludeRoot codeOnly result k pkg.
Proof.
  intros Hlen [[-> ->]|Hfun]; unfold toString_body; [reflexivity|].
  by rewrite Hlen, Hfun.
Qed.

Lemma toString_loop_ext (p q : parser) (excludeRoot codeOnly : bool)
    (pkgs : list Package) (result : string) (k : Z) :
  length (pkgOrder p) = length (pkgOrder q) →
  (∀ pkg, pkg ∈ pkgs → functions_at p pkg = functions_at q pkg) →
  toString_loop p excludeRoot codeOnly result k pkgs =
  toString_loop q excludeRoot codeOnly result k pkgs.
Proof.
  intros Hlen. revert result k.
  induction pkgs as [|pkg pkgs IH]; intros result k Hfun; simpl; [reflexivity|].
  rewrite (toString_body_ext p q) by (auto; right; apply Hfun; left).
  apply IH. intros; apply Hfun; by right.
Qed.

(** With [excludeRoot], the document does not depend on the text accumulated
    for the first package. *)
Lemma toString_excludeRoot_first (p : parser) (P0 : Package)
    (pkgs : list Package) (txt : string) (codeOnly : bool) :
  pkgOrder p = P0 :: pkgs → NoDup (map pkgAddr (pkgOrder p)) →
  toString (set_functions p (<[pkgAddr P0 := txt]> (functions p))) true codeOnly
  = toString p true codeOnly.
Proof.
  intros Horder Hnd. unfold toString. simpl. rewrite Horder. simpl.
  rewrite Horder in Hnd. simpl in Hnd. apply NoDup_cons in Hnd as [Hnotin _].
  rewrite (toString_body_ext _ p) by (auto; left; auto).
  apply toString_loop_ext; [reflexivity|].
  intros pkg Hpkg. unfold functions_at. simpl.
  rewrite lookup_insert_ne; [reflexivity|].
  intros Heq. apply Hnotin. rewrite Heq. apply list_elem_of_fmap. eauto.
Qed.

Lemma text_of_cons (a : N) (en : N * N * string) (log : list (N * N * string)) :
  entry_pkg en = a →
  text_of a (en :: log) = (LF +:+ entry_src en) +:+ text_of a log.
Proof.
  intros Ha. unfold text_of, chunks. rewrite filter_cons.
  by rewrite decide_True by exact Ha.
Qed.

(** From a new parser, the entry point is the first function recorded and
    its package the first package. *)
Lemma entry_recorded_first (readFile : string → option string)
    (idx : gmap N fileAndPkg) (e : N) (f : fileAndPkg) (depth : Z)
    (p' : parser) :
  idx !! e = Some f →
  (∃ fn, fn ∈ Decls (file f) ∧ decl_sig (pkg f) fn = Some e) →
  processFunction readFile (fuel_of depth) e depth (newParser idx) = Ok p' →
  consistent p' ∧ filed_by_index idx p' ∧
  ∃ fn funcSrc rest pkgs,
    fn ∈ Decls (file f) ∧ decl_sig (pkg f) fn = Some e ∧
    extractSourceCode readFile (Fset (pkg f)) (file f) fn = Ok (funcSrc, None) ∧
    extracted p' = (pkgAddr (pkg f), e, funcSrc) :: rest ∧
    pkgOrder p' = pkg f :: pkgs.
Proof.
  intros Hf Hfn Hrun. apply processFunction_walk in Hrun as Hw.
  split; [eapply walk_consistent; eauto using consistent_newParser|].
  split.
  { destruct (walk_filed readFile idx) as (Hfiled & _ & _).
    eapply Hfiled; eauto. intros en Hen. inversion Hen. }
  destruct (walk_records_function readFile e depth (newParser idx) p' f Hw)
    as (fn & src & Hin & Hsig & Hx & (_ & [rest Hlog] & [pkgs Hord] & _));
    [apply not_elem_of_empty|exact Hf|exact Hfn|].
  simpl in Hlog, Hord. rewrite lookup_empty in Hord. simpl in Hord.
  exists fn, src, rest, pkgs. repeat split; auto.
Qed.

(** C3 (as amended). The traversal run for [excludeRoot = true] (budget 6)
    does add the entry point to the Accumulator: the source sliced from the
    entry point's declaration is the first entry of the history and the
    beginning of the text accumulated for the first package, which is the
    entry point's package; the sources of the other functions of that
    package that the traversal visits follow it.  The document rendered
    with [excludeRoot = true] does not depend on that text: the whole of it
    is omitted. *)
Theorem excludeRoot_drops_first_package (readFile : string → option string)
    (idx : gmap N fileAndPkg) (e : N) (f : fileAndPkg) (p' : parser)
    (codeOnly : bool) :
  idx !! e = Some f →
  (∃ fn, fn ∈ Decls (file f) ∧ decl_sig (pkg f) fn = Some e) →
  processFunction readFile (fuel_of 6) e 6 (newParser idx) = Ok p' →
  ∃ fn funcSrc rest pkgs,
    fn ∈ Decls (file f) ∧ decl_sig (pkg f) fn = Some e ∧
    extractSourceCode readFile (Fset (pkg f)) (file f) fn = Ok (funcSrc, None) ∧
    extracted p' = (pkgAddr (pkg f), e, funcSrc) :: rest ∧
    pkgOrder p' = pkg f :: pkgs ∧
    functions_at p' (pkg f) =
      (LF +:+ funcSrc) +:+ text_of (pkgAddr (pkg f)) rest ∧
    ∀ txt,
      toString (set_functions p' (<[pkgAddr (pkg f) := txt]> (functions p')))
               true codeOnly
      = toString p' true codeOnly.
Proof.
  intros Hf Hfn Hrun.
  destruct (entry_recorded_first _ _ _ _ _ _ Hf Hfn Hrun)
    as (Hc & _ & fn & src & rest & pkgs & Hin & Hsig & Hx & Hlog & Hord).
  exists fn, src, rest, pkgs. repeat split; auto.
  - rewrite functions_at_text by exact Hc. rewrite Hlog.
    by rewrite text_of_cons.
  - intros txt. eapply toString_excludeRoot_first; eauto.
    apply (consistent_nodup p' Hc).
Qed.

(** The traversal of the example module with budget 6. *)
Lemma excludeRoot_drops_first_package_witness :
  fixtures.m_index !! fixtures.sig_e
    = Some {| file := fixtures.m_file; pkg := fixtures.pkg_m |}
  ∧ processFunction fixtures.m_files (fuel_of 6) fixtures.sig_e 6
      (newParser fixtures.m_index) = Ok (fixtures.m_run 6)
  ∧ ∃ fn funcSrc rest pkgs,
      fn ∈ Decls fixtures.m_file ∧
      decl_sig fixtures.pkg_m fn = Some fixtures.sig_e ∧
      extractSourceCode fixtures.m_files (Fset fixtures.pkg_m) fixtures.m_file fn
        = Ok (funcSrc, None) ∧
      extracted (fixtures.m_run 6)
        = (pkgAddr fixtures.pkg_m, fixtures.sig_e, funcSrc) :: rest ∧
      pkgOrder (fixtures.m_run 6) = fixtures.pkg_m :: pkgs ∧
      functions_at (fixtures.m_run 6) fixtures.pkg_m =
        (LF +:+ funcSrc) +:+ text_of (pkgAddr fixtures.pkg_m) rest ∧
      ∀ txt,
        toString (set_functions (fixtures.m_run 6)
                    (<[pkgAddr fixtures.pkg_m := txt]>
                       (functions (fixtures.m_run 6))))
                 true false
        = toString (fixtures.m_run 6) true false.
Proof.
  split; [vm_compute; reflexivity|]. split; [vm_compute; reflexivity|].
  apply (excludeRoot_drops_first_package fixtures.m_files fixtures.m_index
           fixtures.sig_e {| file := fixtures.m_file; pkg := fixtures.pkg_m |}
           (fixtures.m_run 6) false).
  - vm_compute; reflexivity.
  - eexists. split; [left|]. vm_compute; reflexivity.
  - vm_compute; reflexivity.
Defined.

(** C3 (as stated) fails: in the run of [Parse] on the example module with
    [excludeRoot = true], the text accumulated for the first package starts
    with the source of the entry point [e] itself. *)
Lemma excludeRoot_entry_accumulated :
  Parse fixtures.m_world "/src/m" "e" true false
    = Ok (toString (fixtures.m_run 6) true false)
  ∧ processFunction fixtures.m_files (fuel_of 6) fixtures.sig_e 6
      (newParser fixtures.m_index) = Ok (fixtures.m_run 6)
  ∧ hd_error (pkgOrder (fixtures.m_run 6)) = Some fixtures.pkg_m
  ∧ functions_at (fixtures.m_run 6) fixtures.pkg_m =
      LF +:+ "func e() { h() }" +:+ LF +:+
      LF +:+ "func h() { e(); a.F1() }" +:+ LF.
Proof.
  repeat split; vm_compute; reflexivity.
Qed.

(** ** Checking an index *)

Lemma index_sliceable_sound (readFile : string → option string)
    (idx : gmap N fileAndPkg) :
  index_sliceable readFile idx = true → sliceable readFile idx.
Proof.
  unfold index_sliceable. rewrite forallb_forall.
  intros Hall sig f fn Hf Hfn.
  apply elem_of_map_to_list, list_elem_of_In in Hf.
  specialize (Hall _ Hf). simpl in Hall. rewrite forallb_forall in Hall.
  apply list_elem_of_In in Hfn. specialize (Hall _ Hfn).
  unfold decl_sliceable in Hall. unfold decl_sig. split.
  - intros name Hn. rewrite Hn in Hall.
    destruct (ObjectOf (pkg f) name); [eauto|discriminate].
  - destruct (Name fn) as [name|]; simpl; [|discriminate].
    destruct (ObjectOf (pkg f) name) as [obj|]; simpl; [|discriminate].
    destruct (objType obj) as [s|]; [|discriminate].
    intros [= ->]. rewrite N.eqb_refl in Hall.
    destruct (extractSourceCode _ _ _ _) as [[src [e|]]| |]; try discriminate.
    eauto.
Qed.

Lemma index_unique_sound (idx : gmap N fileAndPkg) :
  index_unique idx = true → unique_decls idx.
Proof.
  unfold index_unique. rewrite forallb_forall.
  intros Hall sig f Hf.
  apply elem_of_map_to_list, list_elem_of_In in Hf.
  specialize (Hall _ Hf). simpl in Hall. by apply bool_decide_eq_true in Hall.
Qed.

(** ** The documents of the two settings of [excludeRoot] *)




(** ** Recursion *)

Lemma text_of_app (a : N) (l1 l2 : list (N * N * string)) :
  text_of a (l1 ++ l2) = text_of a l1 +:+ text_of a l2.
Proof. unfold text_of, chunks. by rewrite filter_app, map_app, join_app. Qed.

(** In a history without repetition, a function that is extracted is
    extracted once. *)
Lemma visited_extracted_once (readFile : string → option string)
    (idx : gmap N fileAndPkg) (p : parser) (x : N) :
  consistent p → sourced readFile idx p → NoDup (visited p) →
  x ∈ visited p → ∃ src, extracted_once readFile idx p x src.
Proof.
  intros Hc Hsrc Hnd Hx.
  apply visited_entry in Hx as (a & src & Hen).
  destruct (Hsrc _ Hen) as (f & fn & Hf & Ha & Hfn & Hsig & Hslice).
  unfold entry_pkg, entry_sig_of, entry_src in Hf, Ha, Hsig, Hslice.
  simpl in Hf, Ha, Hsig, Hslice. subst a.
  apply list_elem_of_split in Hen as (pre & post & Hlog).
  exists src, f, fn, pre, post. repeat split; auto.
  - unfold visited in Hnd. rewrite Hlog, map_app in Hnd. simpl in Hnd.
    apply NoDup_app in Hnd as (Hpre & Hcross & Hpost).
    apply NoDup_cons in Hpost as [Hpost _].
    rewrite map_app. intros [Hin|Hin]%elem_of_app; [|by apply Hpost].
    apply (Hcross x Hin). left.
  - rewrite functions_at_text by exact Hc.
    rewrite Hlog, text_of_app, text_of_cons by reflexivity.
    reflexivity.
Qed.

(** C6 (as amended). When the entry point [A] calls [B] and [B] calls [A]
    ([B] may be [A] itself: direct recursion), on an index where slicing
    cannot fail and every declaration has its own signature, the traversal
    with a budget of at least 2 terminates and returns a parser.  No
    function is extracted twice; each of [A] and [B] is extracted exactly
    once: the history holds one entry for it, with the source sliced from
    its declaration, and the text accumulated for its package holds that
    source once, between the sources of the functions filed before and
    after it.  The document rendered with [excludeRoot = false] is made of
    the blocks of all the packages, each once, and contains the source of
    [A] and the source of [B].  The document rendered with
    [excludeRoot = true] is made of the blocks of the packages after the
    first, which is the package of [A]: it does not depend on the text
    accumulated for that package, and it contains the source of [B] when
    [B] is of another package. *)
Theorem recursion_extracted_once (readFile : string → option string)
    (idx : gmap N fileAndPkg) (A B : N) (depth : Z) :
  unique_decls idx → sliceable readFile idx →
  B ∈ callees_of idx A → A ∈ callees_of idx B → 2 ≤ depth →
  ∃ p' srcA srcB fA fB pkgs,
    processFunction readFile (fuel_of depth) A depth (newParser idx) = Ok p' ∧
    NoDup (visited p') ∧
    extracted_once readFile idx p' A srcA ∧
    extracted_once readFile idx p' B srcB ∧
    idx !! A = Some fA ∧ idx !! B = Some fB ∧
    pkgOrder p' = pkg fA :: pkgs ∧
    NoDup (map pkgAddr (pkgOrder p')) ∧
    pkgAddr (pkg fB) ∈ map pkgAddr (pkgOrder p') ∧
    ∀ codeOnly,
      toString p' false codeOnly =
        String.concat (LF +:+ LF) (blocks p' codeOnly (pkg fA :: pkgs)) ∧
      contains (toString p' false codeOnly) srcA ∧
      contains (toString p' false codeOnly) srcB ∧
      toString p' true codeOnly =
        String.concat (LF +:+ LF) (blocks p' codeOnly pkgs) ∧
      (∀ txt,
         toString (set_functions p' (<[pkgAddr (pkg fA) := txt]> (functions p')))
                  true codeOnly
         = toString p' true codeOnly) ∧
      (pkgAddr (pkg fB) ≠ pkgAddr (pkg fA) →
       contains (toString p' true codeOnly) srcB).
Proof.
  intros Hunique Hslice HAB HBA Hdepth.
  assert (Hmin : depth ≠ int_min) by (pose proof int_min_neg; lia).
  apply callees_of_elim in HAB
    as (fA & fnA & bodyA & ce & HfA & HfnA & HsigA & HbodyA & Hce & Hcallee).
  apply callees_of_elim in HBA
    as (fB & fnB & _ & _ & HfB & HfnB & HsigB & _).
  destruct (processFunction_returns readFile idx Hslice
              (fuel_of depth) A depth (newParser idx)) as (p' & Hrun);
    [lia|exact Hmin|reflexivity|].
  destruct (entry_recorded_first readFile idx A fA depth p' HfA) as
    (Hc & Hfiled & fn0 & src & rest & pkgs & _ & _ & _ & Hlog & Hord);
    [eauto|exact Hrun|].
  apply processFunction_walk in Hrun as Hw.
  assert (Hnd : NoDup (visited p')).
  { destruct (walk_nodup readFile idx Hunique) as (Hn & _ & _).
    eapply Hn; eauto using consistent_newParser. constructor. }
  assert (Hsrc : sourced readFile idx p').
  { destruct (walk_sourced readFile idx) as (Hs & _ & _).
    eapply Hs; eauto. intros en Habs. inversion Habs. }
  assert (HA : A ∈ visited p').
  { unfold visited. rewrite Hlog. left. }
  assert (HB : B ∈ visited p').
  { apply (consistent_seen p' Hc).
    inversion Hw as [? ? ? Hseen| ? ? ? _ Hnone |? ? ? f' ? _ Hf' Hd]; subst.
    - simpl in Hseen. by apply not_elem_of_empty in Hseen.
    - simpl in Hnone. congruence.
    - simpl in Hf'. rewrite HfA in Hf'. injection Hf' as <-.
      eapply (walk_decls_marks_callee readFile fA A depth _ _ _ fnA ce B fB);
        eauto.
      unfold followed_calls. rewrite (int_pred_eq _ Hmin).
      replace (depth - 1 <=? 0) with false by lia.
      by rewrite HbodyA. }
  destruct (visited_extracted_once readFile idx p' A Hc Hsrc Hnd HA)
    as (srcA & HonceA).
  destruct (visited_extracted_once readFile idx p' B Hc Hsrc Hnd HB)
    as (srcB & HonceB).
  assert (HenA : (pkgAddr (pkg fA), A, srcA) ∈ extracted p').
  { destruct HonceA as (f & fn & pre & post & Hf & _ & _ & _ & Hl & _).
    assert (f = fA) as -> by congruence.
    rewrite Hl. apply elem_of_app. right. left. }
  assert (HenB : (pkgAddr (pkg fB), B, srcB) ∈ extracted p').
  { destruct HonceB as (f & fn & pre & post & Hf & _ & _ & _ & Hl & _).
    assert (f = fB) as -> by congruence.
    rewrite Hl. apply elem_of_app. right. left. }
  exists p', srcA, srcB, fA, fB, pkgs.
  split; [exact Hrun|]. split; [exact Hnd|]. split; [exact HonceA|].
  split; [exact HonceB|]. split; [exact HfA|]. split; [exact HfB|].
  split; [exact Hord|]. split; [apply (consistent_nodup p' Hc)|].
  split.
  { apply (consistent_order p' Hc). rewrite (consistent_functions p' Hc).
    destruct (decide (chunks (pkgAddr (pkg fB)) (extracted p') = []))
      as [Hnil|]; [|eauto].
    exfalso.
    assert (Hin : (pkgAddr (pkg fB), B, srcB)
                    ∈ chunks (pkgAddr (pkg fB)) (extracted p'))
      by (apply list_elem_of_filter; split; [reflexivity|exact HenB]).
    rewrite Hnil in Hin. inversion Hin. }
  intros codeOnly.
  split; [by rewrite toString_false_blocks, Hord|].
  split; [apply (consistent_contains p' codeOnly _ A srcA Hc HenA)|].
  split; [apply (consistent_contains p' codeOnly _ B srcB Hc HenB)|].
  split; [by rewrite toString_true_blocks, Hord|].
  split.
  - intros txt. eapply toString_excludeRoot_first; eauto.
    apply (consistent_nodup p' Hc).
  - intros Hne. apply (consistent_contains p' codeOnly _ B srcB Hc HenB).
    rewrite Hord. simpl. congruence.
Qed.

(** ** The example modules *)

(** The example module satisfies the assumptions made on an index. *)
Lemma m_index_unique : unique_decls fixtures.m_index.
Proof. apply index_unique_sound. vm_compute. reflexivity. Qed.

Lemma m_index_sliceable : sliceable fixtures.m_files fixtures.m_index.
Proof. apply index_sliceable_sound. vm_compute. reflexivity. Qed.

(** In the example module [e] calls [h] and [h] calls [e]; both are
    extracted once by the traversal of budget 5. *)
Lemma recursion_extracted_once_witness :
  fixtures.sig_h ∈ callees_of fixtures.m_index fixtures.sig_e
  ∧ fixtures.sig_e ∈ callees_of fixtures.m_index fixtures.sig_h
  ∧ ∃ p' srcA srcB,
      processFunction fixtures.m_files (fuel_of 5) fixtures.sig_e 5
        (newParser fixtures.m_index) = Ok p' ∧
      NoDup (visited p') ∧
      extracted_once fixtures.m_files fixtures.m_index p' fixtures.sig_e srcA ∧
      extracted_once fixtures.m_files fixtures.m_index p' fixtures.sig_h srcB ∧
      ∀ codeOnly,
        contains (toString p' false codeOnly) srcA ∧
        contains (toString p' false codeOnly) srcB.
Proof.
  assert (Heh : fixtures.sig_h ∈ callees_of fixtures.m_index fixtures.sig_e).
  { apply (bool_decide_unpack _). vm_compute. reflexivity. }
  assert (Hhe : fixtures.sig_e ∈ callees_of fixtures.m_index fixtures.sig_h).
  { apply (bool_decide_unpack _). vm_compute. reflexivity. }
  split; [exact Heh|]. split; [exact Hhe|].
  destruct (recursion_extracted_once fixtures.m_files fixtures.m_index
              fixtures.sig_e fixtures.sig_h 5
              m_index_unique m_index_sliceable Heh Hhe)
    as (p' & srcA & srcB & fA & fB & pkgs & Hrun & Hnd & HA & HB & _ & _ & _
        & _ & _ & Hdoc); [lia|].
  exists p', srcA, srcB.
  split; [exact Hrun|]. split; [exact Hnd|]. split; [exact HA|].
  split; [exact HB|].
  intros codeOnly. destruct (Hdoc codeOnly) as (_ & H1 & H2 & _).
  split; [exact H1|exact H2].
Defined.

(** C6 (as stated) fails.  In the example module [m] the entry point [e]
    calls [h] and [h] calls [e], and the document that [Parse] renders with
    [excludeRoot = true] contains the source of neither.  In the module [o]
    the functions [A] and [B], each calling the other, are declared on one
    line: the source sliced for each is that whole line, and the document
    that [Parse] renders with [excludeRoot = false] holds the line
    twice. *)
Lemma recursion_counterexample :
  fixtures.sig_h ∈ callees_of fixtures.m_index fixtures.sig_e
  ∧ fixtures.sig_e ∈ callees_of fixtures.m_index fixtures.sig_h
  ∧ Parse fixtures.m_world "/src/m" "e" true true =
      Ok (LF +:+ "func F1() { F2() }" +:+ LF +:+
          LF +:+ "func F2() { b.G1() }" +:+ LF +:+ LF +:+ LF +:+
          "// b" +:+ LF +:+
          LF +:+ "func G1() { G2() }" +:+ LF +:+
          LF +:+ "func G2() { G2() }" +:+ LF)
  ∧ fixtures.sig_oB ∈ callees_of fixtures.o_index fixtures.sig_oA
  ∧ fixtures.sig_oA ∈ callees_of fixtures.o_index fixtures.sig_oB
  ∧ extractSourceCode fixtures.o_files (Fset fixtures.pkg_o) fixtures.o_file
      (fixtures.o_decl 0 "A" "B")
    = Ok ("func A() { B() }; func B() { A() }" +:+ LF, None)
  ∧ extractSourceCode fixtures.o_files (Fset fixtures.pkg_o) fixtures.o_file
      (fixtures.o_decl 18 "B" "A")
    = Ok ("func A() { B() }; func B() { A() }" +:+ LF, None)
  ∧ Parse fixtures.o_world "/src/o" "A" false true =
      Ok (LF +:+ "func A() { B() }; func B() { A() }" +:+ LF +:+
          LF +:+ "func A() { B() }; func B() { A() }" +:+ LF).
Proof.
  split; [apply (bool_decide_unpack _); vm_compute; reflexivity|].
  split; [apply (bool_decide_unpack _); vm_compute; reflexivity|].
  split; [vm_compute; reflexivity|].
  split; [apply (bool_decide_unpack _); vm_compute; reflexivity|].
  split; [apply (bool_decide_unpack _); vm_compute; reflexivity|].
  repeat split; vm_compute; reflexivity.
Qed.

(** The traversal of the example module visits the packages [m], [m/a] and
    [m/b] in that order. *)
Lemma toString_header_suppression_witness :
  pkgOrder (fixtures.m_run 5)
    = [fixtures.pkg_m; fixtures.pkg_a; fixtures.pkg_b]
  ∧ toString (fixtures.m_run 5) false true =
      functions_at (fixtures.m_run 5) fixtures.pkg_m +:+ LF +:+ LF +:+
      "// a" +:+ LF +:+
      functions_at (fixtures.m_run 5) fixtures.pkg_a +:+ LF +:+ LF +:+
      "// b" +:+ LF +:+
      functions_at (fixtures.m_run 5) fixtures.pkg_b
  ∧ toString (fixtures.m_run 5) true false =
      "```" +:+ functions_at (fixtures.m_run 5) fixtures.pkg_a +:+ "```" +:+
      LF +:+ LF +:+
      "b" +:+ LF +:+
      "```" +:+ functions_at (fixtures.m_run 5) fixtures.pkg_b +:+ "```".
Proof.
  assert (Horder : pkgOrder (fixtures.m_run 5)
                   = [fixtures.pkg_m; fixtures.pkg_a; fixtures.pkg_b])
    by (vm_compute; reflexivity).
  split; [exact Horder|].
  destruct (toString_header_suppression (fixtures.m_run 5) fixtures.pkg_m
              fixtures.pkg_a fixtures.pkg_b Horder) as (H1 & _ & _ & H4).
  split; [exact H1|exact H4].
Defined.

(** C4 (as stated) fails: the manifest of the example module requires
    [github.com/x/y]; its package is loaded, is not a package of the module
    [m], and its function [Y] is in the index. *)
Lemma index_third_party_counterexample :
  parseGoModFile fixtures.m_snapshot = Ok ["m"; "github.com/x/y"]
  ∧ initialize fixtures.m_snapshot "e" = Ok (fixtures.sig_e, fixtures.m_index)
  ∧ fixtures.m_index !! fixtures.sig_Y
      = Some {| file := fixtures.y_file; pkg := fixtures.pkg_y |}
  ∧ ¬ in_module "m" (PkgPath fixtures.pkg_y).
Proof.
  split; [vm_compute; reflexivity|]. split; [vm_compute; reflexivity|].
  split; [vm_compute; reflexivity|].
  intros [H|H]; vm_compute in H; discriminate.
Qed.

Lemma index_only_listed_packages_witness :
  parseGoModFile fixtures.m_snapshot = Ok ["m"; "github.com/x/y"]
  ∧ loadPackages fixtures.m_snapshot
      = Ok [fixtures.pkg_m; fixtures.pkg_a; fixtures.pkg_b; fixtures.pkg_y]
  ∧ initialize fixtures.m_snapshot "e" = Ok (fixtures.sig_e, fixtures.m_index)
  ∧ (∀ sig f, fixtures.m_index !! sig = Some f →
       pkg f ∈ [fixtures.pkg_m; fixtures.pkg_a; fixtures.pkg_b; fixtures.pkg_y] ∧
       listed_in ["m"; "github.com/x/y"] (PkgPath (pkg f)) ∧
       file f ∈ Syntax (pkg f) ∧
       ∃ fn, fn ∈ Decls (file f) ∧ decl_sig (pkg f) fn = Some sig)
  ∧ (∀ readFile fuel sig depth p,
       funcToFileAndPkg p = fixtures.m_index →
       fixtures.m_index !! sig = None →
       processFunction readFile (S fuel) sig depth p = Ok p).
Proof.
  split; [vm_compute; reflexivity|]. split; [vm_compute; reflexivity|].
  split; [vm_compute; reflexivity|].
  apply (index_only_listed_packages fixtures.m_snapshot "e"
           ["m"; "github.com/x/y"]
           [fixtures.pkg_m; fixtures.pkg_a; fixtures.pkg_b; fixtures.pkg_y]
           fixtures.sig_e fixtures.m_index);
    vm_compute; reflexivity.
Defined.

(** No function of the example module is named [missing]: there the
    panic is raised. *)
Lemma entry_point_not_found_example :
  initialize fixtures.m_snapshot "missing"
    = Panic (EntryPointNotFound "missing")
  ∧ Parse fixtures.m_world "/src/m" "missing" false false
    = Panic (EntryPointNotFound "missing").
Proof. split; vm_compute; reflexivity. Qed.

(** C7 (the code departs from it).  The claim, and the documentation of
    [Parse], say that a requested function that the root package does not
    declare makes the run panic.  The code takes the first token that
    [parseGoModFile] reads from the manifest for the path of the root
    package.  On the module [m], whose manifest begins with a comment line,
    that token is [//]: the root package [m] is loaded, accepted by
    [isGoModPkg], scanned and indexed, and declares no function named
    [missing]; yet [initialize] returns the nil signature without a panic
    and [Parse] returns the empty document.  It does so even for the
    function [e], which the root package declares. *)
Theorem entry_point_not_found_missed :
  parseGoModFile fixtures.commented_snapshot = Ok ["//"; "m"]
  ∧ loadPackages fixtures.commented_snapshot
    = Ok [fixtures.pkg_m; fixtures.pkg_a; fixtures.pkg_b]
  ∧ PkgPath fixtures.pkg_m = "m"
  ∧ isGoModPkg ["//"; "m"] (PkgPath fixtures.pkg_m) = true
  ∧ ¬ declares "missing" fixtures.pkg_m
  ∧ (∃ idx, initialize fixtures.commented_snapshot "missing" = Ok (0%N, idx)
            ∧ idx !! fixtures.sig_e
              = Some {| file := fixtures.m_file; pkg := fixtures.pkg_m |})
  ∧ Parse fixtures.commented_world "/src/m" "missing" false true = Ok ""
  ∧ Parse fixtures.commented_world "/src/m" "missing" true false = Ok ""
  ∧ Parse fixtures.commented_world "/src/m" "e" false true = Ok "".
Proof.
  split; [vm_compute; reflexivity|]. split; [reflexivity|].
  split; [reflexivity|]. split; [reflexivity|]. split.
  { intros (file0 & fn & name & Hfile & Hfn & Hname & Hid).
    simpl in Hfile. apply list_elem_of_singleton in Hfile. subst file0.
    simpl in Hfn.
    repeat (apply elem_of_cons in Hfn as [->|Hfn]); [| |inversion Hfn];
      injection Hname as <-; discriminate Hid. }
  split.
  { eexists. split; vm_compute; reflexivity. }
  repeat split; vm_compute; reflexivity.
Qed.

(** In the package [c] of the example, the method [Get] of [Cache] is
    declared after the function [Get]: the entry signature for the name
    [Get] is the method's. *)
Lemma entry_point_last_declaration_wins_witness :
  Recv fixtures.c_method = Some "Cache"
  ∧ ∃ funcToFileAndPkg,
      initialize fixtures.c_snapshot "Get"
        = Ok (fixtures.sig_Cache_Get, funcToFileAndPkg).
Proof.
  split; [reflexivity|].
  apply (entry_point_last_declaration_wins fixtures.c_snapshot "c" []
           [] [] fixtures.pkg_c "Get" [fixtures.c_func] [] fixtures.c_method
           {| NamePos := fixtures.line_pos fixtures.c_lines 6 + 15;
              IdentName := "Get" |}
           {| objPkg := Some "c";
              objType := TSignature fixtures.sig_Cache_Get |}
           fixtures.sig_Cache_Get).
  - vm_compute; reflexivity.
  - vm_compute; reflexivity.
  - reflexivity.
  - intros q Hq. inversion Hq.
  - reflexivity.
  - reflexivity.
  - reflexivity.
  - vm_compute; reflexivity.
  - reflexivity.
  - discriminate.
  - intros fn' name' Hfn'. inversion Hfn'.
Defined.

(** The documented function of the example file [d.go]: its two comment
    lines and its three lines. *)
Lemma extractSourceCode_whole_lines_witness :
  fixtures.d_files (Filename (fixtures.d_fset (FuncDecl_Pos fixtures.d_Add)))
    = Some (fixtures.file_text fixtures.d_lines)
  ∧ extractSourceCode fixtures.d_files fixtures.d_fset
      {| Decls := [fixtures.d_Add] |} fixtures.d_Add
    = Ok (lines_text (gostrings.Split (fixtures.file_text fixtures.d_lines)) 2 6,
          None)
  ∧ lines_text (gostrings.Split (fixtures.file_text fixtures.d_lines)) 2 6
    = "// Add returns the sum." +:+ LF +:+ "// It never fails." +:+ LF +:+
      "func Add(a, b int) int {" +:+ LF +:+
      fixtures.TAB +:+ "return a + b" +:+ LF +:+ "}" +:+ LF.
Proof.
  split; [reflexivity|]. split; [|vm_compute; reflexivity].
  apply (extractSourceCode_whole_lines fixtures.d_files fixtures.d_fset
           {| Decls := [fixtures.d_Add] |} fixtures.d_Add
           (fixtures.file_text fixtures.d_lines) 2).
  - reflexivity.
  - vm_compute. repeat split; discriminate.
  - lia.
  - vm_compute. discriminate.
  - vm_compute. reflexivity.
Defined.

(** C8 (as stated) fails: in the example file [t.go] a comment follows the
    closing brace of [f] on its line; the exact text from the start of the
    declaration through the end of its body is [func f() {}], and the slicer
    returns the whole line, comment included, and a newline. *)
Lemma extractSourceCode_counterexample :
  exact_span (fixtures.file_text fixtures.t_lines) fixtures.t_fset fixtures.t_f
    = "func f() {}"
  ∧ extractSourceCode fixtures.t_files fixtures.t_fset
      {| Decls := [fixtures.t_f] |} fixtures.t_f
    = Ok ("func f() {} // tail" +:+ LF, None)
  ∧ extractSourceCode fixtures.t_files fixtures.t_fset
      {| Decls := [fixtures.t_f] |} fixtures.t_f
    ≠ Ok (exact_span (fixtures.file_text fixtures.t_lines) fixtures.t_fset
            fixtures.t_f, None).
Proof.
  split; [vm_compute; reflexivity|]. split; [vm_compute; reflexivity|].
  vm_compute. discriminate.
Qed.

(** When two comments of a documentation block share a line, the slicer
    writes that line once for each of them. *)
Example extractSourceCode_shared_line :
  extractSourceCode fixtures.u_files fixtures.u_fset
    {| Decls := [fixtures.u_g] |} fixtures.u_g
  = Ok ("/* a */ // b" +:+ LF +:+ "/* a */ // b" +:+ LF +:+
        "func g() {}" +:+ LF, None).
Proof. vm_compute. reflexivity. Qed.

(** ** Determinism: the result does not depend on addresses *)

Lemma foldM_relocate {A B B' : Type} (h : B → B') (f : B → A → result B)
    (f' : B' → A → result B') (l : list A) (b : B) :
  (∀ b x, x ∈ l → f' (h b) x = result_map h (f b x)) →
  foldM f' l (h b) = result_map h (foldM f l b).
Proof.
  revert b; induction l as [|x l IH]; intros b Hf; simpl; [reflexivity|].
  rewrite Hf by left.
  destruct (f b x) as [b1| |]; simpl; [|reflexivity|reflexivity].
  apply IH. intros; apply Hf; by right.
Qed.

Lemma foldM_map {A A' B : Type} (g : A → A') (f : B → A' → result B)
    (l : list A) (b : B) :
  foldM f (map g l) b = foldM (λ b x, f b (g x)) l b.
Proof.
  revert b; induction l as [|x l IH]; intros b; simpl; [reflexivity|].
  destruct (f b (g x)); simpl; auto.
Qed.

Section Determinism.

Context (rs rp : N → N) `{!Inj (=) (=) rs} `{!Inj (=) (=) rp}.
Hypothesis rs_nil : rs 0%N = 0%N.

Lemma rs_eqb (a b : N) : (rs a =? rs b)%N = (a =? b)%N.
Proof.
  destruct (a =? b)%N eqn:E.
  - apply N.eqb_eq in E. subst. apply N.eqb_refl.
  - apply N.eqb_neq. apply N.eqb_neq in E. intros H. by apply (inj rs) in H.
Qed.

Lemma rs_eqb_nil (a : N) : (rs a =? 0)%N = (a =? 0)%N.
Proof. rewrite <- rs_nil at 1. apply rs_eqb. Qed.

Lemma relocate_index_lookup (idx : gmap N fileAndPkg) (sig : N) :
  relocate_index rs rp idx !! rs sig = relocate_entry rs rp <$> idx !! sig.
Proof. unfold relocate_index. by rewrite lookup_kmap, lookup_fmap. Qed.

Lemma relocate_index_insert (idx : gmap N fileAndPkg) (sig : N)
    (f : fileAndPkg) :
  relocate_index rs rp (<[sig := f]> idx) =
    <[rs sig := relocate_entry rs rp f]> (relocate_index rs rp idx).
Proof. unfold relocate_index. by rewrite fmap_insert, kmap_insert. Qed.

Lemma relocate_scan_decl (goModPaths : list string) (funcName : string)
    (pkg : Package) (file : File) (st : N * gmap N fileAndPkg) (fn : FuncDecl) :
  scan_decl goModPaths funcName (relocate_pkg rs rp pkg) file
            (relocate_scan rs rp st) fn
  = result_map (relocate_scan rs rp)
               (scan_decl goModPaths funcName pkg file st fn).
Proof.
  unfold scan_decl. destruct st as [funcSig idx]. simpl.
  destruct (Name fn) as [name|]; [|reflexivity].
  destruct (ObjectOf pkg name) as [obj|]; simpl; [|reflexivity].
  destruct (objType obj) as [sig|]; simpl; [|reflexivity].
  rewrite rs_eqb_nil. destruct (sig =? 0)%N; [reflexivity|].
  destruct (index goModPaths 0) as [root| |]; simpl; [|reflexivity|reflexivity].
  destruct (_ && _); unfold relocate_scan; simpl;
    rewrite relocate_index_insert; reflexivity.
Qed.

Lemma relocate_scan_pkg (goModPaths : list string) (funcName : string)
    (st : N * gmap N fileAndPkg) (pkg : Package) :
  scan_pkg goModPaths funcName (relocate_scan rs rp st) (relocate_pkg rs rp pkg)
  = result_map (relocate_scan rs rp) (scan_pkg goModPaths funcName st pkg).
Proof.
  unfold scan_pkg. simpl.
  destruct (isGoModPkg goModPaths (PkgPath pkg)); simpl; [|reflexivity].
  rewrite (foldM_relocate (relocate_scan rs rp)
             (λ st file, foldM (scan_decl goModPaths funcName pkg file)
                               (Decls file) st)).
  2:{ intros st0 file0 _. apply foldM_relocate.
      intros st1 fn _. apply relocate_scan_decl. }
  destruct (foldM _ (Syntax pkg) st) as [st'| |]; simpl; [|reflexivity|reflexivity].
  destruct (index goModPaths 0) as [root| |]; simpl; [|reflexivity|reflexivity].
  rewrite rs_eqb_nil. destruct (_ && _); reflexivity.
Qed.

Lemma relocate_initialize (m : Snapshot) (funcName : string) :
  initialize (relocate_snapshot rs rp m) funcName
  = result_map (relocate_scan rs rp) (initialize m funcName).
Proof.
  unfold initialize.
  assert (Hmod : parseGoModFile (relocate_snapshot rs rp m) = parseGoModFile m)
    by reflexivity.
  rewrite Hmod.
  destruct (parseGoModFile m) as [goModPaths| |]; simpl; [|reflexivity|reflexivity].
  unfold loadPackages. simpl.
  destruct (load m) as [pkgs|]; simpl; [|reflexivity].
  rewrite length_map. destruct (length pkgs =? 0)%nat; simpl; [reflexivity|].
  rewrite foldM_map.
  assert (H0 : (0%N, ∅ : gmap N fileAndPkg) = relocate_scan rs rp (0%N, ∅)).
  { unfold relocate_scan, relocate_index. simpl.
    by rewrite rs_nil, fmap_empty, kmap_empty. }
  rewrite H0 at 1. apply foldM_relocate.
  intros st pkg _. apply relocate_scan_pkg.
Qed.

Lemma relocate_functions_at (p : parser) (pkg : Package) :
  functions_at (relocate_parser rs rp p) (relocate_pkg rs rp pkg)
  = functions_at p pkg.
Proof. unfold functions_at. simpl. by rewrite lookup_kmap. Qed.

Lemma relocate_seen (p : parser) (sig : N) :
  rs sig ∈ seen (relocate_parser rs rp p) ↔ sig ∈ seen p.
Proof.
  simpl. rewrite elem_of_map. split.
  - intros (x & Hx & Hin). by apply (inj rs) in Hx as ->.
  - intros Hin. eauto.
Qed.

Lemma relocate_record (f : fileAndPkg) (funcSig : N) (funcSrc : string)
    (p : parser) :
  record_function (relocate_entry rs rp f) (rs funcSig) funcSrc
                  (relocate_parser rs rp p)
  = relocate_parser rs rp (record_function f funcSig funcSrc p).
Proof.
  unfold record_function.
  change (pkg (relocate_entry rs rp f)) with (relocate_pkg rs rp (pkg f)).
  rewrite relocate_functions_at.
  unfold relocate_parser. simpl. f_equal.
  - by rewrite kmap_insert.
  - rewrite lookup_kmap by apply _.
    destruct (functions p !! pkgAddr (pkg f)); [reflexivity|].
    by rewrite map_app.
  - by rewrite set_map_union_L, set_map_singleton_L.
  - by rewrite map_app.
Qed.

Lemma relocate_callee (pkg : Package) (ce : CallExpr) :
  callee (relocate_pkg rs rp pkg) ce = rs <$> callee pkg ce.
Proof.
  unfold callee.
  destruct (match Fun ce with
            | IdentExpr id => id
            | SelectorExpr Sel => Sel
            | OtherExpr => None
            end) as [funcNode|]; simpl; [|reflexivity].
  destruct (ObjectOf pkg funcNode) as [obj|]; simpl; [|reflexivity].
  destruct (objPkg obj); simpl; [|reflexivity].
  destruct (objType obj); reflexivity.
Qed.

(** A run of the walker on relocated data is the relocated run. *)
Lemma relocate_processFunction (readFile : string → option string)
    (fuel : nat) (funcSig : N) (depth : Z) (p : parser) :
  processFunction readFile fuel (rs funcSig) depth (relocate_parser rs rp p)
  = result_map (relocate_parser rs rp)
               (processFunction readFile fuel funcSig depth p).
Proof.
  revert funcSig depth p. induction fuel as [|fuel IH];
    intros funcSig depth p; [reflexivity|].
  cbn [processFunction].
  rewrite (bool_decide_ext _ _ (relocate_seen p funcSig)).
  case_bool_decide; [reflexivity|].
  change (funcToFileAndPkg (relocate_parser rs rp p))
    with (relocate_index rs rp (funcToFileAndPkg p)).
  rewrite relocate_index_lookup.
  destruct (funcToFileAndPkg p !! funcSig) as [f|]; simpl; [|reflexivity].
  apply foldM_relocate. intros p0 fn _.
  unfold visit_decl. simpl.
  destruct (Name fn) as [name|]; [|reflexivity].
  destruct (ObjectOf (pkg f) name) as [obj|]; simpl; [|reflexivity].
  destruct (objType obj) as [sig|]; simpl; [|reflexivity].
  rewrite rs_eqb. destruct (sig =? funcSig)%N; simpl; [|reflexivity].
  destruct (extractSourceCode readFile (Fset (pkg f)) (file f) fn)
    as [[funcSrc [e|]]| |]; simpl; try reflexivity.
  rewrite relocate_record.
  unfold processUnderlyingFunctions.
  destruct (int_pred depth <=? 0); [reflexivity|].
  destruct (Body fn) as [body|]; [|reflexivity].
  apply foldM_relocate. intros p1 ce _.
  change (pkg (relocate_entry rs rp f)) with (relocate_pkg rs rp (pkg f)).
  rewrite relocate_callee.
  destruct (callee (pkg f) ce) as [g|]; simpl; [|reflexivity].
  apply IH.
Qed.

Lemma relocate_toString_loop (p : parser) (excludeRoot codeOnly : bool)
    (pkgs : list Package) (result : string) (k : Z) :
  toString_loop (relocate_parser rs rp p) excludeRoot codeOnly result k
                (map (relocate_pkg rs rp) pkgs)
  = toString_loop p excludeRoot codeOnly result k pkgs.
Proof.
  revert result k. induction pkgs as [|pkg pkgs IH]; intros result k;
    [reflexivity|].
  simpl. rewrite IH. f_equal.
  unfold toString_body. rewrite relocate_functions_at. simpl.
  by rewrite length_map.
Qed.

(** The document does not depend on the addresses. *)
Lemma relocate_toString (p : parser) (excludeRoot codeOnly : bool) :
  toString (relocate_parser rs rp p) excludeRoot codeOnly
  = toString p excludeRoot codeOnly.
Proof. unfold toString. simpl. apply relocate_toString_loop. Qed.

Lemma relocate_newParser (idx : gmap N fileAndPkg) :
  newParser (relocate_index rs rp idx) = relocate_parser rs rp (newParser idx).
Proof.
  unfold newParser, relocate_parser. simpl.
  by rewrite kmap_empty, set_map_empty.
Qed.

(** C9. Determinism: [Parse] is a function of the module snapshot, the
    entry-point name and the flags (the depth budget is fixed by the flags),
    and of nothing else that varies between two runs: when a second run
    loads the same snapshot with its signature and package objects at other
    addresses ([rs] and [rp] move the addresses, keeping distinct objects
    distinct and nil signatures nil), [Parse] returns the same result, be it
    the same document, byte for byte, or the same panic. *)
Theorem Parse_deterministic (w : World) (funcPkgPath funcName : string)
    (excludeRoot codeOnly : bool) :
  Parse (relocate_world rs rp w) funcPkgPath funcName excludeRoot codeOnly
  = Parse w funcPkgPath funcName excludeRoot codeOnly.
Proof.
  unfold Parse, changeDir.
  generalize (fuel_of 6) as fuel6. generalize (fuel_of 5) as fuel5.
  intros fuel5 fuel6. simpl.
  destruct (getwd w) as [curDir|]; simpl; [|reflexivity].
  destruct (chdir w funcPkgPath) as [m|]; simpl; [|reflexivity].
  apply (f_equal (deferred _)).
  rewrite relocate_initialize.
  destruct (initialize m funcName) as [[funcSig idx]| |]; simpl;
    [|reflexivity|reflexivity].
  rewrite relocate_newParser.
  destruct excludeRoot.
  - rewrite relocate_processFunction.
    destruct (processFunction (readFile m) fuel6 funcSig 6 (newParser idx));
      simpl; [|reflexivity|reflexivity].
    by rewrite relocate_toString.
  - rewrite relocate_processFunction.
    destruct (processFunction (readFile m) fuel5 funcSig 5 (newParser idx));
      simpl; [|reflexivity|reflexivity].
    by rewrite relocate_toString.
Qed.

End Determinism.

(** A second run of the example module that loads every signature at twice
    its address and every package one address further returns the same
    document. *)
Lemma Parse_deterministic_witness :
  N.mul 2 0%N = 0%N
  ∧ pkgAddr (relocate_pkg (N.mul 2) N.succ fixtures.pkg_m) = 102%N
  ∧ Parse (relocate_world (N.mul 2) N.succ fixtures.m_world)
          "/src/m" "e" false false
    = Parse fixtures.m_world "/src/m" "e" false false.
Proof.
  split; [reflexivity|]. split; [reflexivity|].
  apply (@Parse_deterministic (N.mul 2) N.succ).
  - intros a b H. lia.
  - intros a b H. lia.
  - reflexivity.
Defined.

(** ** A run never lacks fuel *)

Lemma bind_fuel {A B : Type} (m : result A) (f : A → result B) :
  m ≠ OutOfFuel → (∀ a, f a ≠ OutOfFuel) → m ≫= f ≠ OutOfFuel.
Proof. destruct m as [a| |]; simpl; auto. Qed.

Lemma deferred_fuel {A : Type} (d : result unit) (body : result A) :
  d ≠ OutOfFuel → body ≠ OutOfFuel → deferred d body ≠ OutOfFuel.
Proof. destruct body, d as [[]| |]; simpl; congruence. Qed.

Lemma index_fuel {A : Type} (l : list A) (i : Z) : index l i ≠ OutOfFuel.
Proof.
  unfold index. destruct (i <? 0); [discriminate|].
  destruct (l !! Z.to_nat i); discriminate.
Qed.

Lemma parseGoModFile_fuel (m : Snapshot) : parseGoModFile m ≠ OutOfFuel.
Proof.
  unfold parseGoModFile. destruct (goMod m) as [content|]; [|discriminate].
  apply foldM_fuel. intros goModPaths line _.
  destruct (0 <? length (gostrings.Fields line))%nat; [|discriminate].
  apply bind_fuel; [apply index_fuel|]. intros pkg0.
  apply bind_fuel.
  - destruct (_ || _); [apply index_fuel|discriminate].
  - intros pkg1. destruct (_ && _); discriminate.
Qed.

Lemma initialize_fuel (m : Snapshot) (funcName : string) :
  initialize m funcName ≠ OutOfFuel.
Proof.
  unfold initialize. apply bind_fuel; [apply parseGoModFile_fuel|].
  intros goModPaths. apply bind_fuel.
  - unfold loadPackages. destruct (load m) as [pkgs|]; [|discriminate].
    destruct (length pkgs =? 0)%nat; discriminate.
  - intros pkgs. apply foldM_fuel. intros st pkg _. unfold scan_pkg.
    destruct (negb _); [discriminate|].
    apply bind_fuel.
    + apply foldM_fuel. intros st0 file0 _. apply foldM_fuel.
      intros st1 fn _. unfold scan_decl.
      destruct (Name fn) as [name|]; [|discriminate].
      destruct (ObjectOf pkg name) as [obj|]; [|discriminate].
      destruct (objType obj) as [sig|]; [|discriminate].
      destruct (sig =? 0)%N; [discriminate|].
      apply bind_fuel; [apply index_fuel|].
      intros root. destruct (_ && _); discriminate.
    + intros st'. apply bind_fuel; [apply index_fuel|].
      intros root. destruct (_ && _); discriminate.
Qed.

(** [Parse] gives its recursive traversal enough fuel: its result is a
    document or a panic. *)
Lemma Parse_fuel (w : World) (funcPkgPath funcName : string)
    (excludeRoot codeOnly : bool) :
  Parse w funcPkgPath funcName excludeRoot codeOnly ≠ OutOfFuel.
Proof.
  unfold Parse, changeDir.
  destruct (getwd w) as [curDir|]; [|discriminate].
  destruct (chdir w funcPkgPath) as [m|]; [|discriminate].
  cbn [mbind result_bind]. apply deferred_fuel.
  - destruct (restore w curDir); discriminate.
  - apply bind_fuel; [apply initialize_fuel|].
    intros [funcSig idx]. apply bind_fuel; [|discriminate].
    destruct excludeRoot; apply processFunction_fuel_enough;
      reflexivity || discriminate.
Qed.


(** * Further properties of the code *)

(** ** Module membership *)

Lemma prefix_cons (c d : ascii) (a b : string) :
  String.prefix (String c a) (String d b) =
    if ascii_dec c d then String.prefix a b else false.
Proof. reflexivity. Qed.

Lemma prefix_append (a b : string) :
  String.prefix a b = true ↔ ∃ s, b = a +:+ s.
Proof.
  revert b; induction a as [|c a IH]; intros b.
  - split; [intros _; by exists b|intros _; by destruct b].
  - destruct b as [|d b]; [split; [discriminate|intros (s & Hs); discriminate]|].
    rewrite prefix_cons. destruct (ascii_dec c d) as [->|Hne].
    + rewrite IH. split.
      * intros (s & ->). by exists s.
      * intros (s & Hs). rewrite append_cons in Hs. injection Hs as ->. by exists s.
    + split; [discriminate|]. intros (s & Hs). rewrite append_cons in Hs.
      injection Hs as Hcd _. by symmetry in Hcd.
Qed.

(** X1. [isGoModPkg] accepts a package path exactly when it is one of the
    given paths or one of them followed by a slash and more: a path that
    merely starts with the letters of a given path is not accepted. *)
Theorem isGoModPkg_subpackage (goModPaths : list string) (pkgPath : string) :
  isGoModPkg goModPaths pkgPath = true ↔
  ∃ path, path ∈ goModPaths ∧
          (pkgPath = path ∨ ∃ rest, pkgPath = path +:+ "/" +:+ rest).
Proof.
  rewrite isGoModPkg_listed. unfold listed_in, in_module, gostrings.HasPrefix.
  split.
  - intros (path & Hin & [Heq|Hpre]); exists path; split; auto.
    right. apply prefix_append in Hpre as (s & ->). exists s.
    by rewrite append_assoc.
  - intros (path & Hin & [Heq|(rest & ->)]); exists path; split; auto.
    right. apply prefix_append. exists rest. by rewrite append_assoc.
Qed.

(** ** The manifest *)

Lemma foldM_panic_iff {A B : Type} (bad : A → Prop) (e : error)
    (f : B → A → result B) (l : list A) (b : B) :
  (∀ b x, x ∈ l → (bad x ∧ f b x = Panic e) ∨ (¬ bad x ∧ ∃ b', f b x = Ok b')) →
  (foldM f l b = Panic e ↔ ∃ x, x ∈ l ∧ bad x)
  ∧ ((∀ x, x ∈ l → ¬ bad x) → ∃ b', foldM f l b = Ok b').
Proof.
  revert b; induction l as [|x l IH]; intros b Hf.
  - split.
    + split; [discriminate|]. intros (x & Hx & _). inversion Hx.
    + intros _. by exists b.
  - rewrite foldM_cons.
    destruct (Hf b x) as [[Hbad ->]|[Hgood (b1 & ->)]]; [left| |]; simpl.
    + split; [|intros Hall; exfalso; apply (Hall x); [left|exact Hbad]].
      split; [|reflexivity]. intros _. exists x. split; [left|exact Hbad].
    + destruct (IH b1) as (Hiff & Hok); [intros; apply Hf; by right|].
      split.
      * rewrite Hiff. split.
        -- intros (y & Hy & Hb). exists y. split; [by right|exact Hb].
        -- intros (y & Hy & Hb). apply elem_of_cons in Hy as [->|Hy];
             [contradiction|eauto].
      * intros Hall. apply Hok. intros; apply Hall; by right.
Qed.

(** One line of the manifest: the step of the loop of [parseGoModFile]. *)
Lemma parseGoModFile_line (line : string) :
  let step := λ goModPaths line,
    let fields := gostrings.Fields line in
    if (0 <? length fields)%nat then
      pkg ← index fields 0;
      pkg ← (if String.eqb pkg "module" || String.eqb pkg "require"
             then index fields 1 else Ok pkg);
      if negb (String.eqb pkg "") && negb (String.eqb pkg ")")
         && negb (String.eqb pkg "(")
         && negb (String.eqb pkg "require")
         && negb (String.eqb pkg "go")
      then Ok (goModPaths ++ [pkg])
      else Ok goModPaths
    else Ok goModPaths in
  ∀ goModPaths : list string,
    (lone_directive line ∧ step goModPaths line = Panic IndexOutOfRange)
    ∨ (¬ lone_directive line ∧
       (step goModPaths line = Ok goModPaths
        ∨ ∃ w, step goModPaths line = Ok (goModPaths ++ [w]) ∧
               ¬ filtered_word w ∧ w ∈ gostrings.Fields line)).
Proof.
  intros step goModPaths. unfold step, lone_directive, filtered_word.
  destruct (gostrings.Fields line) as [|w0 fields] eqn:Hfields.
  { right. split; [intros [?|?]; discriminate|]. by left. }
  change (0 <? length (w0 :: fields))%nat with true. cbv iota.
  change (index (w0 :: fields) 0) with (Ok (A:=string) w0).
  change (Ok w0 ≫= ?k) with (k w0). cbv beta.
  assert (Hfilter : ∀ w, w ∈ w0 :: fields →
    (if negb (String.eqb w "") && negb (String.eqb w ")")
        && negb (String.eqb w "(") && negb (String.eqb w "require")
        && negb (String.eqb w "go")
     then Ok (goModPaths ++ [w]) else Ok goModPaths) = Ok goModPaths
    ∨ ∃ w', (if negb (String.eqb w "") && negb (String.eqb w ")")
                && negb (String.eqb w "(") && negb (String.eqb w "require")
                && negb (String.eqb w "go")
             then Ok (goModPaths ++ [w]) else Ok goModPaths)
            = Ok (goModPaths ++ [w']) ∧
            ¬ (w' = "" ∨ w' = ")" ∨ w' = "(" ∨ w' = "require" ∨ w' = "go") ∧
            w' ∈ w0 :: fields).
  { intros w Hw.
    destruct (String.eqb w "") eqn:E1; [by left|].
    destruct (String.eqb w ")") eqn:E2; [by left|].
    destruct (String.eqb w "(") eqn:E3; [by left|].
    destruct (String.eqb w "require") eqn:E4; [by left|].
    destruct (String.eqb w "go") eqn:E5; [by left|].
    right. exists w. split; [reflexivity|]. split; [|exact Hw].
    apply String.eqb_neq in E1, E2, E3, E4, E5. tauto. }
  destruct (String.eqb w0 "module" || String.eqb w0 "require") eqn:Hdir.
  - destruct fields as [|w1 fields].
    + left. split; [|reflexivity].
      apply orb_true_iff in Hdir as [H|H]; apply String.eqb_eq in H; subst; auto.
    + right. split; [intros [?|?]; discriminate|].
      change (index (w0 :: w1 :: fields) 1) with (Ok (A:=string) w1).
      change (Ok w1 ≫= ?k) with (k w1). cbv beta.
      apply Hfilter. right; left.
  - right. split.
    + apply orb_false_iff in Hdir as [H1 H2].
      apply String.eqb_neq in H1, H2. intros [[= -> _]|[= -> _]]; congruence.
    + change (Ok w0 ≫= ?k) with (k w0). cbv beta. apply Hfilter. left.
Qed.

(** X2. A manifest that can be read makes [parseGoModFile] panic, on an
    index out of range, exactly when one of its lines consists of the single
    word [module] or [require]; when no line does, [parseGoModFile] returns
    a list of paths. *)
Theorem parseGoModFile_lone_directive (m : Snapshot) (content : string) :
  goMod m = Some content →
  (parseGoModFile m = Panic IndexOutOfRange ↔
   ∃ line, line ∈ gostrings.Split content ∧ lone_directive line)
  ∧ ((∀ line, line ∈ gostrings.Split content → ¬ lone_directive line) →
     ∃ goModPaths, parseGoModFile m = Ok goModPaths).
Proof.
  intros Hmod. unfold parseGoModFile. rewrite Hmod.
  apply foldM_panic_iff. intros goModPaths line _.
  destruct (parseGoModFile_line line goModPaths)
    as [[Hbad Hstep]|[Hgood [Hstep|(w & Hstep & _)]]].
  - left. split; [exact Hbad|exact Hstep].
  - right. split; [exact Hgood|]. eexists. exact Hstep.
  - right. split; [exact Hgood|]. eexists. exact Hstep.
Qed.

Lemma parseGoModFile_lone_directive_witness :
  goMod more_fixtures.lone_require_snapshot
    = Some (fixtures.file_text ["module m"; ""; "require"])
  ∧ parseGoModFile more_fixtures.lone_require_snapshot = Panic IndexOutOfRange.
Proof.
  split; [reflexivity|].
  apply (parseGoModFile_lone_directive more_fixtures.lone_require_snapshot
           (fixtures.file_text ["module m"; ""; "require"]) eq_refl).
  exists "require". split.
  - apply (bool_decide_unpack _). vm_compute. reflexivity.
  - right. vm_compute. reflexivity.
Defined.

(** [strings.Fields] splits at the white space of Unicode: a no-break space
    separates fields, and a [require] followed only by one is a lone
    directive. *)
Example parseGoModFile_no_break_space :
  gostrings.Fields ("module" +:+ more_fixtures.NBSP +:+ "m") = ["module"; "m"]
  ∧ gostrings.Fields ("require" +:+ more_fixtures.NBSP) = ["require"]
  ∧ parseGoModFile more_fixtures.nbsp_snapshot = Panic IndexOutOfRange.
Proof. repeat split; vm_compute; reflexivity. Qed.

(** X3. Every path that [parseGoModFile] returns is a field of a line of
    the manifest, and is none of the words [""], [")"], ["("], ["require"]
    and ["go"]. *)
Theorem parseGoModFile_paths (m : Snapshot) (content : string)
    (goModPaths : list string) :
  goMod m = Some content →
  parseGoModFile m = Ok goModPaths →
  ∀ path, path ∈ goModPaths →
    ¬ filtered_word path ∧
    ∃ line, line ∈ gostrings.Split content ∧ path ∈ gostrings.Fields line.
Proof.
  intros Hmod. unfold parseGoModFile. rewrite Hmod.
  apply (foldM_invariant (λ goModPaths : list string,
    ∀ path, path ∈ goModPaths →
      ¬ filtered_word path ∧
      ∃ line, line ∈ gostrings.Split content ∧ path ∈ gostrings.Fields line)).
  - intros paths line paths' Hline Hinv Hstep.
    destruct (parseGoModFile_line line paths)
      as [[_ Hp]|[_ [Hp|(w & Hp & Hw & Hin)]]];
      cbv zeta in Hp; rewrite Hp in Hstep; [discriminate| |].
    + by injection Hstep as <-.
    + injection Hstep as <-. intros path Hpath.
      apply elem_of_app in Hpath as [Hpath|Hpath]; [by apply Hinv|].
      apply list_elem_of_singleton in Hpath. subst path. split; eauto.
  - intros path Hpath. inversion Hpath.
Qed.

Lemma parseGoModFile_paths_witness :
  parseGoModFile fixtures.m_snapshot = Ok ["m"; "github.com/x/y"]
  ∧ ∀ path, path ∈ ["m"; "github.com/x/y"] →
      ¬ filtered_word path ∧
      ∃ line,
        line ∈ gostrings.Split
                 (fixtures.file_text ["module m"; ""; "go 1.21"; "";
                                      "require github.com/x/y v1.0.0"]) ∧
        path ∈ gostrings.Fields line.
Proof.
  split; [vm_compute; reflexivity|].
  apply (parseGoModFile_paths fixtures.m_snapshot
           (fixtures.file_text ["module m"; ""; "go 1.21"; "";
                                "require github.com/x/y v1.0.0"])
           ["m"; "github.com/x/y"]).
  - reflexivity.
  - vm_compute; reflexivity.
Defined.

(** ** The source slicer: every case *)

Lemma index_cases {A : Type} (l : list A) (i : Z) :
  (∃ x, l !! Z.to_nat i = Some x ∧ 0 ≤ i ∧ index l i = Ok x)
  ∨ index l i = Panic IndexOutOfRange.
Proof.
  unfold index. destruct (i <? 0) eqn:Hneg; [by right|].
  destruct (l !! Z.to_nat i) as [x|]; [|by right].
  left. exists x. repeat split. lia.
Qed.

Lemma writeLines_panic (lines : list string) (from to : Z) (sb : string) :
  from ≤ to → ¬ (0 ≤ from ∧ to < Z.of_nat (length lines)) →
  writeLines lines from to sb = Panic IndexOutOfRange.
Proof.
  intros Hle Hout. unfold writeLines.
  remember (Z.to_nat (to - from + 1)) as n eqn:En.
  revert from sb Hle Hout En. induction n as [|n IH]; intros from sb Hle Hout En;
    [lia|].
  rewrite seqZ_cons by lia. rewrite foldM_cons.
  destruct (index_cases lines from) as [(l & Hl & H0 & ->)| ->]; [|reflexivity].
  apply lookup_lt_Some in Hl.
  change (Ok l ≫= ?k) with (k l). cbv beta.
  change (Ok ?x ≫= ?k) with (k x).
  replace (Z.pred (to - from + 1)) with (to - Z.succ from + 1) by lia.
  apply (IH (Z.succ from)); lia.
Qed.

Lemma writeLines_spec (lines : list string) (from to : Z) (sb : string) :
  writeLines lines from to sb =
    if range_ok (length lines) (from, to)
    then Ok (sb +:+ lines_text lines from to)
    else Panic IndexOutOfRange.
Proof.
  unfold range_ok. simpl. destruct (to <? from) eqn:Hempty; simpl.
  - unfold writeLines. rewrite seqZ_nil by lia. simpl.
    by rewrite lines_text_empty, append_nil_r by lia.
  - destruct ((0 <=? from) && (to <? Z.of_nat (length lines))) eqn:Hin.
    + apply writeLines_ok; lia.
    + apply writeLines_panic; lia.
Qed.

Lemma writeComments_spec (fset : FileSet) (lines : list string)
    (comments : list (option Comment)) (sb : string) :
  let ranges := omap (fmap (comment_range fset)) comments in
  writeComments fset lines comments sb =
    if forallb (range_ok (length lines)) ranges
    then Ok (sb +:+ join (map (λ r, lines_text lines r.1 r.2) ranges))
    else Panic IndexOutOfRange.
Proof.
  unfold writeComments. revert sb.
  induction comments as [|[c|] comments IH]; intros sb.
  - simpl. by rewrite append_nil_r.
  - rewrite foldM_cons, writeLines_spec.
    change (omap (fmap (comment_range fset)) (Some c :: comments))
      with (comment_range fset c :: omap (fmap (comment_range fset)) comments).
    cbn [forallb map join].
    change (range_ok (length lines)
              (Line (fset (Comment_Pos c)) - 1, Line (fset (Comment_End c)) - 1))
      with (range_ok (length lines) (comment_range fset c)).
    destruct (range_ok (length lines) (comment_range fset c)); [|reflexivity].
    cbn [andb]. change (Ok ?x ≫= ?k) with (k x). cbv beta.
    rewrite IH. cbv zeta.
    destruct (forallb _ _); [|reflexivity].
    by rewrite append_assoc.
  - rewrite foldM_cons. change (Ok sb ≫= ?k) with (k sb). cbv beta.
    apply IH.
Qed.

(** X4. What [extractSourceCode] returns in every case.  When the file
    cannot be read it returns an error.  Otherwise it writes, for every
    non-nil comment of the documentation block in order and then for the
    declaration, the lines of the file from the first to the last line of
    that comment or declaration, each followed by a newline (two comments
    that share a line write it twice); it panics, on an index out of range,
    as soon as one of these ranges is not empty and names a line that the
    file does not have. *)
Theorem extractSourceCode_ranges (readFile : string → option string)
    (fset : FileSet) (file : File) (fn : FuncDecl) :
  extractSourceCode readFile fset file fn =
    match readFile (Filename (fset (FuncDecl_Pos fn))) with
    | None => Ok ("", Some SourceReadFailure)
    | Some fileContent =>
        let lines := gostrings.Split fileContent in
        if forallb (range_ok (length lines)) (written_ranges fset fn)
        then Ok (join (map (λ r, lines_text lines r.1 r.2)
                           (written_ranges fset fn)), None)
        else Panic IndexOutOfRange
    end.
Proof.
  unfold extractSourceCode, written_ranges.
  destruct (readFile _) as [fileContent|]; [|reflexivity].
  cbv zeta. rewrite forallb_app, map_app, join_app.
  set (lines := gostrings.Split fileContent).
  assert (Hdoc : match Doc fn with
                 | Some comments => writeComments fset lines comments ""
                 | None => Ok ""
                 end =
                 let ranges := match Doc fn with
                               | Some comments =>
                                   omap (fmap (comment_range fset)) comments
                               | None => []
                               end in
                 if forallb (range_ok (length lines)) ranges
                 then Ok (join (map (λ r, lines_text lines r.1 r.2) ranges))
                 else Panic IndexOutOfRange).
  { destruct (Doc fn) as [comments|]; [|reflexivity].
    rewrite writeComments_spec. cbv zeta.
    destruct (forallb _ _); reflexivity. }
  rewrite Hdoc. cbv zeta.
  destruct (forallb (range_ok (length lines)) _); [|reflexivity].
  change (Ok ?x ≫= ?k) with (k x). cbv beta.
  rewrite writeLines_spec. cbn [forallb map join andb].
  destruct (range_ok _ _); [|reflexivity].
  cbn [fst snd]. change (Ok ?x ≫= ?k) with (k x). cbv beta.
  by rewrite append_nil_r.
Qed.

(** ** Fatal failures of the walker *)

Lemma visit_passed_over (readFile : string → option string)
    (rec : N → Z → parser → result parser) (f : fileAndPkg) (funcSig : N)
    (depth : Z) (p : parser) (fn : FuncDecl) :
  passed_over (pkg f) funcSig fn →
  visit_decl readFile rec f funcSig depth p fn = Ok p.
Proof.
  unfold visit_decl. intros [->|(name & obj & -> & -> & Htype)]; [reflexivity|].
  destruct (objType obj) as [sig|]; [|reflexivity].
  destruct (sig =? funcSig)%N eqn:E; [|reflexivity].
  apply N.eqb_eq in E. congruence.
Qed.

Lemma visit_passed_over_all (readFile : string → option string)
    (rec : N → Z → parser → result parser) (f : fileAndPkg) (funcSig : N)
    (depth : Z) (p : parser) (pre rest : list FuncDecl) :
  Forall (passed_over (pkg f) funcSig) pre →
  foldM (visit_decl readFile rec f funcSig depth) (pre ++ rest) p =
  foldM (visit_decl readFile rec f funcSig depth) rest p.
Proof.
  induction 1 as [|fn pre Hfn _ IH]; [reflexivity|].
  simpl. by rewrite visit_passed_over.
Qed.

Lemma visit_decl_carrier (readFile : string → option string)
    (rec : N → Z → parser → result parser) (f : fileAndPkg) (funcSig : N)
    (depth : Z) (p : parser) (fn : FuncDecl) :
  decl_sig (pkg f) fn = Some funcSig →
  visit_decl readFile rec f funcSig depth p fn =
    extractSourceCode readFile (Fset (pkg f)) (file f) fn ≫=
      λ '(funcSrc, err),
        match err with
        | Some e => Panic e
        | None =>
            processUnderlyingFunctions rec (pkg f) fn (int_pred depth)
              (record_function f funcSig funcSrc p)
        end.
Proof.
  unfold visit_decl, decl_sig.
  destruct (Name fn) as [name|]; [|discriminate]. simpl.
  destruct (ObjectOf (pkg f) name) as [obj|]; [|discriminate]. simpl.
  destruct (objType obj) as [sig|]; [|discriminate]. intros [= ->].
  by rewrite N.eqb_refl.
Qed.

Lemma visit_decl_nil_object (readFile : string → option string)
    (rec : N → Z → parser → result parser) (f : fileAndPkg) (funcSig : N)
    (depth : Z) (p : parser) (fn : FuncDecl) (name : Ident) :
  Name fn = Some name → ObjectOf (pkg f) name = None →
  visit_decl readFile rec f funcSig depth p fn = Panic NilDereference.
Proof. intros Hn Ho. unfold visit_decl. by rewrite Hn, Ho. Qed.

(** X5. A source file that cannot be read when a function is sliced is
    fatal: when [processFunction] visits an indexed function that is not
    yet seen, reaches the declaration that carries its signature (the
    declarations of the file before it being passed over) and the file of
    that declaration cannot be read, it panics with the read error, whatever
    the depth. *)
Theorem processFunction_source_unreadable (readFile : string → option string)
    (fuel : nat) (funcSig : N) (depth : Z) (p : parser) (f : fileAndPkg)
    (pre post : list FuncDecl) (fn : FuncDecl) :
  funcSig ∉ seen p →
  funcToFileAndPkg p !! funcSig = Some f →
  Decls (file f) = pre ++ fn :: post →
  Forall (passed_over (pkg f) funcSig) pre →
  decl_sig (pkg f) fn = Some funcSig →
  readFile (Filename (Fset (pkg f) (FuncDecl_Pos fn))) = None →
  processFunction readFile (S fuel) funcSig depth p = Panic SourceReadFailure.
Proof.
  intros Hseen Hf Hdecls Hpre Hsig Hread. simpl.
  rewrite bool_decide_eq_false_2 by exact Hseen. rewrite Hf, Hdecls.
  rewrite visit_passed_over_all by exact Hpre. rewrite foldM_cons.
  rewrite visit_decl_carrier by exact Hsig.
  unfold extractSourceCode. rewrite Hread. reflexivity.
Qed.

Lemma processFunction_source_unreadable_witness :
  fixtures.m_index !! fixtures.sig_e
    = Some {| file := fixtures.m_file; pkg := fixtures.pkg_m |}
  ∧ processFunction more_fixtures.no_files 1 fixtures.sig_e 5
      (newParser fixtures.m_index) = Panic SourceReadFailure.
Proof.
  split; [vm_compute; reflexivity|].
  apply (processFunction_source_unreadable more_fixtures.no_files 0
           fixtures.sig_e 5 (newParser fixtures.m_index)
           {| file := fixtures.m_file; pkg := fixtures.pkg_m |}
           []
           [fixtures.oneliner fixtures.m_lines 4 "h"
              [IdentExpr (Some (fixtures.called fixtures.m_lines 4 "e"));
               SelectorExpr (Some (fixtures.called fixtures.m_lines 4 "F1"))]]
           (fixtures.oneliner fixtures.m_lines 2 "e"
              [IdentExpr (Some (fixtures.called fixtures.m_lines 2 "h"))])).
  - apply not_elem_of_empty.
  - vm_compute; reflexivity.
  - reflexivity.
  - constructor.
  - vm_compute; reflexivity.
  - reflexivity.
Defined.

(** X6. A declaration whose name has no object in the type information is
    skipped by [initialize] but is fatal to [processFunction]: when the
    walker looks in an indexed file for a function that is not yet seen and
    meets such a declaration before the one it looks for, it panics on a nil
    dereference. *)
Theorem nil_object_skipped_then_fatal (readFile : string → option string)
    (goModPaths : list string) (funcName : string)
    (st : N * gmap N fileAndPkg)
    (fuel : nat) (funcSig : N) (depth : Z) (p : parser) (f : fileAndPkg)
    (pre post : list FuncDecl) (fn : FuncDecl) (name : Ident) :
  Name fn = Some name →
  ObjectOf (pkg f) name = None →
  funcSig ∉ seen p →
  funcToFileAndPkg p !! funcSig = Some f →
  Decls (file f) = pre ++ fn :: post →
  Forall (passed_over (pkg f) funcSig) pre →
  scan_decl goModPaths funcName (pkg f) (file f) st fn = Ok st
  ∧ processFunction readFile (S fuel) funcSig depth p = Panic NilDereference.
Proof.
  intros Hname Hobj Hseen Hf Hdecls Hpre. split.
  - unfold scan_decl. by rewrite Hname, Hobj.
  - simpl. rewrite bool_decide_eq_false_2 by exact Hseen. rewrite Hf, Hdecls.
    rewrite visit_passed_over_all by exact Hpre. rewrite foldM_cons.
    by rewrite (visit_decl_nil_object _ _ _ _ _ _ _ name).
Qed.

Lemma nil_object_skipped_then_fatal_witness :
  initialize more_fixtures.n_snapshot "good"
    = Ok (more_fixtures.sig_good, more_fixtures.n_index)
  ∧ more_fixtures.n_index !! more_fixtures.sig_good
    = Some {| file := more_fixtures.n_file; pkg := more_fixtures.pkg_n |}
  ∧ scan_decl ["n"] "good" more_fixtures.pkg_n more_fixtures.n_file
      (0%N, ∅) (fixtures.oneliner more_fixtures.n_lines 2 "broken" [])
    = Ok (0%N, ∅)
  ∧ processFunction more_fixtures.n_files (fuel_of 5) more_fixtures.sig_good 5
      (newParser more_fixtures.n_index) = Panic NilDereference.
Proof.
  split; [vm_compute; reflexivity|]. split; [vm_compute; reflexivity|].
  apply (nil_object_skipped_then_fatal more_fixtures.n_files ["n"] "good"
           (0%N, ∅) 5 more_fixtures.sig_good 5
           (newParser more_fixtures.n_index)
           {| file := more_fixtures.n_file; pkg := more_fixtures.pkg_n |}
           [] [fixtures.oneliner more_fixtures.n_lines 4 "good" []]
           (fixtures.oneliner more_fixtures.n_lines 2 "broken" [])
           {| NamePos := fixtures.line_pos more_fixtures.n_lines 2 + 5;
              IdentName := "broken" |}).
  - reflexivity.
  - reflexivity.
  - apply not_elem_of_empty.
  - vm_compute; reflexivity.
  - reflexivity.
  - constructor.
Defined.

(** ** The document for any number of packages *)


(** ** The walker: what a visit leaves behind *)

Lemma foldM_fixed {A B : Type} (f : B → A → result B) (l : list A) (b : B) :
  (∀ x, x ∈ l → f b x = Ok b) → foldM f l b = Ok b.
Proof.
  induction l as [|x l IH]; intros Hf; [reflexivity|].
  rewrite foldM_cons, (Hf x) by left. simpl. apply IH.
  intros y Hy. apply Hf. by right.
Qed.

(** The loop over the declarations either records the function, or passes
    over every declaration and leaves the parser as it is. *)
Lemma visit_decls_outcome (readFile : string → option string) (fuel : nat)
    (f : fileAndPkg) (funcSig : N) (depth : Z) (decls : list FuncDecl)
    (p p' : parser) :
  foldM (visit_decl readFile (processFunction readFile fuel) f funcSig depth)
        decls p = Ok p' →
  funcSig ∈ seen p' ∨ (p' = p ∧ Forall (passed_over (pkg f) funcSig) decls).
Proof.
  revert p. induction decls as [|fn decls IH]; intros p.
  - intros [= <-]. right. split; [reflexivity|constructor].
  - rewrite foldM_cons. intros (p1 & H1 & H2)%bind_Ok.
    destruct (decide (decl_sig (pkg f) fn = Some funcSig)) as [Hsig|Hsig].
    + left. rewrite visit_decl_carrier in H1 by exact Hsig.
      apply bind_Ok in H1 as ([funcSrc err] & _ & H1).
      destruct err as [e|]; [discriminate|].
      apply (processUnderlyingFunctions_walk readFile) in H1;
        [|apply processFunction_walk].
      apply (walk_calls_extends readFile) in H1 as (_ & _ & _ & Hs1).
      apply (visit_decls_walk readFile) in H2; [|apply processFunction_walk].
      apply (walk_decls_extends readFile) in H2 as (_ & _ & _ & Hs2).
      apply Hs2, Hs1. simpl. apply elem_of_union. left.
      by apply elem_of_singleton.
    + assert (Hp : p1 = p ∧ passed_over (pkg f) funcSig fn).
      { revert H1 Hsig. unfold visit_decl, decl_sig, passed_over.
        destruct (Name fn) as [name|]; simpl; [|intros [= <-]; auto].
        destruct (ObjectOf (pkg f) name) as [obj|] eqn:Ho; simpl;
          [|discriminate].
        destruct (objType obj) as [sig|] eqn:Ht.
        - destruct (sig =? funcSig)%N eqn:E; simpl.
          + apply N.eqb_eq in E. subst sig. intros _ Habs. by destruct Habs.
          + intros [= <-] _. split; [reflexivity|]. right.
            exists name, obj. repeat split; auto. rewrite Ht.
            apply N.eqb_neq in E. congruence.
        - intros [= <-] _. split; [reflexivity|]. right.
          exists name, obj. repeat split; auto. by rewrite Ht. }
      destruct Hp as [-> Hpass].
      destruct (IH p H2) as [Hin|[-> Hall]]; [by left|right].
      split; [reflexivity|by constructor].
Qed.

(** X8. A second visit changes nothing: once [processFunction] has returned
    for a signature, calling it again for that signature, at any depth,
    returns the parser as it is.  This is what ends the walk on recursive
    functions and keeps a function reached along two paths from being
    extracted twice. *)
Theorem processFunction_revisit (readFile : string → option string)
    (fuel fuel' : nat) (funcSig : N) (depth depth' : Z) (p p' : parser) :
  processFunction readFile fuel funcSig depth p = Ok p' →
  processFunction readFile (S fuel') funcSig depth' p' = Ok p'.
Proof.
  destruct fuel as [|fuel]; [discriminate|].
  cbn [processFunction]. case_bool_decide as Hseen.
  - intros [= <-]. by rewrite bool_decide_eq_true_2.
  - destruct (funcToFileAndPkg p !! funcSig) as [f|] eqn:Hf.
    + intros Hloop.
      destruct (visit_decls_outcome _ _ _ _ _ _ _ _ Hloop) as [Hin|[-> Hall]].
      * by rewrite bool_decide_eq_true_2.
      * rewrite bool_decide_eq_false_2 by exact Hseen. rewrite Hf.
        rewrite <- (app_nil_r (Decls (file f))).
        by rewrite visit_passed_over_all.
    + intros [= <-]. rewrite bool_decide_eq_false_2 by exact Hseen.
      by rewrite Hf.
Qed.

Lemma processFunction_revisit_witness :
  processFunction fixtures.m_files (fuel_of 5) fixtures.sig_e 5
    (newParser fixtures.m_index) = Ok (fixtures.m_run 5)
  ∧ processFunction fixtures.m_files 1 fixtures.sig_e 3 (fixtures.m_run 5)
    = Ok (fixtures.m_run 5).
Proof.
  assert (H : processFunction fixtures.m_files (fuel_of 5) fixtures.sig_e 5
                (newParser fixtures.m_index) = Ok (fixtures.m_run 5))
    by (vm_compute; reflexivity).
  split; [exact H|].
  exact (processFunction_revisit fixtures.m_files (fuel_of 5) 0
           fixtures.sig_e 5 3 (newParser fixtures.m_index)
           (fixtures.m_run 5) H).
Defined.

Lemma appends_record (f : fileAndPkg) (funcSig : N) (funcSrc : string)
    (p : parser) (pkg0 : Package) :
  ∃ s, functions_at (record_function f funcSig funcSrc p) pkg0 =
       functions_at p pkg0 +:+ s.
Proof.
  unfold functions_at at 1. simpl.
  destruct (decide (pkgAddr (pkg f) = pkgAddr pkg0)) as [Heq|Hne].
  - rewrite Heq, lookup_insert_eq. simpl. exists (LF +:+ funcSrc).
    unfold functions_at. by rewrite Heq.
  - rewrite lookup_insert_ne by exact Hne. exists "".
    unfold functions_at. by rewrite append_nil_r.
Qed.

(** X9. The walker only adds: a run of [processFunction] that returns
    leaves the index as it was, keeps every signature that was seen, keeps
    the order of the packages already listed (new ones are appended), and
    keeps the text accumulated for every package as the beginning of its
    new text. *)
Theorem processFunction_append_only (readFile : string → option string)
    (fuel : nat) (funcSig : N) (depth : Z) (p p' : parser) :
  processFunction readFile fuel funcSig depth p = Ok p' →
  funcToFileAndPkg p' = funcToFileAndPkg p
  ∧ seen p ⊆ seen p'
  ∧ (∃ pkgs, pkgOrder p' = pkgOrder p ++ pkgs)
  ∧ (∀ pkg, ∃ s, functions_at p' pkg = functions_at p pkg +:+ s).
Proof.
  intros Hw%processFunction_walk.
  destruct (walk_extends _ _ _ _ _ Hw) as (Hidx & _ & Hord & Hseen).
  repeat split; auto.
  destruct (walk_preserves readFile
              (λ p p', ∀ pkg, ∃ s, functions_at p' pkg = functions_at p pkg +:+ s))
    as (H & _ & _); [| | |by eapply H].
  - intros q pkg0. exists "". by rewrite append_nil_r.
  - intros p1 p2 p3 H12 H23 pkg0.
    destruct (H12 pkg0) as [s1 E1]. destruct (H23 pkg0) as [s2 E2].
    exists (s1 +:+ s2). by rewrite E2, E1, append_assoc.
  - intros f sig src q pkg0. apply appends_record.
Qed.

Lemma processFunction_append_only_witness :
  processFunction fixtures.m_files (fuel_of 1) fixtures.sig_F1 1
    (fixtures.m_run 2) = Ok (fixtures.m_run 3)
  ∧ ∃ s, functions_at (fixtures.m_run 3) fixtures.pkg_m =
         functions_at (fixtures.m_run 2) fixtures.pkg_m +:+ s.
Proof.
  assert (H : processFunction fixtures.m_files (fuel_of 1) fixtures.sig_F1 1
                (fixtures.m_run 2) = Ok (fixtures.m_run 3))
    by (vm_compute; reflexivity).
  split; [exact H|].
  apply (processFunction_append_only fixtures.m_files (fuel_of 1)
           fixtures.sig_F1 1 (fixtures.m_run 2) (fixtures.m_run 3) H).
Defined.

(** ** The walker: the parser and its history *)

Lemma first_reached_snoc (log : list (N * N * string)) (e : N * N * string) :
  first_reached (log ++ [e]) =
    if decide (entry_pkg e ∈ first_reached log) then first_reached log
    else first_reached log ++ [entry_pkg e].
Proof. unfold first_reached. by rewrite foldl_app. Qed.

Lemma ordered_newParser (idx : gmap N fileAndPkg) : ordered (newParser idx).
Proof. split; [apply consistent_newParser|reflexivity]. Qed.

Lemma ordered_record (f : fileAndPkg) (funcSig : N) (funcSrc : string)
    (p : parser) :
  ordered p → ordered (record_function f funcSig funcSrc p).
Proof.
  intros [Hc Ho]. split; [by apply consistent_record|].
  simpl. rewrite first_reached_snoc. unfold entry_pkg at 1 3; simpl.
  rewrite <- Ho.
  pose proof (consistent_order p Hc (pkgAddr (pkg f))) as Hiff.
  destruct (functions p !! pkgAddr (pkg f)) as [s|] eqn:Hs.
  - rewrite decide_True; [reflexivity|]. apply Hiff. eauto.
  - rewrite decide_False; [by rewrite map_app|].
    intros Hin. apply Hiff in Hin. by destruct Hin.
Qed.

Lemma walk_ordered (readFile : string → option string) (funcSig : N)
    (depth : Z) (p p' : parser) :
  walk readFile funcSig depth p p' → ordered p → ordered p'.
Proof.
  intros Hw.
  destruct (walk_preserves readFile (λ p p', ordered p → ordered p'))
    as (H & _ & _); eauto using ordered_record.
Qed.

(** X10. The bookkeeping of a traversal.  In the parser that a traversal
    from a new parser returns: no package is listed twice in [pkgOrder]; the
    packages listed are exactly those with an entry in [functions]; the
    signatures seen are exactly those of the functions extracted; and the
    text of every package is the concatenation, in the order of extraction,
    of the sources sliced for its functions, each preceded by a newline. *)
Theorem traversal_bookkeeping (readFile : string → option string)
    (idx : gmap N fileAndPkg) (fuel : nat) (e : N) (depth : Z) (p' : parser) :
  processFunction readFile fuel e depth (newParser idx) = Ok p' →
  NoDup (map pkgAddr (pkgOrder p'))
  ∧ (∀ a, a ∈ map pkgAddr (pkgOrder p') ↔ is_Some (functions p' !! a))
  ∧ (∀ sig, sig ∈ seen p' ↔ sig ∈ visited p')
  ∧ (∀ pkg, functions_at p' pkg =
            join (map (λ en, LF +:+ entry_src en)
                      (filter (λ en, entry_pkg en = pkgAddr pkg)
                              (extracted p')))).
Proof.
  intros Hw%processFunction_walk.
  apply walk_consistent in Hw; [|apply consistent_newParser].
  split; [apply (consistent_nodup p' Hw)|].
  split; [apply (consistent_order p' Hw)|].
  split; [apply (consistent_seen p' Hw)|].
  intros pkg0. by rewrite functions_at_text.
Qed.

Lemma traversal_bookkeeping_witness :
  processFunction fixtures.m_files (fuel_of 5) fixtures.sig_e 5
    (newParser fixtures.m_index) = Ok (fixtures.m_run 5)
  ∧ NoDup (map pkgAddr (pkgOrder (fixtures.m_run 5))).
Proof.
  assert (H : processFunction fixtures.m_files (fuel_of 5) fixtures.sig_e 5
                (newParser fixtures.m_index) = Ok (fixtures.m_run 5))
    by (vm_compute; reflexivity).
  split; [exact H|].
  apply (traversal_bookkeeping fixtures.m_files fixtures.m_index (fuel_of 5)
           fixtures.sig_e 5 (fixtures.m_run 5) H).
Defined.

(** X11. Where the extracted text comes from.  Every function that a
    traversal from a new parser records is an indexed function; it is filed
    under the package that the index gives to its signature, and its text
    is what [extractSourceCode] returns for a declaration of its indexed
    file that carries its signature. *)
Theorem extracted_provenance (readFile : string → option string)
    (idx : gmap N fileAndPkg) (fuel : nat) (e : N) (depth : Z) (p' : parser) :
  processFunction readFile fuel e depth (newParser idx) = Ok p' →
  ∀ a sig src, (a, sig, src) ∈ extracted p' →
    ∃ f fn,
      idx !! sig = Some f ∧ a = pkgAddr (pkg f) ∧
      fn ∈ Decls (file f) ∧ decl_sig (pkg f) fn = Some sig ∧
      extractSourceCode readFile (Fset (pkg f)) (file f) fn = Ok (src, None).
Proof.
  intros Hw%processFunction_walk a sig src Hen.
  destruct (walk_sourced readFile idx) as (H & _ & _).
  apply (H _ _ _ _ Hw eq_refl) in Hen; [exact Hen|].
  intros en Habs. inversion Habs.
Qed.

Lemma extracted_provenance_witness :
  processFunction fixtures.m_files (fuel_of 5) fixtures.sig_e 5
    (newParser fixtures.m_index) = Ok (fixtures.m_run 5)
  ∧ (pkgAddr fixtures.pkg_a, fixtures.sig_F1, "func F1() { F2() }" +:+ LF)
      ∈ extracted (fixtures.m_run 5)
  ∧ ∃ f fn,
      fixtures.m_index !! fixtures.sig_F1 = Some f ∧
      pkgAddr fixtures.pkg_a = pkgAddr (pkg f) ∧
      fn ∈ Decls (file f) ∧ decl_sig (pkg f) fn = Some fixtures.sig_F1 ∧
      extractSourceCode fixtures.m_files (Fset (pkg f)) (file f) fn
        = Ok ("func F1() { F2() }" +:+ LF, None).
Proof.
  assert (H : processFunction fixtures.m_files (fuel_of 5) fixtures.sig_e 5
                (newParser fixtures.m_index) = Ok (fixtures.m_run 5))
    by (vm_compute; reflexivity).
  assert (Hin : (pkgAddr fixtures.pkg_a, fixtures.sig_F1,
                 "func F1() { F2() }" +:+ LF) ∈ extracted (fixtures.m_run 5))
    by (apply (bool_decide_unpack _); vm_compute; reflexivity).
  split; [exact H|]. split; [exact Hin|].
  exact (extracted_provenance fixtures.m_files fixtures.m_index (fuel_of 5)
           fixtures.sig_e 5 (fixtures.m_run 5) H _ _ _ Hin).
Defined.

(** X12. The order of the packages in the document.  After a traversal
    from a new parser, [pkgOrder] lists the packages in the order in which
    the traversal first extracted a function of each. *)
Theorem pkgOrder_first_reached (readFile : string → option string)
    (idx : gmap N fileAndPkg) (fuel : nat) (e : N) (depth : Z) (p' : parser) :
  processFunction readFile fuel e depth (newParser idx) = Ok p' →
  map pkgAddr (pkgOrder p') = first_reached (extracted p').
Proof.
  intros Hw%processFunction_walk.
  by apply walk_ordered in Hw as [_ Ho]; [|apply ordered_newParser].
Qed.

Lemma pkgOrder_first_reached_witness :
  processFunction fixtures.m_files (fuel_of 5) fixtures.sig_e 5
    (newParser fixtures.m_index) = Ok (fixtures.m_run 5)
  ∧ map pkgAddr (pkgOrder (fixtures.m_run 5))
    = first_reached (extracted (fixtures.m_run 5)).
Proof.
  assert (H : processFunction fixtures.m_files (fuel_of 5) fixtures.sig_e 5
                (newParser fixtures.m_index) = Ok (fixtures.m_run 5))
    by (vm_compute; reflexivity).
  split; [exact H|].
  exact (pkgOrder_first_reached fixtures.m_files fixtures.m_index (fuel_of 5)
           fixtures.sig_e 5 (fixtures.m_run 5) H).
Defined.

(** X13. No function is extracted twice.  On an index in which no two
    declarations of a file carry the same signature, the functions that a
    traversal from a new parser extracts are pairwise distinct, whatever
    the shape of the call graph: a function called from several places, or
    one that calls itself through other functions, is extracted once. *)
Theorem traversal_no_repeat (readFile : string → option string)
    (idx : gmap N fileAndPkg) (fuel : nat) (e : N) (depth : Z) (p' : parser) :
  unique_decls idx →
  processFunction readFile fuel e depth (newParser idx) = Ok p' →
  NoDup (visited p').
Proof.
  intros Hunique Hw%processFunction_walk.
  destruct (walk_nodup readFile idx Hunique) as (H & _ & _).
  apply (H _ _ _ _ Hw eq_refl); [apply consistent_newParser|constructor].
Qed.

Lemma traversal_no_repeat_witness :
  processFunction fixtures.m_files (fuel_of 6) fixtures.sig_e 6
    (newParser fixtures.m_index) = Ok (fixtures.m_run 6)
  ∧ NoDup (visited (fixtures.m_run 6)).
Proof.
  assert (H : processFunction fixtures.m_files (fuel_of 6) fixtures.sig_e 6
                (newParser fixtures.m_index) = Ok (fixtures.m_run 6))
    by (vm_compute; reflexivity).
  split; [exact H|].
  exact (traversal_no_repeat fixtures.m_files fixtures.m_index (fuel_of 6)
           fixtures.sig_e 6 (fixtures.m_run 6) m_index_unique H).
Defined.

(** ** The walker: termination and leaves *)

Lemma processFunction_fuel_eq (readFile : string → option string)
    (fuel fuel' : nat) (funcSig : N) (depth : Z) (p : parser) :
  (fuel_of depth ≤ fuel)%nat → (fuel_of depth ≤ fuel')%nat →
  depth ≠ int_min →
  processFunction readFile fuel funcSig depth p =
    processFunction readFile fuel' funcSig depth p.
Proof.
  revert fuel' funcSig depth p. induction fuel as [|fuel IH];
    intros [|fuel'] funcSig depth p H H' Hmin;
    try (unfold fuel_of in *; lia).
  cbn [processFunction]. case_bool_decide; [reflexivity|].
  destruct (funcToFileAndPkg p !! funcSig) as [f|]; [|reflexivity].
  apply foldM_ext. intros p0 fn _. unfold visit_decl.
  destruct (Name fn) as [name|]; [|reflexivity].
  destruct (ObjectOf (pkg f) name) as [obj|]; [|reflexivity].
  destruct (objType obj) as [sig|]; [|reflexivity].
  destruct (negb (sig =? funcSig)%N); [reflexivity|].
  destruct (extractSourceCode readFile (Fset (pkg f)) (file f) fn)
    as [[funcSrc [e|]]|e|]; simpl; try reflexivity.
  unfold processUnderlyingFunctions.
  destruct (int_pred depth <=? 0) eqn:Hd; [reflexivity|].
  destruct (Body fn) as [body|]; [|reflexivity].
  apply foldM_ext. intros p1 ce _.
  destruct (callee (pkg f) ce) as [g|]; [|reflexivity].
  destruct (int_pred_pos depth Hmin) as [Heq Hmin']; [lia|].
  apply IH; [unfold fuel_of in *; lia..|exact Hmin'].
Qed.

(** X14. The traversal ends.  For a depth other than the least integer
    (whose predecessor wraps around to the greatest), the calls of
    [processFunction] through [processUnderlyingFunctions] nest at most
    [depth + 1] deep, whatever the call graph: with room for that many
    nested calls the run returns a parser or panics, and more room does not
    change its result. *)
Theorem processFunction_terminates (readFile : string → option string)
    (fuel : nat) (funcSig : N) (depth : Z) (p : parser) :
  depth ≠ int_min →
  (fuel_of depth ≤ fuel)%nat →
  processFunction readFile fuel funcSig depth p ≠ OutOfFuel
  ∧ processFunction readFile fuel funcSig depth p =
      processFunction readFile (fuel_of depth) funcSig depth p.
Proof.
  intros Hmin Hfuel. split.
  - by apply processFunction_fuel_enough.
  - by apply processFunction_fuel_eq.
Qed.

Lemma processFunction_terminates_witness :
  5 ≠ int_min
  ∧ (fuel_of 5 ≤ 40)%nat
  ∧ processFunction fixtures.m_files 40 fixtures.sig_e 5
      (newParser fixtures.m_index) ≠ OutOfFuel
  ∧ processFunction fixtures.m_files 40 fixtures.sig_e 5
      (newParser fixtures.m_index)
    = processFunction fixtures.m_files (fuel_of 5) fixtures.sig_e 5
        (newParser fixtures.m_index).
Proof.
  assert (Hmin : 5 ≠ int_min) by discriminate.
  assert (H : (fuel_of 5 ≤ 40)%nat) by (vm_compute; lia).
  split; [exact Hmin|]. split; [exact H|].
  exact (processFunction_terminates fixtures.m_files 40 fixtures.sig_e 5
           (newParser fixtures.m_index) Hmin H).
Defined.

Lemma leaf_call_seen (pkg : Package) (p : parser) (ce : CallExpr) (g : N) :
  callee pkg ce = Some g → g ∈ seen p → leaf_call pkg p ce.
Proof. intros Hg Hin. unfold leaf_call. rewrite Hg. by left. Qed.

(** X15. Calls that add nothing.  When every call that
    [processUnderlyingFunctions] inspects in a body resolves to no function
    signature (a call of a function literal, a conversion, a builtin), to a
    signature that is not indexed (the standard library, a package that the
    manifest does not list, a function value) or to a function already
    seen, it returns the parser as it is. *)
Theorem calls_to_leaves (readFile : string → option string) (fuel : nat)
    (pkg : Package) (fn : FuncDecl) (depth : Z) (p : parser) :
  Forall (leaf_call pkg p) (followed_calls fn depth) →
  processUnderlyingFunctions (processFunction readFile (S fuel)) pkg fn depth p
    = Ok p.
Proof.
  unfold processUnderlyingFunctions, followed_calls.
  destruct (depth <=? 0); [reflexivity|].
  destruct (Body fn) as [body|]; [|reflexivity].
  intros Hall. apply foldM_fixed. intros ce Hce.
  rewrite Forall_forall in Hall. specialize (Hall ce Hce).
  unfold leaf_call in Hall.
  destruct (callee pkg ce) as [g|]; [|reflexivity].
  cbn [processFunction]. case_bool_decide as Hseen; [reflexivity|].
  destruct Hall as [Hin|Hnone]; [contradiction|]. by rewrite Hnone.
Qed.

Lemma calls_to_leaves_witness :
  Forall (leaf_call fixtures.pkg_m (fixtures.m_run 5))
         (followed_calls
            (fixtures.oneliner fixtures.m_lines 2 "e"
               [IdentExpr (Some (fixtures.called fixtures.m_lines 2 "h"))]) 3)
  ∧ processUnderlyingFunctions
      (processFunction fixtures.m_files (fuel_of 3)) fixtures.pkg_m
      (fixtures.oneliner fixtures.m_lines 2 "e"
         [IdentExpr (Some (fixtures.called fixtures.m_lines 2 "h"))]) 3
      (fixtures.m_run 5)
    = Ok (fixtures.m_run 5).
Proof.
  assert (H : Forall (leaf_call fixtures.pkg_m (fixtures.m_run 5))
                (followed_calls
                   (fixtures.oneliner fixtures.m_lines 2 "e"
                      [IdentExpr (Some (fixtures.called fixtures.m_lines 2 "h"))])
                   3)).
  { change (Forall (leaf_call fixtures.pkg_m (fixtures.m_run 5))
              [{| Fun := IdentExpr
                           (Some (fixtures.called fixtures.m_lines 2 "h")) |}]).
    constructor; [|constructor].
    apply (leaf_call_seen _ _ _ fixtures.sig_h).
    - vm_compute; reflexivity.
    - apply (bool_decide_unpack _). vm_compute. reflexivity. }
  split; [exact H|].
  exact (calls_to_leaves fixtures.m_files (Z.to_nat 3) fixtures.pkg_m _ 3
           (fixtures.m_run 5) H).
Defined.

(** ** The symbol index: what it holds *)

Lemma foldl_preserves {A B : Type} (I : B → Prop) (f : B → A → B)
    (l : list A) (b : B) :
  (∀ b x, x ∈ l → I b → I (f b x)) → I b → I (foldl f b l).
Proof.
  revert b. induction l as [|x l IH]; intros b Hf Hb; [exact Hb|].
  simpl. apply IH.
  - intros b0 y Hy. apply Hf. by right.
  - apply Hf; [left|exact Hb].
Qed.

Lemma foldl_reaches {A B : Type} (I : B → Prop) (f : B → A → B)
    (l : list A) (b : B) (x : A) :
  x ∈ l → (∀ b, I (f b x)) → (∀ b y, I b → I (f b y)) → I (foldl f b l).
Proof.
  intros Hx Hadd Hkeep. revert b.
  induction l as [|y l IH]; intros b; [inversion Hx|].
  simpl. apply elem_of_cons in Hx as [->|Hx].
  - apply foldl_preserves; auto.
  - by apply IH.
Qed.

Lemma index_decl_keeps (pkg : Package) (file : File)
    (idx : gmap N fileAndPkg) (fn : FuncDecl) (sig : N) :
  is_Some (idx !! sig) → is_Some (index_decl pkg file idx fn !! sig).
Proof.
  intros Hs. unfold index_decl.
  destruct (decl_sig pkg fn) as [s|]; [|exact Hs].
  destruct (s =? 0)%N; [exact Hs|].
  rewrite lookup_insert_is_Some. destruct (decide (s = sig)); auto.
Qed.

Lemma index_decl_adds (pkg : Package) (file : File)
    (idx : gmap N fileAndPkg) (fn : FuncDecl) (sig : N) :
  decl_sig pkg fn = Some sig → sig ≠ 0%N →
  is_Some (index_decl pkg file idx fn !! sig).
Proof.
  intros Hsig Hnz. unfold index_decl. rewrite Hsig.
  apply N.eqb_neq in Hnz. rewrite Hnz, lookup_insert_eq. eauto.
Qed.

Lemma index_decl_nil (pkg : Package) (file : File)
    (idx : gmap N fileAndPkg) (fn : FuncDecl) :
  idx !! 0%N = None → index_decl pkg file idx fn !! 0%N = None.
Proof.
  intros H0. unfold index_decl.
  destruct (decl_sig pkg fn) as [s|]; [|exact H0].
  destruct (s =? 0)%N eqn:E; [exact H0|].
  apply N.eqb_neq in E. by rewrite lookup_insert_ne.
Qed.

Lemma index_pkg_keeps (pkg : Package) (idx : gmap N fileAndPkg) (sig : N) :
  is_Some (idx !! sig) → is_Some (index_pkg pkg idx !! sig).
Proof.
  unfold index_pkg.
  apply (foldl_preserves (λ idx, is_Some (idx !! sig))).
  intros idx0 file _.
  apply (foldl_preserves (λ idx, is_Some (idx !! sig))).
  intros idx1 fn _. apply index_decl_keeps.
Qed.

Lemma index_pkg_adds (pkg : Package) (idx : gmap N fileAndPkg) (file : File)
    (fn : FuncDecl) (sig : N) :
  file ∈ Syntax pkg → fn ∈ Decls file →
  decl_sig pkg fn = Some sig → sig ≠ 0%N →
  is_Some (index_pkg pkg idx !! sig).
Proof.
  intros Hfile Hfn Hsig Hnz. unfold index_pkg.
  apply (foldl_reaches (λ idx, is_Some (idx !! sig)) _ _ _ file Hfile).
  - intros idx0.
    apply (foldl_reaches (λ idx, is_Some (idx !! sig)) _ _ _ fn Hfn).
    + intros idx1. by apply index_decl_adds.
    + intros idx1 fn'. apply index_decl_keeps.
  - intros idx0 file'.
    apply (foldl_preserves (λ idx, is_Some (idx !! sig))).
    intros idx1 fn' _. apply index_decl_keeps.
Qed.

Lemma index_pkg_nil (pkg : Package) (idx : gmap N fileAndPkg) :
  idx !! 0%N = None → index_pkg pkg idx !! 0%N = None.
Proof.
  unfold index_pkg.
  apply (foldl_preserves (λ idx, idx !! 0%N = None)).
  intros idx0 file _.
  apply (foldl_preserves (λ idx, idx !! 0%N = None)).
  intros idx1 fn _. apply index_decl_nil.
Qed.

(** The index after one package is scanned. *)
Lemma scan_pkg_exact (goModPaths : list string) (funcName : string)
    (st st' : N * gmap N fileAndPkg) (pkg : Package) :
  scan_pkg goModPaths funcName st pkg = Ok st' →
  st'.2 = if isGoModPkg goModPaths (PkgPath pkg)
          then index_pkg pkg st.2 else st.2.
Proof.
  destruct goModPaths as [|root rest].
  - unfold scan_pkg. simpl. by intros [= <-].
  - destruct (decide (PkgPath pkg = root)) as [Heq|Hne].
    + rewrite scan_pkg_root by exact Heq. cbv zeta.
      destruct (_ =? 0)%N; [discriminate|]. intros [= <-]. simpl snd.
      by rewrite Heq, isGoModPkg_head.
    + rewrite scan_pkg_other by exact Hne. by intros [= <-].
Qed.

Lemma scan_pkgs_exact (goModPaths : list string) (funcName : string)
    (pkgs : list Package) (st st' : N * gmap N fileAndPkg) :
  foldM (scan_pkg goModPaths funcName) pkgs st = Ok st' →
  st'.2 = index_all goModPaths pkgs st.2.
Proof.
  unfold index_all. revert st.
  induction pkgs as [|pkg pkgs IH]; intros st.
  - by intros [= <-].
  - rewrite foldM_cons. intros (st1 & H1 & H2)%bind_Ok.
    apply scan_pkg_exact in H1. apply IH in H2. simpl. by rewrite <- H1.
Qed.

Lemma index_all_nil (goModPaths : list string) (pkgs : list Package)
    (idx : gmap N fileAndPkg) :
  idx !! 0%N = None → index_all goModPaths pkgs idx !! 0%N = None.
Proof.
  unfold index_all. apply (foldl_preserves (λ idx, idx !! 0%N = None)).
  intros idx0 pkg _ H0.
  destruct (isGoModPkg goModPaths (PkgPath pkg)); [|exact H0].
  by apply index_pkg_nil.
Qed.

(** X16. What the index holds.  The index that [initialize] returns is the
    result of indexing, in the order of loading, the packages that
    [isGoModPkg] accepts; it does not depend on the name of the entry
    point.  It holds every declaration of these packages that has a
    non-nil signature, and never the nil signature. *)
Theorem index_complete (m : Snapshot) (funcName : string)
    (goModPaths : list string) (pkgs : list Package) (funcSig : N)
    (idx : gmap N fileAndPkg) :
  parseGoModFile m = Ok goModPaths →
  loadPackages m = Ok pkgs →
  initialize m funcName = Ok (funcSig, idx) →
  idx = index_all goModPaths pkgs ∅
  ∧ (∀ pkg file fn sig,
       pkg ∈ pkgs → isGoModPkg goModPaths (PkgPath pkg) = true →
       file ∈ Syntax pkg → fn ∈ Decls file →
       decl_sig pkg fn = Some sig → sig ≠ 0%N →
       is_Some (idx !! sig))
  ∧ idx !! 0%N = None.
Proof.
  intros Hmod Hload Hinit. unfold initialize in Hinit.
  rewrite Hmod, Hload in Hinit. simpl in Hinit.
  apply scan_pkgs_exact in Hinit. simpl in Hinit. subst idx.
  split; [reflexivity|]. split.
  - intros pkg file fn sig Hpkg Hlisted Hfile Hfn Hsig Hnz. unfold index_all.
    apply (foldl_reaches (λ idx, is_Some (idx !! sig)) _ _ _ pkg Hpkg).
    + intros idx0. rewrite Hlisted. by eapply index_pkg_adds.
    + intros idx0 q Hs. destruct (isGoModPkg goModPaths (PkgPath q));
        [by apply index_pkg_keeps|exact Hs].
  - apply index_all_nil, lookup_empty.
Qed.

Lemma index_complete_witness :
  parseGoModFile fixtures.m_snapshot = Ok ["m"; "github.com/x/y"]
  ∧ loadPackages fixtures.m_snapshot
    = Ok [fixtures.pkg_m; fixtures.pkg_a; fixtures.pkg_b; fixtures.pkg_y]
  ∧ initialize fixtures.m_snapshot "e" = Ok (fixtures.sig_e, fixtures.m_index)
  ∧ fixtures.m_index !! 0%N = None.
Proof.
  assert (H1 : parseGoModFile fixtures.m_snapshot = Ok ["m"; "github.com/x/y"])
    by (vm_compute; reflexivity).
  assert (H2 : loadPackages fixtures.m_snapshot
               = Ok [fixtures.pkg_m; fixtures.pkg_a; fixtures.pkg_b;
                     fixtures.pkg_y]) by reflexivity.
  assert (H3 : initialize fixtures.m_snapshot "e"
               = Ok (fixtures.sig_e, fixtures.m_index))
    by (vm_compute; reflexivity).
  split; [exact H1|]. split; [exact H2|]. split; [exact H3|].
  apply (index_complete fixtures.m_snapshot "e" _ _ _ _ H1 H2 H3).
Defined.

(** ** The entry point *)

Lemma List_last_elem_of {A : Type} (l : list A) (d : A) :
  l ≠ [] → List.last l d ∈ l.
Proof.
  induction l as [|x l IH]; [done|]. intros _.
  destruct l as [|y l]; [left|]. right.
  change (List.last (y :: l) d ∈ y :: l). by apply IH.
Qed.

Lemma entry_sig_elim (funcName : string) (pkg : Package) (fn : FuncDecl)
    (sig : N) :
  entry_sig funcName pkg fn = Some sig →
  sig ≠ 0%N ∧ decl_sig pkg fn = Some sig ∧
  ∃ name, Name fn = Some name ∧ IdentName name = funcName.
Proof.
  unfold entry_sig. destruct (Name fn) as [name|] eqn:Hn; [|discriminate].
  simpl. destruct (decl_sig pkg fn) as [s|]; [|discriminate]. simpl.
  destruct (s =? 0)%N eqn:E; [discriminate|]. simpl.
  destruct (String.eqb (IdentName name) funcName) eqn:En; [|discriminate].
  intros [= ->]. apply N.eqb_neq in E. apply String.eqb_eq in En. eauto.
Qed.

Lemma entry_candidates_elim (funcName : string) (pkg : Package) (sig : N) :
  sig ∈ entry_candidates funcName pkg →
  ∃ file fn, file ∈ Syntax pkg ∧ fn ∈ Decls file ∧
             entry_sig funcName pkg fn = Some sig.
Proof.
  unfold entry_candidates.
  intros (file & Hfile & Hsig)%list_elem_of_In%in_flat_map.
  apply list_elem_of_In, list_elem_of_omap in Hsig as (fn & Hfn & Hsig).
  exists file, fn. split; [by apply list_elem_of_In|]. auto.
Qed.

(** X17. The entry signature is sound.  When [initialize] returns a
    non-nil entry signature, it is the signature of a declaration whose
    declared name is the requested one, in a loaded package whose path is
    exactly the first path of the manifest (a declaration of that name in a
    sub-package or in a requirement is never selected), and the index holds
    it. *)
Theorem initialize_entry_sound (m : Snapshot) (funcName root : string)
    (rest : list string) (pkgs : list Package) (funcSig : N)
    (idx : gmap N fileAndPkg) :
  parseGoModFile m = Ok (root :: rest) →
  loadPackages m = Ok pkgs →
  initialize m funcName = Ok (funcSig, idx) →
  funcSig ≠ 0%N →
  is_Some (idx !! funcSig)
  ∧ ∃ pkg file fn name,
      pkg ∈ pkgs ∧ PkgPath pkg = root ∧ file ∈ Syntax pkg ∧
      fn ∈ Decls file ∧ Name fn = Some name ∧ IdentName name = funcName ∧
      decl_sig pkg fn = Some funcSig.
Proof.
  intros Hmod Hload Hinit Hnz. unfold initialize in Hinit.
  rewrite Hmod, Hload in Hinit. simpl in Hinit.
  pose (I := λ st : N * gmap N fileAndPkg,
    st.1 = 0%N ∨
    (is_Some (st.2 !! st.1)
     ∧ ∃ pkg file fn name,
         pkg ∈ pkgs ∧ PkgPath pkg = root ∧ file ∈ Syntax pkg ∧
         fn ∈ Decls file ∧ Name fn = Some name ∧ IdentName name = funcName ∧
         decl_sig pkg fn = Some st.1)).
  assert (HI : I (funcSig, idx)).
  { revert Hinit. apply (foldM_invariant I); [|by left].
    intros st q st' Hq Hst.
    destruct (decide (PkgPath q = root)) as [Heq|Hne].
    - rewrite scan_pkg_root by exact Heq. cbv zeta.
      destruct (_ =? 0)%N eqn:E; [discriminate|]. intros [= <-].
      apply N.eqb_neq in E. unfold I in Hst |- *. cbn [fst snd].
      destruct (entry_candidates funcName q) as [|c cs] eqn:Hc.
      + simpl in E |- *. destruct Hst as [Hz|[Hs Hex]]; [contradiction|].
        right. split; [by apply index_pkg_keeps|exact Hex].
      + right.
        assert (Hin : List.last (c :: cs) st.1 ∈ entry_candidates funcName q)
          by (rewrite Hc; by apply List_last_elem_of).
        apply entry_candidates_elim in Hin as (file & fn & Hfile & Hfn & Hsig).
        apply entry_sig_elim in Hsig as (Hsz & Hsig & name & Hn & Hname).
        simpl. split; [by eapply index_pkg_adds|].
        exists q, file, fn, name. repeat split; auto.
    - rewrite scan_pkg_other by exact Hne. intros [= <-].
      unfold I in Hst |- *. cbn [fst snd].
      destruct Hst as [Hz|[Hs Hex]]; [by left|right].
      split; [|exact Hex].
      match goal with
      | |- is_Some ((if ?b then _ else _) !! _) => destruct b
      end; [by apply index_pkg_keeps|exact Hs]. }
  destruct HI as [Hz|HI]; [contradiction|exact HI].
Qed.

Lemma initialize_entry_sound_witness :
  parseGoModFile fixtures.m_snapshot = Ok ["m"; "github.com/x/y"]
  ∧ initialize fixtures.m_snapshot "e" = Ok (fixtures.sig_e, fixtures.m_index)
  ∧ fixtures.sig_e ≠ 0%N
  ∧ is_Some (fixtures.m_index !! fixtures.sig_e).
Proof.
  assert (H1 : parseGoModFile fixtures.m_snapshot = Ok ["m"; "github.com/x/y"])
    by (vm_compute; reflexivity).
  assert (H2 : loadPackages fixtures.m_snapshot
               = Ok [fixtures.pkg_m; fixtures.pkg_a; fixtures.pkg_b;
                     fixtures.pkg_y]) by reflexivity.
  assert (H3 : initialize fixtures.m_snapshot "e"
               = Ok (fixtures.sig_e, fixtures.m_index))
    by (vm_compute; reflexivity).
  assert (H4 : fixtures.sig_e ≠ 0%N) by discriminate.
  split; [exact H1|]. split; [exact H3|]. split; [exact H4|].
  apply (initialize_entry_sound fixtures.m_snapshot "e" "m" _ _ _ _
           H1 H2 H3 H4).
Defined.

Lemma scan_unrooted (goModPaths : list string) (funcName : string)
    (pkgs : list Package) (st : N * gmap N fileAndPkg) :
  (∀ pkg, pkg ∈ pkgs → head goModPaths ≠ Some (PkgPath pkg)) →
  ∃ idx, foldM (scan_pkg goModPaths funcName) pkgs st = Ok (st.1, idx).
Proof.
  intros Hno. destruct goModPaths as [|root rest].
  - exists st.2. rewrite foldM_fixed; [by destruct st|].
    intros pkg _. reflexivity.
  - apply scan_others. intros pkg Hpkg Heq. apply (Hno pkg Hpkg).
    simpl. by rewrite Heq.
Qed.

(** X18. A module whose root package is not loaded gives the empty
    document.  When no loaded package has the first path of the manifest
    as its path (the module directory holds no Go file of its own, or the
    manifest names no path at all), [initialize] never looks for the entry
    point: it returns the nil signature, the traversal visits nothing, and
    [Parse] returns the empty document instead of reporting that the
    function is not found.  It does so whenever the working directory was
    read before the module directory was entered and is restored
    afterwards; otherwise it panics with the error of the step that
    failed. *)
Theorem Parse_root_not_loaded (w : World) (dir funcName : string)
    (excludeRoot codeOnly : bool) (m : Snapshot) (goModPaths : list string)
    (pkgs : list Package) :
  chdir w dir = Some m →
  parseGoModFile m = Ok goModPaths →
  loadPackages m = Ok pkgs →
  (∀ pkg, pkg ∈ pkgs → head goModPaths ≠ Some (PkgPath pkg)) →
  (∃ idx, initialize m funcName = Ok (0%N, idx))
  ∧ Parse w dir funcName excludeRoot codeOnly =
      match getwd w with
      | None => Panic GetwdFailure
      | Some curDir =>
          if restore w curDir then Ok "" else Panic RestoreFailure
      end.
Proof.
  intros Hdir Hmod Hload Hno.
  destruct (scan_unrooted goModPaths funcName pkgs (0%N, ∅) Hno) as [idx Hscan].
  assert (Hinit : initialize m funcName = Ok (0%N, idx)).
  { unfold initialize. rewrite Hmod, Hload. exact Hscan. }
  split; [by exists idx|].
  assert (Hnil : idx !! 0%N = None).
  { apply scan_pkgs_exact in Hscan. simpl in Hscan. rewrite Hscan.
    apply index_all_nil, lookup_empty. }
  destruct (getwd w) as [curDir|] eqn:Hwd.
  2:{ unfold Parse, changeDir. by rewrite Hwd. }
  rewrite (Parse_entered w dir funcName excludeRoot codeOnly curDir m Hwd Hdir).
  rewrite Hinit.
  assert (Hrun : ∀ fuel depth,
    processFunction (readFile m) (S fuel) 0%N depth (newParser idx)
      = Ok (newParser idx)).
  { intros fuel depth. cbn [processFunction].
    rewrite bool_decide_eq_false_2 by apply not_elem_of_empty.
    change (funcToFileAndPkg (newParser idx)) with idx. by rewrite Hnil. }
  change (deferred (if restore w curDir then Ok tt else Panic RestoreFailure)
            (p ← processFunction (readFile m)
                   (fuel_of (if excludeRoot then 6 else 5)) 0%N
                   (if excludeRoot then 6 else 5) (newParser idx);
             Ok (toString p excludeRoot codeOnly))
          = (if restore w curDir then Ok "" else Panic RestoreFailure)).
  unfold fuel_of. rewrite Hrun.
  by destruct (restore w curDir).
Qed.

Lemma Parse_root_not_loaded_witness :
  chdir more_fixtures.sub_world "/src/m" = Some more_fixtures.sub_snapshot
  ∧ parseGoModFile more_fixtures.sub_snapshot = Ok ["m"]
  ∧ loadPackages more_fixtures.sub_snapshot
    = Ok [fixtures.pkg_a; fixtures.pkg_b]
  ∧ (∃ idx, initialize more_fixtures.sub_snapshot "F1" = Ok (0%N, idx))
  ∧ Parse more_fixtures.sub_world "/src/m" "F1" false true = Ok "".
Proof.
  assert (H1 : chdir more_fixtures.sub_world "/src/m"
               = Some more_fixtures.sub_snapshot) by reflexivity.
  assert (H2 : parseGoModFile more_fixtures.sub_snapshot = Ok ["m"])
    by (vm_compute; reflexivity).
  assert (H3 : loadPackages more_fixtures.sub_snapshot
               = Ok [fixtures.pkg_a; fixtures.pkg_b]) by reflexivity.
  split; [exact H1|]. split; [exact H2|]. split; [exact H3|].
  apply (Parse_root_not_loaded more_fixtures.sub_world "/src/m" "F1" false true
           more_fixtures.sub_snapshot ["m"] [fixtures.pkg_a; fixtures.pkg_b]
           H1 H2 H3).
  intros pkg Hpkg. apply elem_of_cons in Hpkg as [->|Hpkg].
  - simpl. discriminate.
  - apply list_elem_of_singleton in Hpkg. subst pkg. simpl. discriminate.
Defined.

(** X19. [Parse] returns a document on a module that can be sliced.  When
    the working directory can be read, the module directory entered and
    the working directory restored, [initialize] returns an entry
    signature and an index, and slicing cannot fail on that index, then
    the traversal returns a parser and [Parse] returns the document
    rendered from it. *)
Theorem Parse_returns (w : World) (dir funcName : string)
    (excludeRoot codeOnly : bool) (m : Snapshot) (funcSig : N)
    (idx : gmap N fileAndPkg) :
  enters w dir m →
  initialize m funcName = Ok (funcSig, idx) →
  sliceable (readFile m) idx →
  ∃ p,
    processFunction (readFile m) (fuel_of (if excludeRoot then 6 else 5))
      funcSig (if excludeRoot then 6 else 5) (newParser idx) = Ok p
    ∧ Parse w dir funcName excludeRoot codeOnly
      = Ok (toString p excludeRoot codeOnly).
Proof.
  intros Hdir Hinit Hslice.
  destruct (processFunction_returns (readFile m) idx Hslice
              (fuel_of (if excludeRoot then 6 else 5)) funcSig
              (if excludeRoot then 6 else 5) (newParser idx))
    as [p Hp]; [lia|by destruct excludeRoot|reflexivity|].
  exists p. split; [exact Hp|].
  rewrite (Parse_traversal w dir funcName excludeRoot codeOnly m funcSig idx
             Hdir Hinit).
  by rewrite Hp.
Qed.

Lemma Parse_returns_witness :
  enters fixtures.m_world "/src/m" fixtures.m_snapshot
  ∧ initialize fixtures.m_snapshot "e" = Ok (fixtures.sig_e, fixtures.m_index)
  ∧ ∃ p,
      processFunction fixtures.m_files (fuel_of 6) fixtures.sig_e 6
        (newParser fixtures.m_index) = Ok p
      ∧ Parse fixtures.m_world "/src/m" "e" true false
        = Ok (toString p true false).
Proof.
  assert (H1 : enters fixtures.m_world "/src/m" fixtures.m_snapshot)
    by (by exists "/home").
  assert (H2 : initialize fixtures.m_snapshot "e"
               = Ok (fixtures.sig_e, fixtures.m_index))
    by (vm_compute; reflexivity).
  split; [exact H1|]. split; [exact H2|].
  exact (Parse_returns fixtures.m_world "/src/m" "e" true false
           fixtures.m_snapshot fixtures.sig_e fixtures.m_index
           H1 H2 m_index_sliceable).
Defined.

(** ** Panics and their causes *)

Lemma foldM_panic_elim {A B : Type} (f : B → A → result B) (l : list A)
    (b : B) (e : error) :
  foldM f l b = Panic e → ∃ b0 x, x ∈ l ∧ f b0 x = Panic e.
Proof.
  revert b. induction l as [|x l IH]; intros b; [discriminate|].
  rewrite foldM_cons. destruct (f b x) as [b1|e1|] eqn:Hx; simpl.
  - intros (b0 & y & Hy & Hp)%IH. exists b0, y. split; [by right|exact Hp].
  - intros [= ->]. exists b, x. split; [left|exact Hx].
  - discriminate.
Qed.

Lemma extractSourceCode_errors (readFile : string → option string)
    (fset : FileSet) (file : File) (fn : FuncDecl) :
  (∀ e, extractSourceCode readFile fset file fn = Panic e →
        e = IndexOutOfRange)
  ∧ (∀ funcSrc e, extractSourceCode readFile fset file fn
                  = Ok (funcSrc, Some e) → e = SourceReadFailure).
Proof.
  unfold extractSourceCode.
  destruct (readFile _) as [fileContent|]; [|split; congruence].
  destruct (Doc fn) as [comments|].
  - rewrite writeComments_spec. cbv zeta.
    destruct (forallb _ _); simpl; [|split; congruence].
    rewrite writeLines_spec. destruct (range_ok _ _); simpl; split; congruence.
  - simpl. rewrite writeLines_spec.
    destruct (range_ok _ _); simpl; split; congruence.
Qed.

Lemma processFunction_panics (readFile : string → option string) (fuel : nat)
    (funcSig : N) (depth : Z) (p : parser) (e : error) :
  processFunction readFile fuel funcSig depth p = Panic e → walker_error e.
Proof.
  revert funcSig depth p. induction fuel as [|fuel IH];
    intros funcSig depth p; [discriminate|].
  cbn [processFunction]. case_bool_decide; [discriminate|].
  destruct (funcToFileAndPkg p !! funcSig) as [f|]; [|discriminate].
  intros (p0 & fn & _ & Hv)%foldM_panic_elim. revert Hv. unfold visit_decl.
  destruct (Name fn) as [name|]; [|discriminate].
  destruct (ObjectOf (pkg f) name) as [obj|];
    [|intros [= <-]; right; by left].
  destruct (objType obj) as [sig|]; [|discriminate].
  destruct (negb (sig =? funcSig)%N); [discriminate|].
  destruct (extractSourceCode_errors readFile (Fset (pkg f)) (file f) fn)
    as [Hpanic Herr].
  destruct (extractSourceCode readFile (Fset (pkg f)) (file f) fn)
    as [[funcSrc [e0|]]|e0|]; simpl.
  - intros [= <-]. left. by eapply Herr.
  - unfold processUnderlyingFunctions.
    destruct (int_pred depth <=? 0); [discriminate|].
    destruct (Body fn) as [body|]; [|discriminate].
    intros (p1 & ce & _ & Hc)%foldM_panic_elim.
    destruct (callee (pkg f) ce) as [g|]; [|discriminate].
    by eapply IH.
  - intros [= <-]. right; right. by apply Hpanic.
  - discriminate.
Qed.

Lemma scan_pkg_panics (goModPaths : list string) (funcName : string)
    (st : N * gmap N fileAndPkg) (pkg : Package) (e : error) :
  scan_pkg goModPaths funcName st pkg = Panic e →
  e = EntryPointNotFound funcName.
Proof.
  destruct goModPaths as [|root rest]; [discriminate|].
  destruct (decide (PkgPath pkg = root)) as [Heq|Hne].
  - rewrite scan_pkg_root by exact Heq. cbv zeta.
    destruct (_ =? 0)%N; [|discriminate]. by intros [= <-].
  - rewrite scan_pkg_other by exact Hne. discriminate.
Qed.

Lemma parseGoModFile_panics (m : Snapshot) (e : error) :
  parseGoModFile m = Panic e →
  (e = ManifestUnreadable ∧ goMod m = None) ∨ e = IndexOutOfRange.
Proof.
  unfold parseGoModFile. destruct (goMod m) as [content|];
    [|intros [= <-]; by left].
  intros (paths & line & _ & Hstep)%foldM_panic_elim. right.
  destruct (parseGoModFile_line line paths)
    as [[_ Hp]|[_ [Hp|(w & Hp & _)]]];
    cbv zeta in Hp; rewrite Hp in Hstep; congruence.
Qed.

Lemma initialize_panics (m : Snapshot) (funcName : string) (e : error) :
  initialize m funcName = Panic e →
  (e = ManifestUnreadable ∧ goMod m = None)
  ∨ (e = IndexOutOfRange ∧ parseGoModFile m = Panic IndexOutOfRange)
  ∨ ∃ goModPaths, parseGoModFile m = Ok goModPaths ∧
      ((e = PackageLoadFailure ∧ load m = None)
       ∨ (e = NoPackagesFound ∧ load m = Some [])
       ∨ e = EntryPointNotFound funcName).
Proof.
  unfold initialize.
  destruct (parseGoModFile m) as [paths|e1|] eqn:Hmod; simpl.
  - intros Hinit. right; right. exists paths. split; [reflexivity|].
    revert Hinit. unfold loadPackages.
    destruct (load m) as [[|pkg pkgs]|]; simpl.
    + intros [= <-]. right; by left.
    + intros Hscan.
      apply (foldM_panic_elim (scan_pkg paths funcName) (pkg :: pkgs))
        in Hscan as (st & q & _ & Hq).
      apply scan_pkg_panics in Hq. by right; right.
    + intros [= <-]. by left.
  - intros [= <-].
    destruct (parseGoModFile_panics m e1 Hmod) as [[-> Hg]| ->];
      [by left|right; by left].
  - discriminate.
Qed.

Lemma initialize_manifest (m : Snapshot) (funcName : string)
    (st : N * gmap N fileAndPkg) :
  initialize m funcName = Ok st →
  ∃ goModPaths, parseGoModFile m = Ok goModPaths.
Proof.
  unfold initialize.
  destruct (parseGoModFile m) as [paths| |]; [eauto|discriminate..].
Qed.

(** Every panic of [Parse] and the step that raised it. *)
Lemma Parse_outcome (w : World) (dir funcName : string)
    (excludeRoot codeOnly : bool) (e : error) :
  Parse w dir funcName excludeRoot codeOnly = Panic e →
  (e = GetwdFailure ∧ getwd w = None)
  ∨ (e = WorkingDirectoryFailure ∧
     ∃ curDir, getwd w = Some curDir ∧ chdir w dir = None)
  ∨ (e = RestoreFailure ∧
     ∃ curDir m, getwd w = Some curDir ∧ chdir w dir = Some m ∧
                 restore w curDir = false)
  ∨ ∃ m, enters w dir m ∧
      ((e = ManifestUnreadable ∧ goMod m = None)
       ∨ (e = IndexOutOfRange ∧ parseGoModFile m = Panic IndexOutOfRange)
       ∨ ∃ goModPaths, parseGoModFile m = Ok goModPaths ∧
           ((e = PackageLoadFailure ∧ load m = None)
            ∨ (e = NoPackagesFound ∧ load m = Some [])
            ∨ (e = EntryPointNotFound funcName ∧
               initialize m funcName = Panic (EntryPointNotFound funcName))
            ∨ (walker_error e ∧
               ∃ funcSig idx, initialize m funcName = Ok (funcSig, idx)))).
Proof.
  intros H.
  destruct (getwd w) as [curDir|] eqn:Hwd.
  2:{ revert H. unfold Parse, changeDir. rewrite Hwd. intros [= <-]. by left. }
  destruct (chdir w dir) as [m|] eqn:Hdir.
  2:{ revert H. unfold Parse, changeDir. rewrite Hwd, Hdir. intros [= <-].
      right; left. eauto. }
  destruct (restore w curDir) eqn:Hback.
  2:{ rewrite (Parse_entered _ _ _ _ _ _ _ Hwd Hdir), Hback in H.
      apply deferred_Panic in H. right; right; left. eauto 6. }
  assert (Hent : enters w dir m) by (exists curDir; auto).
  right; right; right. exists m. split; [exact Hent|].
  destruct (initialize m funcName) as [[funcSig idx]|e0|] eqn:Hinit.
  - rewrite (Parse_traversal w dir funcName excludeRoot codeOnly m funcSig idx
               Hent Hinit) in H.
    destruct (initialize_manifest _ _ _ Hinit) as [paths Hmod].
    right; right. exists paths. split; [exact Hmod|].
    right; right; right. split; [|eauto].
    destruct (processFunction (readFile m)
                (fuel_of (if excludeRoot then 6 else 5)) funcSig
                (if excludeRoot then 6 else 5) (newParser idx))
      as [p|e1|] eqn:Hrun; simpl in H; try discriminate.
    injection H as <-. by eapply processFunction_panics.
  - assert (e = e0) as <-.
    { rewrite (Parse_enters _ _ _ _ _ _ Hent), Hinit in H. simpl in H.
      congruence. }
    destruct (initialize_panics m funcName e Hinit)
      as [?|[?|(paths & Hmod & [?|[?|Hnf]])]]; auto.
    + right; right. exists paths. split; [exact Hmod|]. by left.
    + right; right. exists paths. split; [exact Hmod|]. right; by left.
    + right; right. exists paths. split; [exact Hmod|]. right; right; left.
      split; [exact Hnf|]. by rewrite <- Hnf.
  - rewrite (Parse_enters _ _ _ _ _ _ Hent), Hinit in H. discriminate.
Qed.

(** The cases of [Parse_outcome], the impossible ones closed. *)
Ltac panic_cases H :=
  destruct H as
    [[? ?]|[[? (? & ? & ?)]|[[? (? & ? & ? & ? & ?)]|
     (? & ? & [[? ?]|[[? ?]|(? & ? &
       [[? ?]|[[? ?]|[[? ?]|[[?|[?|?]] (? & ? & ?)]]]])]])]]];
  try discriminate; eauto 10.

(** X20. Every panic names its cause.  [Parse] panics because the working
    directory cannot be read exactly when it cannot; because the module
    directory cannot be entered exactly when the working directory is read
    and the module directory cannot be entered; because the working
    directory cannot be restored exactly when the module directory was
    entered and the return fails, whatever happened in between.  When the
    module directory is entered and can be left again: [Parse] panics
    because the manifest cannot be read exactly when it cannot be read;
    because the packages cannot be loaded, or none is found, exactly when
    the manifest was read to the end and the loader fails, or returns no
    package; a panic for a function not found names the requested function
    and is raised by [initialize]; and an unreadable source file or a
    declaration without an object only stops [Parse] once [initialize] has
    returned. *)
Theorem Parse_panic_causes (w : World) (dir funcName : string)
    (excludeRoot codeOnly : bool) :
  (Parse w dir funcName excludeRoot codeOnly = Panic GetwdFailure
   ↔ getwd w = None)
  ∧ (Parse w dir funcName excludeRoot codeOnly = Panic WorkingDirectoryFailure
     ↔ ∃ curDir, getwd w = Some curDir ∧ chdir w dir = None)
  ∧ (Parse w dir funcName excludeRoot codeOnly = Panic RestoreFailure
     ↔ ∃ curDir m, getwd w = Some curDir ∧ chdir w dir = Some m ∧
                   restore w curDir = false)
  ∧ (Parse w dir funcName excludeRoot codeOnly = Panic ManifestUnreadable
     ↔ ∃ m, enters w dir m ∧ goMod m = None)
  ∧ (Parse w dir funcName excludeRoot codeOnly = Panic PackageLoadFailure
     ↔ ∃ m goModPaths, enters w dir m ∧
                       parseGoModFile m = Ok goModPaths ∧ load m = None)
  ∧ (Parse w dir funcName excludeRoot codeOnly = Panic NoPackagesFound
     ↔ ∃ m goModPaths, enters w dir m ∧
                       parseGoModFile m = Ok goModPaths ∧ load m = Some [])
  ∧ (∀ f, Parse w dir funcName excludeRoot codeOnly
          = Panic (EntryPointNotFound f) →
          f = funcName ∧
          ∃ m, enters w dir m ∧
               initialize m funcName = Panic (EntryPointNotFound funcName))
  ∧ (∀ e, Parse w dir funcName excludeRoot codeOnly = Panic e →
          e = SourceReadFailure ∨ e = NilDereference →
          ∃ m funcSig idx, enters w dir m ∧
                           initialize m funcName = Ok (funcSig, idx)).
Proof.
  pose proof (Parse_outcome w dir funcName excludeRoot codeOnly) as Hout.
  unfold walker_error in Hout.
  repeat split.
  - intros H. apply Hout in H. panic_cases H.
  - intros Hwd. unfold Parse, changeDir. by rewrite Hwd.
  - intros H. apply Hout in H. panic_cases H.
  - intros (curDir & Hwd & Hdir). unfold Parse, changeDir.
    by rewrite Hwd, Hdir.
  - intros H. apply Hout in H. panic_cases H.
  - intros (curDir & m & Hwd & Hdir & Hback).
    rewrite (Parse_entered _ _ _ _ _ _ _ Hwd Hdir), Hback.
    apply deferred_Panic_intro.
    apply bind_fuel; [apply initialize_fuel|].
    intros [funcSig idx]. apply bind_fuel; [|discriminate].
    destruct excludeRoot; apply processFunction_fuel_enough;
      reflexivity || discriminate.
  - intros H. apply Hout in H. panic_cases H.
  - intros (m & Hent & Hmod). rewrite (Parse_enters _ _ _ _ _ _ Hent).
    unfold initialize, parseGoModFile. by rewrite Hmod.
  - intros H. apply Hout in H. panic_cases H.
  - intros (m & paths & Hent & Hmod & Hload).
    rewrite (Parse_enters _ _ _ _ _ _ Hent).
    unfold initialize, loadPackages. by rewrite Hmod; simpl; rewrite Hload.
  - intros H. apply Hout in H. panic_cases H.
  - intros (m & paths & Hent & Hmod & Hload).
    rewrite (Parse_enters _ _ _ _ _ _ Hent).
    unfold initialize, loadPackages. by rewrite Hmod; simpl; rewrite Hload.
  - apply Hout in H. panic_cases H. congruence.
  - apply Hout in H. panic_cases H.
  - intros e H He. apply Hout in H. destruct He; subst e; panic_cases H.
Qed.

(** ** From the traversal to the document *)

(** X21. The functions that the entry point calls are extracted.  With a
    depth of at least 2, every function that a declaration of the entry
    point calls, if the index holds it with a declaration that carries its
    signature, is among the functions that the traversal from a new parser
    extracts. *)
Theorem direct_callees_extracted (readFile : string → option string)
    (idx : gmap N fileAndPkg) (fuel : nat) (e g : N) (depth : Z)
    (fg : fileAndPkg) (p' : parser) :
  2 ≤ depth →
  g ∈ callees_of idx e →
  idx !! g = Some fg →
  (∃ fn, fn ∈ Decls (file fg) ∧ decl_sig (pkg fg) fn = Some g) →
  processFunction readFile fuel e depth (newParser idx) = Ok p' →
  g ∈ visited p'.
Proof.
  intros Hdepth Hg Hfg Hcarrier Hw%processFunction_walk.
  apply callees_of_elim in Hg
    as (f & fn & body & ce & Hf & Hfn & Hsig & Hbody & Hce & Hcallee).
  assert (Hc : consistent p')
    by (eapply walk_consistent; [exact Hw|apply consistent_newParser]).
  apply (consistent_seen p' Hc).
  inversion Hw as [? ? ? Hseen|? ? ? _ Hnone|? ? ? f0 ? _ Hf0 Hdecls]; subst.
  - inversion Hseen.
  - simpl in Hnone. congruence.
  - simpl in Hf0. assert (f0 = f) as -> by congruence.
    eapply (walk_decls_marks_callee readFile); eauto.
    unfold followed_calls. rewrite Hbody.
    rewrite int_pred_eq by (pose proof int_min_neg; lia).
    replace (depth - 1 <=? 0) with false by lia. exact Hce.
Qed.

Lemma direct_callees_extracted_witness :
  2 ≤ 5
  ∧ fixtures.sig_h ∈ callees_of fixtures.m_index fixtures.sig_e
  ∧ processFunction fixtures.m_files (fuel_of 5) fixtures.sig_e 5
      (newParser fixtures.m_index) = Ok (fixtures.m_run 5)
  ∧ fixtures.sig_h ∈ visited (fixtures.m_run 5).
Proof.
  assert (H1 : 2 ≤ 5) by lia.
  assert (H2 : fixtures.sig_h ∈ callees_of fixtures.m_index fixtures.sig_e)
    by (apply (bool_decide_unpack _); vm_compute; reflexivity).
  assert (H3 : fixtures.m_index !! fixtures.sig_h
               = Some {| file := fixtures.m_file; pkg := fixtures.pkg_m |})
    by (vm_compute; reflexivity).
  assert (H4 : ∃ fn, fn ∈ Decls fixtures.m_file
                     ∧ decl_sig fixtures.pkg_m fn = Some fixtures.sig_h).
  { eexists. split; [right; left|]. vm_compute; reflexivity. }
  assert (H5 : processFunction fixtures.m_files (fuel_of 5) fixtures.sig_e 5
                 (newParser fixtures.m_index) = Ok (fixtures.m_run 5))
    by (vm_compute; reflexivity).
  split; [exact H1|]. split; [exact H2|]. split; [exact H5|].
  exact (direct_callees_extracted fixtures.m_files fixtures.m_index (fuel_of 5)
           fixtures.sig_e fixtures.sig_h 5 _ (fixtures.m_run 5)
           H1 H2 H3 H4 H5).
Defined.

(** X22. No extracted function is lost.  The source sliced for every
    function that a traversal from a new parser extracts occurs in the
    document rendered with [excludeRoot = false]; it occurs in the document
    rendered with [excludeRoot = true] when the function is filed under a
    package other than the first one listed. *)
Theorem document_contains_extracted (readFile : string → option string)
    (idx : gmap N fileAndPkg) (fuel : nat) (e : N) (depth : Z) (p' : parser)
    (codeOnly : bool) (a sig : N) (src : string) :
  processFunction readFile fuel e depth (newParser idx) = Ok p' →
  (a, sig, src) ∈ extracted p' →
  contains (toString p' false codeOnly) src
  ∧ (Some a ≠ pkgAddr <$> head (pkgOrder p') →
     contains (toString p' true codeOnly) src).
Proof.
  intros Hw%processFunction_walk Hen.
  apply walk_consistent in Hw; [|apply consistent_newParser].
  assert (Hpkg : ∃ pkg, pkg ∈ pkgOrder p' ∧ pkgAddr pkg = a).
  { assert (Ha : a ∈ map pkgAddr (pkgOrder p')).
    { apply (consistent_order p' Hw). rewrite (consistent_functions p' Hw).
      destruct (decide (chunks a (extracted p') = [])) as [Hnil|]; [|eauto].
      exfalso.
      assert (Hin : (a, sig, src) ∈ chunks a (extracted p'))
        by (apply list_elem_of_filter; split; [reflexivity|exact Hen]).
      rewrite Hnil in Hin. inversion Hin. }
    apply list_elem_of_fmap in Ha as (pkg & -> & Hpkg). eauto. }
  destruct Hpkg as (pkg & Hpkg & <-).
  assert (Htext : contains (functions_at p' pkg) src).
  { rewrite functions_at_text by exact Hw.
    apply (contains_text_of (extracted p') (pkgAddr pkg, sig, src) Hen). }
  split.
  - rewrite toString_false_blocks.
    eapply contains_trans; [by apply contains_blocks|exact Htext].
  - intros Hne. rewrite toString_true_blocks.
    eapply contains_trans; [apply contains_blocks|exact Htext].
    destruct (pkgOrder p') as [|P0 pkgs]; [inversion Hpkg|].
    apply elem_of_cons in Hpkg as [->|Hpkg]; [|exact Hpkg].
    by destruct Hne.
Qed.

Lemma document_contains_extracted_witness :
  processFunction fixtures.m_files (fuel_of 6) fixtures.sig_e 6
    (newParser fixtures.m_index) = Ok (fixtures.m_run 6)
  ∧ (pkgAddr fixtures.pkg_b, fixtures.sig_G2, "func G2() { G2() }" +:+ LF)
      ∈ extracted (fixtures.m_run 6)
  ∧ contains (toString (fixtures.m_run 6) false true)
             ("func G2() { G2() }" +:+ LF).
Proof.
  assert (H : processFunction fixtures.m_files (fuel_of 6) fixtures.sig_e 6
                (newParser fixtures.m_index) = Ok (fixtures.m_run 6))
    by (vm_compute; reflexivity).
  assert (Hin : (pkgAddr fixtures.pkg_b, fixtures.sig_G2,
                 "func G2() { G2() }" +:+ LF) ∈ extracted (fixtures.m_run 6))
    by (apply (bool_decide_unpack _); vm_compute; reflexivity).
  split; [exact H|]. split; [exact Hin|].
  apply (document_contains_extracted fixtures.m_files fixtures.m_index
           (fuel_of 6) fixtures.sig_e 6 (fixtures.m_run 6) true _ _ _ H Hin).
Defined.
